(** * Conditional-exports resolution of turbo-meta-utilities

    A shallow embedding of [ExportTarget] and [GlobResolver] from
    [src/package-json.ts] (the revision with conditional exports), and
    the properties of the export-map resolver stated by its specification.

    JavaScript values are modelled as follows.
    - A string is the [string] of the bytes of its UTF-8 encoding.
    - [string | undefined] is [option string]; [undefined] is [None].
    - An object used as a record of own properties is its sequence of
      entries, in the order [Object.entries] enumerates them; keys are
      looked up with [hasOwnProperty].
    - An exception is a [Throw] completion. *)

From Stdlib Require Import String Ascii List Bool Sorted.
From stdpp Require Import base option list sets gmap strings.

Local Open Scope string_scope.
Local Open Scope list_scope.

(* stdpp's solvers clear hypotheses by name; under this version of Rocq
   that is reported each time a name is absent. *)
#[local] Set Warnings "-clear-no-such-hyp".

(** ** The JavaScript operations the source relies on *)

Module Js.

(** The outcome of a call: a returned value or a thrown error. *)
Inductive completion (E A : Type) : Type :=
  | Normal (value : A)
  | Throw (error : E).
Arguments Normal {E A} value.
Arguments Throw {E A} error.

(** [a ?? b] on optional values. *)
Definition nullish {A : Type} (a b : option A) : option A :=
  match a with
  | Some _ => a
  | None => b
  end.

(** [!x] for [x : string | undefined]: [undefined] and the empty
    string are the falsy values. *)
Definition falsy (x : option string) : bool :=
  match x with
  | None => true
  | Some "" => true
  | Some _ => false
  end.

(** [s.startsWith(needle)]. *)
Fixpoint startsWith (needle s : string) : bool :=
  match needle, s with
  | "", _ => true
  | String a needle', String b s' => Ascii.eqb a b && startsWith needle' s'
  | String _ _, "" => false
  end.

(** [s.includes(needle)]. *)
Fixpoint includes (s needle : string) : bool :=
  startsWith needle s ||
  match s with
  | "" => false
  | String _ s' => includes s' needle
  end.

(** [s.replace(/needle/g, fn)] for a literal, non-empty [needle] and a
    replacer function that reads and updates a captured variable of
    type [St].  Matches are found left to right and do not overlap:
    after a match the scan resumes behind it ([skip] counts the
    characters of the current match still to be passed over). *)
Fixpoint replaceWith {St : Type} (needle : string)
    (fn : St -> string * St) (skip : nat) (st : St) (s : string)
    : string * St :=
  match s with
  | "" => ("", st)
  | String c s' =>
      match skip with
      | S k => replaceWith needle fn k st s'
      | O =>
          if startsWith needle s then
            let '(r, st1) := fn st in
            let '(out, st2) :=
              replaceWith needle fn (String.length needle - 1) st1 s' in
            (r +:+ out, st2)
          else
            let '(out, st1) := replaceWith needle fn O st s' in
            (String c out, st1)
      end
  end.

(** [s.replace(/needle/g, replacement)] for a replacement string
    without [$] patterns. *)
Definition replaceAll (needle replacement s : string) : string :=
  fst (replaceWith needle (fun u : unit => (replacement, u)) O tt s).

(** [s.replace] with a global character-class pattern and the
    replacement made of a backslash and the matched character. *)
Fixpoint escapeClass (class : ascii -> bool) (s : string) : string :=
  match s with
  | "" => ""
  | String c s' =>
      if class c then String "\" (String c (escapeClass class s'))
      else String c (escapeClass class s')
  end.

(** Regular expressions, for the sources [_globToRegex] can build: an
    opening caret, then literal characters, backslash-escaped syntax
    characters and two kinds of capture group (a greedy run of
    characters other than a slash, and a greedy run of any characters
    but line terminators), then a closing dollar.  Any other source is
    outside the model ([None]). *)
Module RegExp.

Inductive node : Type :=
  | Char (c : ascii)
  | GroupSegment
  | GroupAny.

Definition syntaxCharacter (c : ascii) : bool :=
  existsb (Ascii.eqb c)
    ["^"; "$"; "\"; "."; "*"; "+"; "?"; "("; ")"; "["; "]"; "{"; "}"; "|"]%char.

(** The line terminators, which a dot does not match: the line feed,
    the carriage return, and the line and paragraph separators U+2028
    and U+2029, in UTF-8 the bytes 226 128 168 and 226 128 169.
    [lineTerminator c rest] tells whether one starts at the byte [c],
    with [rest] behind it. *)
Definition lineSeparator : string :=
  String "226" (String "128" (String "168" "")).

Definition paragraphSeparator : string :=
  String "226" (String "128" (String "169" "")).

Definition lineTerminator (c : ascii) (rest : string) : bool :=
  Ascii.eqb c "010" || Ascii.eqb c "013"
  || startsWith lineSeparator (String c rest)
  || startsWith paragraphSeparator (String c rest).

(** Whether a group may take the byte [c], with [rest] behind it: the
    class of [GroupSegment] refuses the slash only, the dot of
    [GroupAny] refuses to enter a line terminator. *)
Definition admits (n : node) (c : ascii) (rest : string) : bool :=
  match n with
  | Char _ => false
  | GroupSegment => negb (Ascii.eqb c "/")
  | GroupAny => negb (lineTerminator c rest)
  end.

(** The body of a source, behind its [^]; [escaped] tells that the
    previous character was an unescaped backslash, [skip] counts the
    characters of a group still to be passed over. *)
Fixpoint parse (escaped : bool) (skip : nat) (source : string)
    : option (list node) :=
  match source with
  | "" => None
  | String c rest =>
      match skip with
      | S k => parse false k rest
      | O =>
          if escaped then
            if syntaxCharacter c then cons (Char c) <$> parse false O rest
            else None
          else if Ascii.eqb c "\" then parse true O rest
          else if startsWith "([^/]*)" source then
            cons GroupSegment <$> parse false 6 rest
          else if startsWith "(.*)" source then
            cons GroupAny <$> parse false 3 rest
          else if Ascii.eqb c "$" then
            match rest with
            | "" => Some []
            | String _ _ => None
            end
          else if syntaxCharacter c then None
          else cons (Char c) <$> parse false O rest
      end
  end.

Definition compile (source : string) : option (list node) :=
  match source with
  | String "^" body => parse false O body
  | _ => None
  end.

(** Backtracking match of the whole input against the nodes; a group
    is greedy: it first tries to take one more byte.  The
    result lists the captures of the groups, left to right. *)
Fixpoint exec (nodes : list node) : string -> option (list string) :=
  match nodes with
  | [] => fun s =>
      match s with
      | "" => Some []
      | String _ _ => None
      end
  | Char c :: nodes' => fun s =>
      match s with
      | String d s' => if Ascii.eqb c d then exec nodes' s' else None
      | "" => None
      end
  | group :: nodes' =>
      fix take (s : string) : option (list string) :=
        let stop := cons "" <$> exec nodes' s in
        match s with
        | String d s' =>
            if admits group d s' then
              match take s' with
              | Some (capture :: captures) =>
                  Some (String d capture :: captures)
              | _ => stop
              end
            else stop
        | "" => stop
        end
  end.

(** [s.match(new RegExp(source))] for a source anchored at both
    ends: the matched text, which is all of [s], then the
    captures. *)
Definition match_ (s source : string) : option (list string) :=
  nodes ← compile source; cons s <$> exec nodes s.

End RegExp.

(** Own properties of an object, in enumeration order. *)
Definition object (V : Type) : Type := list (string * V).

(** [Object.prototype.hasOwnProperty.call(o, key)]. *)
Fixpoint hasOwnProperty {V : Type} (o : object V) (key : string) : bool :=
  match o with
  | [] => false
  | (k, _) :: o' => String.eqb k key || hasOwnProperty o' key
  end.

(** [o[key]] for an own property; [None] when there is none. *)
Fixpoint get {V : Type} (o : object V) (key : string) : option V :=
  match o with
  | [] => None
  | (k, v) :: o' => if String.eqb k key then Some v else get o' key
  end.

(** [f(o[key])] when [key] is an own property of [o]: the lookup and
    the call on the value found, in one pass over the entries. *)
Fixpoint getWith {V R : Type} (f : V -> R) (o : object V) (key : string)
    : option R :=
  match o with
  | [] => None
  | (k, v) :: o' => if String.eqb k key then Some (f v) else getWith f o' key
  end.

(** [o[key] = v] on a plain object: an existing own property keeps its
    place, a new one is added last.  The key [__proto__] reaches the
    prototype setter of [Object.prototype] and creates no own
    property. *)
Fixpoint assign {V : Type} (o : object V) (key : string) (v : V)
    {struct o} : object V :=
  if String.eqb key "__proto__" then o
  else
    match o with
    | [] => [(key, v)]
    | (k, w) :: o' =>
        if String.eqb k key then (k, v) :: o' else (k, w) :: assign o' key v
    end.

(** The value of a string of decimal digits, read behind the value
    [n] of the digits before it. *)
Fixpoint decimal (n : N) (s : string) : option N :=
  match s with
  | "" => Some n
  | String c s' =>
      if ((48 <=? N_of_ascii c) && (N_of_ascii c <=? 57))%N then
        decimal (10 * n + (N_of_ascii c - 48))%N s'
      else None
  end.

(** The array index a property key stands for, if any: the key is the
    decimal numeral, without leading zero, of an integer below
    [2^32 - 1]. *)
Definition arrayIndex (key : string) : option N :=
  if String.eqb key "" || (startsWith "0" key && negb (String.eqb key "0"))
  then None
  else
    match decimal 0 key with
    | Some n => if (n <? 4294967295)%N then Some n else None
    | None => None
    end.

(** Whether a new property [key] is enumerated before the property
    [k] that exists: array indices come first, in ascending order;
    every other key comes behind the keys that exist. *)
Definition precedes (key k : string) : bool :=
  match arrayIndex key, arrayIndex k with
  | Some i, Some j => (i <? j)%N
  | Some _, None => true
  | None, _ => false
  end.

(** The creation of the data property [key: v] on an object, as by an
    object literal or by [JSON.parse]: an existing property gets the
    new value and keeps its place, a new one takes its place in the
    enumeration order. *)
Fixpoint define {V : Type} (o : object V) (key : string) (v : V)
    : object V :=
  match o with
  | [] => [(key, v)]
  | (k, w) :: o' =>
      if String.eqb k key then (k, v) :: o'
      else if precedes key k then (key, v) :: (k, w) :: o'
      else (k, w) :: define o' key v
  end.

(** [Object.fromEntries(declared)]: the object whose properties are
    created in the order of [declared], which is the order in which a
    manifest or an object literal declares them. *)
Definition fromEntries {V : Type} (declared : list (string * V))
    : object V :=
  fold_left (fun o '(key, v) => define o key v) declared [].

(** An entry whose key is an array index, and an entry whose key is
    none. *)
Definition indexed {V : Type} (entry : string * V) : Prop :=
  is_Some (arrayIndex entry.1).

Definition named {V : Type} (entry : string * V) : Prop :=
  arrayIndex entry.1 = None.

#[global] Instance indexed_dec {V : Type} (entry : string * V)
    : Decision (indexed entry) :=
  decide (is_Some (arrayIndex entry.1)).

#[global] Instance named_dec {V : Type} (entry : string * V)
    : Decision (named entry) :=
  decide (arrayIndex entry.1 = None).

(** The index of an indexed entry. *)
Definition indexOf {V : Type} (entry : string * V) : N :=
  default 0%N (arrayIndex entry.1).

(** Entries in ascending order of their indices. *)
Definition ascending {V : Type} (entries : list (string * V)) : Prop :=
  StronglySorted (fun a b => (indexOf a <= indexOf b)%N) entries.

End Js.

Import Js.

(** ** The export-value tree

    [type ExportValue = string | null | ExportValue[] | { [condition]: ExportValue }] *)

#[warnings="-register-all"]
Inductive ExportValue : Type :=
  | Leaf (path : string)
  | Blocked
  | List (items : list ExportValue)
  | Conditional (entries : list (string * ExportValue)).

(** The result type [string | null | undefined] of [_resolveExportValue]. *)
Inductive Resolved : Type :=
  | RLeaf (path : string)
  | RBlocked
  | RAbsent.


(** [interface ResolveResult { target?: string; blocked: boolean }] *)
Module ResolveResult.
Record t : Type := mk {
  target : option string;
  blocked : bool
}.
End ResolveResult.

(** [Record<ConditionSetKey, T>] with
    [ConditionSetKey = 'default' | 'import' | 'require' | 'types']. *)
Module ConditionSets.
Record t (T : Type) : Type := mk {
  default : T;
  import : T;
  require : T;
  types : T
}.
Arguments mk {T} _ _ _ _.
Arguments default {T} _.
Arguments import {T} _.
Arguments require {T} _.
Arguments types {T} _.
End ConditionSets.

(** [interface ExportTargetOptions]; both members are optional, and so
    is every key of [conditionSets]. *)
Record ExportTargetOptions : Type := mkOptions {
  conditionPriority : option (list string);
  conditionSets : option (ConditionSets.t (option (list string)))
}.

(** [options = {}] *)
Definition noOptions : ExportTargetOptions :=
  {| conditionPriority := None; conditionSets := None |}.

Definition DEFAULT_CONDITION_PRIORITY : list string :=
  ["node"; "browser"; "import"; "require"; "types"].

(** The only error the resolver throws:
    [new Error(`Invalid export target: ${JSON.stringify(target)}`)]. *)
Inductive Error : Type :=
  | InvalidExportTarget (target : ExportValue).

(** ** class ExportTarget *)

Module ExportTarget.

Record t : Type := mk {
  default : option string;
  import : option string;
  require : option string;
  types : option string;
  _target : ExportValue;
  _conditionPriority : list string;
  _conditionSets : ConditionSets.t (list string)
}.

(** The [for] loop of [_normalizeConditions], with its two mutable
    locals [seen] and [normalized]. *)
Fixpoint _normalizeConditions_loop (conditions : list string)
    (seen : gset string) (normalized : list string)
    : gset string * list string :=
  match conditions with
  | [] => (seen, normalized)
  | condition :: rest =>
      if decide (condition ∈ seen) then
        _normalizeConditions_loop rest seen normalized
      else
        _normalizeConditions_loop rest ({[ condition ]} ∪ seen)
          (normalized ++ [condition])
  end.

Definition _normalizeConditions (conditions : list string) : list string :=
  let '(seen, normalized) := _normalizeConditions_loop conditions ∅ [] in
  if decide ("default" ∈ seen) then normalized
  else normalized ++ ["default"].

(** The array branch of [_resolveExportValue]: the loop over the
    entries with its local [blocked]; [resolve] is the recursive call
    at the current condition list. *)
Section array_branch.
Variable resolve : ExportValue -> Resolved.

Fixpoint array_loop (entries : list ExportValue) (blocked : bool)
    : Resolved :=
  match entries with
  | [] => if blocked then RBlocked else RAbsent
  | entry :: rest =>
      match resolve entry with
      | RBlocked => array_loop rest true
      | RLeaf resolved => RLeaf resolved
      | RAbsent => array_loop rest blocked
      end
  end.
End array_branch.

(** The object branch: the loop over the caller's conditions. *)
Section object_branch.
Variable resolve : ExportValue -> Resolved.
Variable value : object ExportValue.

Fixpoint condition_loop (conditions : list string) : Resolved :=
  match conditions with
  | [] => RAbsent
  | condition :: rest =>
      match getWith resolve value condition with
      | Some RAbsent | None => condition_loop rest
      | Some resolved => resolved
      end
  end.
End object_branch.

Fixpoint _resolveExportValue (value : ExportValue)
    (conditions : list string) {struct value} : Resolved :=
  match value with
  | Blocked => RBlocked
  | Leaf path => RLeaf path
  | List entries =>
      array_loop (fun entry => _resolveExportValue entry conditions)
        entries false
  | Conditional entries =>
      condition_loop (fun v => _resolveExportValue v conditions)
        entries conditions
  end.

(** [_resolveFor] reads [this._target], the only field it needs. *)
Definition _resolveFor (this_target : ExportValue)
    (conditions : list string) : ResolveResult.t :=
  match _resolveExportValue this_target conditions with
  | RBlocked => ResolveResult.mk None true
  | RLeaf result => ResolveResult.mk (Some result) false
  | RAbsent => ResolveResult.mk None false
  end.

(** [options.conditionSets?.key ?? [name, ...priority]] *)
Definition conditionSetFor (options : ExportTargetOptions)
    (key : ConditionSets.t (option (list string)) -> option (list string))
    (name : string) (priority : list string) : list string :=
  match conditionSets options ≫= key with
  | Some conditions => conditions
  | None => name :: priority
  end.

(** The value the constructor stores in [this._conditionPriority]. *)
Definition conditionPriorityOf (options : ExportTargetOptions)
    : list string :=
  _normalizeConditions
    (match conditionPriority options with
     | Some priority => priority
     | None => DEFAULT_CONDITION_PRIORITY
     end).

(** The value the constructor stores in [this._conditionSets]. *)
Definition conditionSetsOf (options : ExportTargetOptions)
    : ConditionSets.t (list string) :=
  let this_conditionPriority := conditionPriorityOf options in
  ConditionSets.mk
    (_normalizeConditions
       (conditionSetFor options ConditionSets.default "default"
          this_conditionPriority))
    (_normalizeConditions
       (conditionSetFor options ConditionSets.import "import"
          this_conditionPriority))
    (_normalizeConditions
       (conditionSetFor options ConditionSets.require "require"
          this_conditionPriority))
    (_normalizeConditions
       (conditionSetFor options ConditionSets.types "types"
          this_conditionPriority)).

(** The four fields as the constructor first assigns them, from the
    four standard condition sets. *)
Definition precomputed (target : ExportValue) (options : ExportTargetOptions)
    : ConditionSets.t (option string) :=
  let this_conditionSets := conditionSetsOf options in
  let defaultResult :=
    _resolveFor target (ConditionSets.default this_conditionSets) in
  let importResult :=
    _resolveFor target (ConditionSets.import this_conditionSets) in
  let requireResult :=
    _resolveFor target (ConditionSets.require this_conditionSets) in
  let typesResult :=
    _resolveFor target (ConditionSets.types this_conditionSets) in
  ConditionSets.mk
    (nullish (ResolveResult.target defaultResult)
       (nullish (ResolveResult.target importResult)
          (nullish (ResolveResult.target requireResult)
             (ResolveResult.target typesResult))))
    (ResolveResult.target importResult)
    (ResolveResult.target requireResult)
    (ResolveResult.target typesResult).

(** [!this.default && !this.import && !this.require && !this.types] *)
Definition allFalsy (fields : ConditionSets.t (option string)) : bool :=
  falsy (ConditionSets.default fields)
  && falsy (ConditionSets.import fields)
  && falsy (ConditionSets.require fields)
  && falsy (ConditionSets.types fields).

(** [new ExportTarget(target, options)] *)
Definition new (target : ExportValue) (options : ExportTargetOptions)
    : completion Error t :=
  let this_conditionPriority := conditionPriorityOf options in
  let this_conditionSets := conditionSetsOf options in
  let fields := precomputed target options in
  if allFalsy fields then
    let fallback := _resolveFor target this_conditionPriority in
    if falsy (ResolveResult.target fallback)
       && negb (ResolveResult.blocked fallback)
    then Throw (InvalidExportTarget target)
    else
      Normal (mk (ResolveResult.target fallback)
                (ConditionSets.import fields) (ConditionSets.require fields)
                (ConditionSets.types fields)
                target this_conditionPriority this_conditionSets)
  else
    Normal (mk (ConditionSets.default fields)
              (ConditionSets.import fields) (ConditionSets.require fields)
              (ConditionSets.types fields)
              target this_conditionPriority this_conditionSets).

(** [resolve(conditions)] *)
Definition resolve (this : t) (conditions : list string) : option string :=
  let r := _resolveFor (_target this) (_normalizeConditions conditions) in
  if ResolveResult.blocked r then None else ResolveResult.target r.

End ExportTarget.

(** ** Condition lists as arrays in a store

    The condition lists of the source are JavaScript arrays: objects
    with an identity, which [push] changes in place, and which the
    caller, the module constant [DEFAULT_CONDITION_PRIORITY] and a
    constructed target may share.  The embedding above takes a
    condition list as the sequence of its elements.  This second
    embedding of [ExportTarget] keeps the arrays in a store, so that
    what the class reads, allocates and changes is explicit, and what
    a call leaves behind for the next call can be stated.  The export
    value is only read by the class (no statement assigns to a
    property of it) and stays a value. *)

Module Store.

(** A reference to an array, and the arrays allocated so far: a
    reference is the position of its array. *)
Abbreviation ref := nat.
Abbreviation store := (list (list string)).

(** The elements of the array behind a reference. *)
Definition read (h : store) (r : ref) : list string :=
  from_option id [] (h !! r).

(** An array literal: a new array with these elements. *)
Definition alloc (elements : list string) (h : store) : ref * store :=
  (length h, h ++ [elements]).

(** [array.push(element)] *)
Definition push (r : ref) (element : string) (h : store) : store :=
  alter (fun elements => elements ++ [element]) r h.

End Store.

Module Stateful.
Import Store.

(** [interface ExportTargetOptions], its arrays by reference. *)
Record ExportTargetOptions : Type := mkOptions {
  conditionPriority : option ref;
  conditionSets : option (ConditionSets.t (option ref))
}.

Record t : Type := mk {
  default : option string;
  import : option string;
  require : option string;
  types : option string;
  _target : ExportValue;
  _conditionPriority : ref;
  _conditionSets : ConditionSets.t ref
}.

(** The [for ... of] loop of [_normalizeConditions].  The iterator of
    an array reads the array anew at every step, at the next [index],
    and ends when the index is beyond the elements; [fuel] bounds the
    number of steps. *)
Fixpoint _normalizeConditions_loop (fuel : nat) (conditions normalized : ref)
    (index : nat) (seen : gset string) (h : store)
    : option (gset string * store) :=
  match fuel with
  | O => None
  | S fuel' =>
      match read h conditions !! index with
      | None => Some (seen, h)
      | Some condition =>
          if decide (condition ∈ seen) then
            _normalizeConditions_loop fuel' conditions normalized (S index)
              seen h
          else
            _normalizeConditions_loop fuel' conditions normalized (S index)
              ({[ condition ]} ∪ seen) (push normalized condition h)
      end
  end.

(** [_normalizeConditions(conditions)]: the result is the reference of
    the new array [normalized]; the set [seen] does not leave the
    call. *)
Definition _normalizeConditions (fuel : nat) (conditions : ref) (h : store)
    : option (ref * store) :=
  let '(normalized, h) := alloc [] h in
  '(seen, h) ← _normalizeConditions_loop fuel conditions normalized O ∅ h;
  if decide ("default" ∈ seen) then Some (normalized, h)
  else Some (normalized, push normalized "default" h).

(** [_resolveFor(conditions)].  Neither [_resolveFor] nor
    [_resolveExportValue] allocates or changes an array: they read
    the elements behind [conditions]. *)
Definition _resolveFor (this_target : ExportValue) (conditions : ref)
    (h : store) : ResolveResult.t :=
  ExportTarget._resolveFor this_target (read h conditions).

(** [this._normalizeConditions(options.conditionSets?.key ??
    [name, ...this._conditionPriority])]: the caller's array when
    there is one, a new array otherwise. *)
Definition normalizedSet (fuel : nat) (options : ExportTargetOptions)
    (key : ConditionSets.t (option ref) -> option ref) (name : string)
    (this_conditionPriority : ref) (h : store) : option (ref * store) :=
  match conditionSets options ≫= key with
  | Some conditions => _normalizeConditions fuel conditions h
  | None =>
      let '(conditions, h) :=
        alloc (name :: read h this_conditionPriority) h in
      _normalizeConditions fuel conditions h
  end.

(** [new ExportTarget(target, options)]; [DEFAULT_CONDITION_PRIORITY]
    is the reference of the module's constant. *)
Definition new (DEFAULT_CONDITION_PRIORITY : ref) (fuel : nat)
    (target : ExportValue) (options : ExportTargetOptions) (h : store)
    : option (completion Error t * store) :=
  '(this_conditionPriority, h) ←
    _normalizeConditions fuel
      (from_option id DEFAULT_CONDITION_PRIORITY (conditionPriority options))
      h;
  '(defaultSet, h) ←
    normalizedSet fuel options ConditionSets.default "default"
      this_conditionPriority h;
  '(importSet, h) ←
    normalizedSet fuel options ConditionSets.import "import"
      this_conditionPriority h;
  '(requireSet, h) ←
    normalizedSet fuel options ConditionSets.require "require"
      this_conditionPriority h;
  '(typesSet, h) ←
    normalizedSet fuel options ConditionSets.types "types"
      this_conditionPriority h;
  let this_conditionSets :=
    ConditionSets.mk defaultSet importSet requireSet typesSet in
  let defaultResult := _resolveFor target defaultSet h in
  let importResult := _resolveFor target importSet h in
  let requireResult := _resolveFor target requireSet h in
  let typesResult := _resolveFor target typesSet h in
  let this_default :=
    nullish (ResolveResult.target defaultResult)
      (nullish (ResolveResult.target importResult)
         (nullish (ResolveResult.target requireResult)
            (ResolveResult.target typesResult))) in
  let this_import := ResolveResult.target importResult in
  let this_require := ResolveResult.target requireResult in
  let this_types := ResolveResult.target typesResult in
  if falsy this_default && falsy this_import && falsy this_require
     && falsy this_types
  then
    let fallback := _resolveFor target this_conditionPriority h in
    if falsy (ResolveResult.target fallback)
       && negb (ResolveResult.blocked fallback)
    then Some (Throw (InvalidExportTarget target), h)
    else
      Some (Normal (mk (ResolveResult.target fallback)
                      this_import this_require this_types
                      target this_conditionPriority this_conditionSets),
            h)
  else
    Some (Normal (mk this_default this_import this_require this_types
                    target this_conditionPriority this_conditionSets),
          h).

(** [resolve(conditions)] *)
Definition resolve (fuel : nat) (this : t) (conditions : ref) (h : store)
    : option (option string * store) :=
  '(normalized, h) ← _normalizeConditions fuel conditions h;
  let r := _resolveFor (_target this) normalized h in
  Some (if ResolveResult.blocked r then None else ResolveResult.target r, h).

(** The references an options object holds. *)
Definition references (options : ExportTargetOptions) : list ref :=
  from_option (fun r => [r]) [] (conditionPriority options)
  ++ from_option
       (fun sets =>
          from_option (fun r => [r]) [] (ConditionSets.default sets)
          ++ from_option (fun r => [r]) [] (ConditionSets.import sets)
          ++ from_option (fun r => [r]) [] (ConditionSets.require sets)
          ++ from_option (fun r => [r]) [] (ConditionSets.types sets))
       [] (conditionSets options).

End Stateful.

(** The options and the target that the value embedding sees: every
    reference replaced by the elements of its array. *)
Definition setsIn (h : Store.store) (sets : ConditionSets.t (option Store.ref))
    : ConditionSets.t (option (list string)) :=
  ConditionSets.mk
    (Store.read h <$> ConditionSets.default sets)
    (Store.read h <$> ConditionSets.import sets)
    (Store.read h <$> ConditionSets.require sets)
    (Store.read h <$> ConditionSets.types sets).

Definition optionsIn (h : Store.store)
    (options : Stateful.ExportTargetOptions) : ExportTargetOptions :=
  {| conditionPriority :=
       Store.read h <$> Stateful.conditionPriority options;
     conditionSets := setsIn h <$> Stateful.conditionSets options |}.

Definition targetIn (h : Store.store) (this : Stateful.t) : ExportTarget.t :=
  ExportTarget.mk (Stateful.default this) (Stateful.import this)
    (Stateful.require this) (Stateful.types this)
    (Stateful._target this) (Store.read h (Stateful._conditionPriority this))
    (ConditionSets.mk
       (Store.read h (ConditionSets.default (Stateful._conditionSets this)))
       (Store.read h (ConditionSets.import (Stateful._conditionSets this)))
       (Store.read h (ConditionSets.require (Stateful._conditionSets this)))
       (Store.read h (ConditionSets.types (Stateful._conditionSets this)))).

(** The completion of a constructor call, as the value embedding sees
    it. *)
Definition completionIn (h : Store.store)
    (constructed : completion Error Stateful.t)
    : completion Error ExportTarget.t :=
  match constructed with
  | Normal this => Normal (targetIn h this)
  | Throw error => Throw error
  end.


(** ** class GlobResolver *)

Module GlobResolver.

Record t : Type := mk {
  patterns : object ExportValue
}.

(** The character class escaped by [_globToRegex]. *)
Definition regexSpecial (c : ascii) : bool :=
  existsb (Ascii.eqb c)
    ["."; "+"; "?"; "^"; "$"; "{"; "}"; "("; ")"; "|"; "["; "]"; "\"]%char.

Definition _globToRegex (pattern : string) : string :=
  let regex := escapeClass regexSpecial pattern in
  let regex := replaceAll "**" "~~DOUBLESTAR~~" regex in
  let regex := replaceAll "*" "([^/]*)" regex in
  replaceAll "~~DOUBLESTAR~~" "(.*)" regex.

Definition _extractCaptures (pattern importPath : string) : list string :=
  let regexPattern := _globToRegex pattern in
  match RegExp.match_ importPath ("^" +:+ regexPattern +:+ "$") with
  | Some match_ => drop 1 match_
  | None => []
  end.

(** The replacer of [_replaceWildcards]; the state is [captureIndex]. *)
Definition nextCapture (captures : list string) (marker : string)
    (captureIndex : nat) : string * nat :=
  if bool_decide (captureIndex < length captures) then
    (nth captureIndex captures "", S captureIndex)
  else (marker, captureIndex).

Definition _replaceWildcards (targetPath : string) (captures : list string)
    : string :=
  let result := targetPath in
  let captureIndex := O in
  let '(result, captureIndex) :=
    replaceWith "**" (nextCapture captures "**") O captureIndex result in
  let '(result, captureIndex) :=
    replaceWith "*" (nextCapture captures "*") O captureIndex result in
  result.

Fixpoint _substituteExportValue (target : ExportValue)
    (captures : list string) {struct target} : ExportValue :=
  match target with
  | Leaf path => Leaf (_replaceWildcards path captures)
  | Blocked => Blocked
  | List entries =>
      List (map (fun entry => _substituteExportValue entry captures) entries)
  | Conditional entries =>
      Conditional
        (fold_left
           (fun substituted '(key, value) =>
              assign substituted key (_substituteExportValue value captures))
           entries [])
  end.

(** What [resolveImport] does once it has accepted [pattern]. *)
Definition targetFor (pattern : string) (target : ExportValue)
    (importPath : string) (options : ExportTargetOptions)
    : completion Error ExportTarget.t :=
  if negb (includes pattern "*") then ExportTarget.new target options
  else
    let captures := _extractCaptures pattern importPath in
    let substitutedTarget := _substituteExportValue target captures in
    ExportTarget.new substitutedTarget options.

(** [return new ExportTarget(...)]: the new target is the result, and
    an error thrown by the constructor leaves [resolveImport] too. *)
Definition returned (constructed : completion Error ExportTarget.t)
    : completion Error (option ExportTarget.t) :=
  match constructed with
  | Normal exportTarget => Normal (Some exportTarget)
  | Throw error => Throw error
  end.

Section resolveImport.
(** [minimatch(path, pattern)] of the npm package of that name. *)
Variable minimatch : string -> string -> bool.

Fixpoint resolveImport_loop (entries : object ExportValue)
    (importPath : string) (options : ExportTargetOptions)
    : completion Error (option ExportTarget.t) :=
  match entries with
  | [] => Normal None
  | (pattern, target) :: rest =>
      if negb (minimatch importPath pattern) then
        resolveImport_loop rest importPath options
      else returned (targetFor pattern target importPath options)
  end.

Definition resolveImport (this : t) (importPath : string)
    (options : ExportTargetOptions)
    : completion Error (option ExportTarget.t) :=
  resolveImport_loop (patterns this) importPath options.
End resolveImport.

End GlobResolver.

(** ** Glob matching

    [minimatch] is an npm dependency of the repository.  The resolver
    above and the general theorems below take the matcher as a
    parameter; the worked examples use the model of this module. *)

Module Minimatch.

(** The segments between slashes. *)
Fixpoint segments (s : string) : list string :=
  match s with
  | "" => [""]
  | String c s' =>
      if Ascii.eqb c "/" then "" :: segments s'
      else
        match segments s' with
        | segment :: rest => String c segment :: rest
        | [] => [String c ""]
        end
  end.

Definition wildcard (c : ascii) : bool :=
  Ascii.eqb c "*" || Ascii.eqb c "?".

(** One segment of the pattern against one segment of the path. *)
Fixpoint chars (pattern : string) : string -> bool :=
  match pattern with
  | "" => fun text => String.eqb text ""
  | String c pattern' =>
      if Ascii.eqb c "*" then
        fix star (text : string) : bool :=
          chars pattern' text ||
          match text with
          | "" => false
          | String _ text' => star text'
          end
      else fun text =>
        match text with
        | "" => false
        | String d text' =>
            (Ascii.eqb c "?" || Ascii.eqb c d) && chars pattern' text'
        end
  end.

Definition dotted (text : string) : bool := startsWith "." text.

Definition segment (pattern text : string) : bool :=
  match pattern with
  | String c _ =>
      if wildcard c then
        negb (String.eqb text "") && negb (dotted text) && chars pattern text
      else chars pattern text
  | "" => String.eqb text ""
  end.

Fixpoint path (patterns : list string) : list string -> bool :=
  match patterns with
  | [] => fun texts =>
      match texts with
      | [] => true
      | _ :: _ => false
      end
  | pattern :: patterns' =>
      if String.eqb pattern "**" then
        fix globstar (texts : list string) : bool :=
          path patterns' texts ||
          match texts with
          | [] => false
          | text :: texts' => negb (dotted text) && globstar texts'
          end
      else fun texts =>
        match texts with
        | [] => false
        | text :: texts' => segment pattern text && path patterns' texts'
        end
  end.

(** Modelled from the spec: the source of [minimatch] is not part of
    the repository.  This is the conventional glob reading the
    specification asks for (4.2, step 3), for patterns built from
    literal characters, the one-character wildcard [?], the in-segment
    wildcard [*] and the path segment [**], under minimatch's default
    options: a segment pattern that begins with a wildcard matches no
    empty segment and no segment beginning with a dot, and [**] spans
    any number of segments none of which begins with a dot. *)
Definition minimatch (p pattern : string) : bool :=
  path (segments pattern) (segments p).

End Minimatch.

(** ** The specification's reading of the resolver *)

(** "duplicates removed": every name is kept where it first occurs. *)
Fixpoint withoutDuplicates (conditions : list string) : list string :=
  match conditions with
  | [] => []
  | condition :: rest =>
      condition :: filter (fun c => c <> condition) (withoutDuplicates rest)
  end.

(** "duplicates removed, [default] appended if missing". *)
Definition normalized (conditions : list string) : list string :=
  if decide ("default" ∈ conditions) then withoutDuplicates conditions
  else withoutDuplicates conditions ++ ["default"].

(** "scan the leaf string left to right; each asterisk run consumes the
    next unused capture in order", excess markers staying as they are:
    the substitution as the specification words it.  [skip] passes over
    the second asterisk of a double one. *)
Fixpoint substituteLeftToRight (skip : bool) (captures : list string)
    (leaf : string) : string :=
  match leaf with
  | "" => ""
  | String c rest =>
      if skip then substituteLeftToRight false captures rest
      else if startsWith "**" leaf then
        match captures with
        | capture :: captures' =>
            capture +:+ substituteLeftToRight true captures' rest
        | [] => String c (substituteLeftToRight false [] rest)
        end
      else if Ascii.eqb c "*" then
        match captures with
        | capture :: captures' =>
            capture +:+ substituteLeftToRight false captures' rest
        | [] => String c (substituteLeftToRight false [] rest)
        end
      else String c (substituteLeftToRight false captures rest)
  end.

(** The value of a call that returned. *)
Definition valueOf {A : Type} (c : completion Error A) : option A :=
  match c with
  | Normal a => Some a
  | Throw _ => None
  end.

(** No field holds a path. *)
Definition noFields : ConditionSets.t (option string) :=
  ConditionSets.mk None None None None.

(** A tree with an empty path string among its leaves. *)
Fixpoint hasEmptyLeaf (value : ExportValue) : bool :=
  match value with
  | Leaf path => String.eqb path ""
  | Blocked => false
  | List entries => existsb hasEmptyLeaf entries
  | Conditional entries => existsb (fun '(_, v) => hasEmptyLeaf v) entries
  end.

(** Whether a result is a path, and whether it is [null]. *)
Definition isLeaf (r : Resolved) : bool :=
  match r with
  | RLeaf _ => true
  | _ => false
  end.

Definition isBlocked (r : Resolved) : bool :=
  match r with
  | RBlocked => true
  | _ => false
  end.

(** What the body of the condition loop sees for one condition: the
    resolution of its entry, Absent when the object has no such key. *)
Definition outcome (resolve : ExportValue -> Resolved)
    (value : object ExportValue) (condition : string) : Resolved :=
  match get value condition with
  | Some v => resolve v
  | None => RAbsent
  end.

(** * Properties *)

(** ** What a tree holds *)

(** The path strings of a tree, left to right. *)
Fixpoint leaves (value : ExportValue) : list string :=
  match value with
  | Leaf path => [path]
  | Blocked => []
  | List entries => flat_map leaves entries
  | Conditional entries => flat_map (fun '(_, v) => leaves v) entries
  end.

(** Whether a tree holds a [null]. *)
Fixpoint hasNull (value : ExportValue) : bool :=
  match value with
  | Leaf _ => false
  | Blocked => true
  | List entries => existsb hasNull entries
  | Conditional entries => existsb (fun '(_, v) => hasNull v) entries
  end.

(** The objects of a tree as JavaScript has them, keys distinct, and
    none of them with an own key [__proto__] (which [JSON.parse] can
    create, and which an assignment does not). *)
Fixpoint plainObjects (value : ExportValue) : bool :=
  match value with
  | Leaf _ | Blocked => true
  | List entries => forallb plainObjects entries
  | Conditional entries =>
      bool_decide (NoDup entries.*1)
      && negb (hasOwnProperty entries "__proto__")
      && forallb (fun '(_, v) => plainObjects v) entries
  end.

(** The same tree with [f] applied to every path string. *)
Fixpoint mapLeaves (f : string -> string) (value : ExportValue)
    : ExportValue :=
  match value with
  | Leaf path => Leaf (f path)
  | Blocked => Blocked
  | List entries => List (map (mapLeaves f) entries)
  | Conditional entries =>
      Conditional (map (fun '(key, v) => (key, mapLeaves f v)) entries)
  end.

(** [f] applied to the path of a result. *)
Definition mapResolved (f : string -> string) (r : Resolved) : Resolved :=
  match r with
  | RLeaf path => RLeaf (f path)
  | RBlocked => RBlocked
  | RAbsent => RAbsent
  end.

(** The characters of a string as regular-expression nodes. *)
Fixpoint literal (s : string) : list RegExp.node :=
  match s with
  | "" => []
  | String c s' => RegExp.Char c :: literal s'
  end.

(** Whether a group can take all of [x] when [suf] follows. *)
Fixpoint admitsAll (group : RegExp.node) (x suf : string) : bool :=
  match x with
  | "" => true
  | String c x' =>
      RegExp.admits group c (x' +:+ suf) && admitsAll group x' suf
  end.

(** The bytes 128 to 191, which continue a character of two or more
    bytes and never start one. *)
Definition continuation (c : ascii) : bool :=
  (128 <=? N_of_ascii c)%N && (N_of_ascii c <? 192)%N.

(** Whether a text starts at a character boundary. *)
Definition startsOnCharacter (s : string) : bool :=
  match s with
  | "" => true
  | String c _ => negb (continuation c)
  end.

(** ** The earlier revision of [ExportTarget] and [GlobResolver]

    [src/package-json.ts] as it was before conditional exports: a target
    is a string or an object with the optional string fields [default],
    [import], [require] and [types].  Its schema reads these four keys
    of a manifest entry and drops every other key. *)

Module Flat.

(** [z.infer<typeof ExportTargetSchema>] of that revision. *)
Inductive ExportTargetData : Type :=
  | TString (path : string)
  | TObject (fields : ConditionSets.t (option string)).

Inductive Error : Type :=
  | InvalidExportTarget (target : ExportTargetData).

(** [a || b] on optional strings. *)
Definition orElse (a b : option string) : option string :=
  if falsy a then b else a.

Record t : Type := mk {
  default : option string;
  import : option string;
  require : option string;
  types : option string;
  target : ExportTargetData
}.

(** [new ExportTarget(target)] *)
Definition new (target : ExportTargetData) : completion Error t :=
  match target with
  | TString path =>
      Normal (mk (Some path) (Some path) (Some path) (Some path) target)
  | TObject fields =>
      if falsy (ConditionSets.default fields)
         && falsy (ConditionSets.import fields)
         && falsy (ConditionSets.require fields)
         && falsy (ConditionSets.types fields)
      then Throw (InvalidExportTarget target)
      else
        Normal (mk (orElse (ConditionSets.default fields)
                      (orElse (ConditionSets.import fields)
                         (orElse (ConditionSets.require fields)
                            (ConditionSets.types fields))))
                  (ConditionSets.import fields)
                  (ConditionSets.require fields)
                  (ConditionSets.types fields)
                  target)
  end.

Section resolveImport.
Variable minimatch : string -> string -> bool.

(** [GlobResolver.resolveImport(importPath)] of that revision. *)
Fixpoint resolveImport (patterns : object ExportTargetData)
    (importPath : string) : completion Error (option t) :=
  match patterns with
  | [] => Normal None
  | (pattern, target) :: rest =>
      if minimatch importPath pattern then
        match new target with
        | Normal exportTarget => Normal (Some exportTarget)
        | Throw error => Throw error
        end
      else resolveImport rest importPath
  end.
End resolveImport.

(** The own property [key: path] of a parsed object, when the field is
    there. *)
Definition property (key : string) (field : option string)
    : object ExportValue :=
  match field with
  | Some path => [(key, Leaf path)]
  | None => []
  end.

(** The manifest entry with the fields of [target] and no other key,
    its keys in the order of the schema. *)
Definition asExportValue (target : ExportTargetData) : ExportValue :=
  match target with
  | TString path => Leaf path
  | TObject fields =>
      Conditional
        (property "default" (ConditionSets.default fields)
         ++ property "import" (ConditionSets.import fields)
         ++ property "require" (ConditionSets.require fields)
         ++ property "types" (ConditionSets.types fields))
  end.

(** No field, and no string target, is the empty string. *)
Definition nonEmpty (target : ExportTargetData) : bool :=
  let filled field :=
    match field with
    | Some "" => false
    | _ => true
    end in
  match target with
  | TString path => filled (Some path)
  | TObject fields =>
      filled (ConditionSets.default fields)
      && filled (ConditionSets.import fields)
      && filled (ConditionSets.require fields)
      && filled (ConditionSets.types fields)
  end.

(** The path strings an entry declares. *)
Definition paths (target : ExportTargetData) : list string :=
  match target with
  | TString path => [path]
  | TObject fields =>
      let declared field :=
        match field with
        | Some path => [path]
        | None => []
        end in
      declared (ConditionSets.default fields)
      ++ declared (ConditionSets.import fields)
      ++ declared (ConditionSets.require fields)
      ++ declared (ConditionSets.types fields)
  end.

(** The keys of an object entry that the earlier schema reads. *)
Definition keys : list string := ["default"; "import"; "require"; "types"].

End Flat.

(** [readAs raw target]: [raw] is a manifest entry that the earlier
    schema reads as [target] and of which it drops nothing.  The
    manifest is the one file both revisions load; the later schema
    keeps every key of an entry, the earlier one keeps the four keys
    of [Flat.keys], which hold strings.  So [raw] is the string of
    [target], or an object with distinct keys, all among the four,
    that holds under each key the string of the field and has no key
    of a field that is missing. *)
Definition readAs (raw : ExportValue) (target : Flat.ExportTargetData)
    : Prop :=
  match raw, target with
  | Leaf path, Flat.TString path' => path = path'
  | Conditional entries, Flat.TObject fields =>
      NoDup entries.*1 /\
      (forall key, key ∈ entries.*1 -> key ∈ Flat.keys) /\
      get entries "default" = Leaf <$> ConditionSets.default fields /\
      get entries "import" = Leaf <$> ConditionSets.import fields /\
      get entries "require" = Leaf <$> ConditionSets.require fields /\
      get entries "types" = Leaf <$> ConditionSets.types fields
  | _, _ => False
  end.

(** The manifest's [exports] record and its reading by the earlier
    schema, entry by entry: the same patterns in the same order, no
    path empty or with an asterisk. *)
Definition readAsTable (exports : object ExportValue)
    (patterns : object Flat.ExportTargetData) : Prop :=
  Forall2
    (fun raw parsed =>
       raw.1 = parsed.1 /\ readAs raw.2 parsed.2 /\
       Flat.nonEmpty parsed.2 = true /\
       forall path, path ∈ Flat.paths parsed.2 -> includes path "*" = false)
    exports patterns.

(** The later target has the [default] of the earlier one and every
    path the earlier one has in [import], [require] and [types]. *)
Definition extendedBy (earlier : Flat.t) (later : ExportTarget.t) : Prop :=
  Flat.default earlier = ExportTarget.default later /\
  (forall path, Flat.import earlier = Some path ->
     ExportTarget.import later = Some path) /\
  (forall path, Flat.require earlier = Some path ->
     ExportTarget.require later = Some path) /\
  (forall path, Flat.types earlier = Some path ->
     ExportTarget.types later = Some path).

(** Two calls of [resolveImport] end the same way: both throw, both
    return [undefined], or both return a target, the later one
    extending the earlier one. *)
Definition sameOutcome (earlier : completion Flat.Error (option Flat.t))
    (later : completion Error (option ExportTarget.t)) : Prop :=
  match earlier, later with
  | Throw _, Throw _ => True
  | Normal None, Normal None => True
  | Normal (Some e), Normal (Some l) => extendedBy e l
  | _, _ => False
  end.

(** ** The repository's tests, run on the embedding *)

Example test_string_target :
  let target := valueOf (ExportTarget.new (Leaf "./dist/index.js") noOptions) in
  ExportTarget.default <$> target = Some (Some "./dist/index.js") /\
  ExportTarget.import <$> target = Some (Some "./dist/index.js") /\
  ExportTarget.require <$> target = Some (Some "./dist/index.js") /\
  ExportTarget.types <$> target = Some (Some "./dist/index.js").
Proof. repeat split; vm_compute; reflexivity. Qed.

Example test_object_with_all_fields :
  let target :=
    valueOf (ExportTarget.new
      (Conditional [("default", Leaf "./dist/index.js");
                    ("import", Leaf "./dist/index.mjs");
                    ("require", Leaf "./dist/index.cjs");
                    ("types", Leaf "./dist/index.d.ts")]) noOptions) in
  ExportTarget.default <$> target = Some (Some "./dist/index.js") /\
  ExportTarget.import <$> target = Some (Some "./dist/index.mjs") /\
  ExportTarget.require <$> target = Some (Some "./dist/index.cjs") /\
  ExportTarget.types <$> target = Some (Some "./dist/index.d.ts").
Proof. repeat split; vm_compute; reflexivity. Qed.

Example test_first_available_field_as_default :
  let target :=
    valueOf (ExportTarget.new
      (Conditional [("import", Leaf "./dist/index.mjs")]) noOptions) in
  ExportTarget.default <$> target = Some (Some "./dist/index.mjs") /\
  ExportTarget.import <$> target = Some (Some "./dist/index.mjs").
Proof. repeat split; vm_compute; reflexivity. Qed.

Example test_nested_conditional_exports :
  let target :=
    valueOf (ExportTarget.new
      (Conditional
         [("import", Conditional [("node", Leaf "./dist/index.node.mjs");
                                  ("default", Leaf "./dist/index.mjs")]);
          ("require", Conditional [("node", Leaf "./dist/index.node.cjs");
                                   ("default", Leaf "./dist/index.cjs")])])
      noOptions) in
  ExportTarget.import <$> target = Some (Some "./dist/index.node.mjs") /\
  ExportTarget.require <$> target = Some (Some "./dist/index.node.cjs") /\
  (fun t => ExportTarget.resolve t ["browser"; "import"]) <$> target
  = Some (Some "./dist/index.mjs") /\
  (fun t => ExportTarget.resolve t ["browser"; "require"]) <$> target
  = Some (Some "./dist/index.cjs").
Proof. repeat split; vm_compute; reflexivity. Qed.

Example test_array_fallbacks_skip_null :
  let target :=
    valueOf (ExportTarget.new
      (List [Blocked;
             Conditional [("default", Leaf "./dist/index.js");
                          ("browser", Leaf "./dist/index.browser.js")]])
      noOptions) in
  ExportTarget.default <$> target = Some (Some "./dist/index.js") /\
  (fun t => ExportTarget.resolve t ["browser"]) <$> target
  = Some (Some "./dist/index.browser.js").
Proof. repeat split; vm_compute; reflexivity. Qed.

Example test_resolve_glob_pattern :
  let resolver :=
    GlobResolver.mk [("./*", Leaf "./dist/*.js");
                     ("./**/*", Leaf "./dist/**/*.js")] in
  let resolveImport importPath : option ExportTarget.t :=
    valueOf (GlobResolver.resolveImport Minimatch.minimatch resolver
               importPath noOptions) ≫= id in
  ExportTarget.default <$> resolveImport "./utils"
  = Some (Some "./dist/utils.js") /\
  ExportTarget.default <$> resolveImport "./components/button"
  = Some (Some "./dist/components/button.js").
Proof. repeat split; vm_compute; reflexivity. Qed.

Example test_no_match :
  GlobResolver.resolveImport Minimatch.minimatch
    (GlobResolver.mk [(".", Leaf "./dist/index.js")]) "./nonexistent" noOptions
  = Normal None.
Proof. reflexivity. Qed.

Example test_wildcards_inside_nested_conditions :
  let resolver :=
    GlobResolver.mk
      [("./components/*",
        Conditional
          [("import",
            Conditional [("node", Leaf "./dist/node/components/*.mjs");
                         ("default", Leaf "./dist/components/*.mjs")]);
           ("default", Leaf "./dist/components/*.js")])] in
  let target :=
    valueOf (GlobResolver.resolveImport Minimatch.minimatch resolver
               "./components/button" noOptions) ≫= id in
  ExportTarget.import <$> target
  = Some (Some "./dist/node/components/button.mjs") /\
  (fun t => ExportTarget.resolve t ["browser"]) <$> target
  = Some (Some "./dist/components/button.js").
Proof. repeat split; vm_compute; reflexivity. Qed.

(** ** Induction on export values

    The induction principle that reaches the values nested in arrays
    and objects. *)

Lemma ExportValue_nested_ind (P : ExportValue -> Prop) :
  (forall path, P (Leaf path)) ->
  P Blocked ->
  (forall entries, Forall P entries -> P (List entries)) ->
  (forall entries, Forall (fun kv => P kv.2) entries ->
     P (Conditional entries)) ->
  forall value, P value.
Proof.
  intros HLeaf HBlocked HList HCond.
  fix IH 1. intros [path| |entries|entries].
  - apply HLeaf.
  - apply HBlocked.
  - apply HList. induction entries as [|e entries IHentries]; constructor.
    + apply IH.
    + apply IHentries.
  - apply HCond. induction entries as [|[k v] entries IHentries]; constructor.
    + apply IH.
    + apply IHentries.
Qed.

(** ** Objects *)

Section objects.
Context {V : Type}.
Implicit Types (o : object V) (key : string).

Lemma getWith_get {R : Type} (f : V -> R) o key :
  getWith f o key = f <$> get o key.
Proof.
  induction o as [|[k v] o IH]; simpl; [reflexivity|].
  destruct (String.eqb k key); [reflexivity|apply IH].
Qed.

Lemma hasOwnProperty_get o key :
  hasOwnProperty o key = true <-> is_Some (get o key).
Proof.
  induction o as [|[k v] o IH]; simpl.
  - split; [discriminate|]. intros [? ?]; discriminate.
  - destruct (String.eqb k key); simpl; [|exact IH].
    split; eauto.
Qed.

Lemma hasOwnProperty_false o key :
  hasOwnProperty o key = false <-> get o key = None.
Proof.
  induction o as [|[k v] o IH]; simpl; [tauto|].
  destruct (String.eqb k key); simpl; [|exact IH].
  split; discriminate.
Qed.

Lemma get_elem_of o key v : get o key = Some v -> (key, v) ∈ o.
Proof.
  induction o as [|[k w] o IH]; simpl; [discriminate|].
  destruct (String.eqb_spec k key) as [->|_].
  - intros [= ->]. left.
  - intros H. right. auto.
Qed.

Lemma get_app o1 o2 key :
  get (o1 ++ o2) key =
  match get o1 key with
  | Some v => Some v
  | None => get o2 key
  end.
Proof.
  induction o1 as [|[k w] o1 IH]; simpl; [reflexivity|].
  destruct (String.eqb k key); [reflexivity|apply IH].
Qed.

Lemma get_not_key o key : key ∉ o.*1 -> get o key = None.
Proof.
  induction o as [|[k w] o IH]; simpl; [reflexivity|].
  rewrite not_elem_of_cons. intros [Hne Hnot].
  destruct (String.eqb_spec k key) as [->|_]; [contradiction|auto].
Qed.

Lemma get_NoDup_elem_of o key v :
  NoDup o.*1 -> (key, v) ∈ o -> get o key = Some v.
Proof.
  induction o as [|[k w] o IH]; simpl; intros Hnd Hin.
  - inversion Hin.
  - apply NoDup_cons in Hnd as [Hk Hnd].
    apply elem_of_cons in Hin as [[= -> ->]|Hin].
    + rewrite String.eqb_refl. reflexivity.
    + destruct (String.eqb_spec k key) as [->|_]; [|auto].
      exfalso. apply Hk. apply list_elem_of_fmap. exists (key, v). auto.
Qed.

(** On objects with distinct keys, [get] does not depend on the order
    of the entries. *)
Lemma get_Permutation o o' key :
  NoDup o.*1 -> o ≡ₚ o' -> get o' key = get o key.
Proof.
  intros Hnd Hperm.
  assert (Hnd' : NoDup o'.*1) by (rewrite <- Hperm; exact Hnd).
  destruct (get o key) as [v|] eqn:Hget.
  - apply get_NoDup_elem_of; [exact Hnd'|].
    rewrite <- Hperm. apply get_elem_of. exact Hget.
  - destruct (get o' key) as [v|] eqn:Hget'; [|reflexivity].
    apply get_elem_of in Hget'. rewrite <- Hperm in Hget'.
    apply (get_NoDup_elem_of _ _ _ Hnd) in Hget'. congruence.
Qed.
End objects.

(** ** The two loops of [_resolveExportValue] *)

Section loops.
Variable resolve : ExportValue -> Resolved.

(** The array loop stops at the first entry that resolves to a path. *)
Lemma array_loop_first_leaf before entry after blocked path :
  Forall (fun e => isLeaf (resolve e) = false) before ->
  resolve entry = RLeaf path ->
  ExportTarget.array_loop resolve (before ++ entry :: after) blocked
  = RLeaf path.
Proof.
  intros Hbefore Hentry. revert blocked.
  induction Hbefore as [|e before He _ IH]; intros blocked; simpl.
  - rewrite Hentry. reflexivity.
  - destruct (resolve e); [discriminate He|apply IH|apply IH].
Qed.

(** Without such an entry the loop runs to its end, and [blocked]
    tells whether it met a [null]. *)
Lemma array_loop_no_leaf entries blocked :
  Forall (fun e => isLeaf (resolve e) = false) entries ->
  ExportTarget.array_loop resolve entries blocked
  = if blocked || existsb (fun e => isBlocked (resolve e)) entries
    then RBlocked else RAbsent.
Proof.
  intros Hentries. revert blocked.
  induction Hentries as [|e entries He _ IH]; intros blocked; simpl.
  - rewrite orb_false_r. reflexivity.
  - destruct (resolve e); simpl.
    + discriminate He.
    + rewrite IH, orb_true_r. reflexivity.
    + apply IH.
Qed.

(** An entry that resolves to nothing leaves the loop as it is. *)
Lemma array_loop_skip before entry after blocked :
  resolve entry = RAbsent ->
  ExportTarget.array_loop resolve (before ++ entry :: after) blocked
  = ExportTarget.array_loop resolve (before ++ after) blocked.
Proof.
  intros Hentry. revert blocked.
  induction before as [|e before IH]; intros blocked; simpl.
  - rewrite Hentry. reflexivity.
  - destruct (resolve e); [reflexivity|apply IH|apply IH].
Qed.

Variable value : object ExportValue.

#[local] Abbreviation outcome := (outcome resolve value).

Lemma condition_loop_cons condition rest :
  ExportTarget.condition_loop resolve value (condition :: rest)
  = match outcome condition with
    | RAbsent => ExportTarget.condition_loop resolve value rest
    | resolved => resolved
    end.
Proof.
  unfold outcome. simpl. rewrite getWith_get.
  destruct (get value condition) as [v|]; simpl; [|reflexivity].
  destruct (resolve v); reflexivity.
Qed.

(** The condition loop returns at the first condition, in the order
    of the list, whose entry resolves to a path or to [null]. *)
Lemma condition_loop_first before condition after :
  Forall (fun c => outcome c = RAbsent) before ->
  outcome condition <> RAbsent ->
  ExportTarget.condition_loop resolve value (before ++ condition :: after)
  = outcome condition.
Proof.
  intros Hbefore Hcondition.
  induction Hbefore as [|c before Hc _ IH].
  - simpl app. rewrite condition_loop_cons.
    destruct (outcome condition); congruence.
  - change ((c :: before) ++ condition :: after)
      with (c :: (before ++ condition :: after)).
    rewrite condition_loop_cons, Hc. exact IH.
Qed.

Lemma condition_loop_none conditions :
  Forall (fun c => outcome c = RAbsent) conditions ->
  ExportTarget.condition_loop resolve value conditions = RAbsent.
Proof.
  induction 1 as [|c conditions Hc _ IH]; [reflexivity|].
  rewrite condition_loop_cons, Hc. exact IH.
Qed.
End loops.

(** The condition loop depends on the object only through what each
    condition of the list finds in it. *)
Lemma condition_loop_ext resolve value value' conditions :
  (forall c, c ∈ conditions ->
     outcome resolve value' c = outcome resolve value c) ->
  ExportTarget.condition_loop resolve value' conditions
  = ExportTarget.condition_loop resolve value conditions.
Proof.
  induction conditions as [|c conditions IH]; intros Hsame; [reflexivity|].
  rewrite !condition_loop_cons.
  rewrite Hsame by left.
  rewrite IH; [reflexivity|].
  intros c' Hc'. apply Hsame. right. exact Hc'.
Qed.

(** A path returned by a loop is the result of one of the entries. *)
Lemma array_loop_leaf_inv resolve entries blocked path :
  ExportTarget.array_loop resolve entries blocked = RLeaf path ->
  exists entry, entry ∈ entries /\ resolve entry = RLeaf path.
Proof.
  revert blocked. induction entries as [|e entries IH]; intros blocked; simpl.
  - destruct blocked; discriminate.
  - destruct (resolve e) as [p| |] eqn:He.
    + intros [= ->]. exists e. split; [left|exact He].
    + intros (entry & Hin & Hentry)%IH. exists entry. split; [right|]; auto.
    + intros (entry & Hin & Hentry)%IH. exists entry. split; [right|]; auto.
Qed.

Lemma condition_loop_leaf_inv resolve value conditions path :
  ExportTarget.condition_loop resolve value conditions = RLeaf path ->
  exists condition v,
    condition ∈ conditions /\ get value condition = Some v /\
    resolve v = RLeaf path.
Proof.
  induction conditions as [|c conditions IH]; [discriminate|].
  rewrite condition_loop_cons. unfold outcome.
  destruct (get value c) as [v|] eqn:Hget.
  - destruct (resolve v) as [p| |] eqn:Hv.
    + intros [= ->]. exists c, v. split; [left|]; auto.
    + discriminate.
    + intros (c' & v' & Hin & H)%IH. exists c', v'. split; [right|]; auto.
  - intros (c' & v' & Hin & H)%IH. exists c', v'. split; [right|]; auto.
Qed.

(** ** C1: conditional nodes *)

(** C1.  On a [Conditional] node the resolver walks the caller's
    condition list in the caller's order, handing the whole list to each
    recursive call.  A condition without an entry, or whose entry
    resolves to Absent, is passed over; the first condition whose entry
    resolves to a path or to Blocked decides the node, so a Blocked
    entry ends the search even if later conditions have a path.  If no
    condition of the list has an entry (more generally, if every entry
    found resolves to Absent) the node is Absent.  The order in which
    the object lists its keys plays no role. *)
Theorem conditional_follows_condition_list
    (entries : object ExportValue) (conditions : list string) :
  (forall before condition after v,
     conditions = before ++ condition :: after ->
     (forall c v', c ∈ before -> get entries c = Some v' ->
        ExportTarget._resolveExportValue v' conditions = RAbsent) ->
     get entries condition = Some v ->
     ExportTarget._resolveExportValue v conditions <> RAbsent ->
     ExportTarget._resolveExportValue (Conditional entries) conditions
     = ExportTarget._resolveExportValue v conditions) /\
  (forall before condition after,
     conditions = before ++ condition :: after ->
     (forall c, c ∈ before -> hasOwnProperty entries c = false) ->
     get entries condition = Some Blocked ->
     ExportTarget._resolveExportValue (Conditional entries) conditions
     = RBlocked) /\
  ((forall c, c ∈ conditions -> hasOwnProperty entries c = false) ->
   ExportTarget._resolveExportValue (Conditional entries) conditions
   = RAbsent) /\
  ((forall c v, c ∈ conditions -> get entries c = Some v ->
      ExportTarget._resolveExportValue v conditions = RAbsent) ->
   ExportTarget._resolveExportValue (Conditional entries) conditions
   = RAbsent) /\
  (forall entries',
     NoDup entries.*1 -> entries ≡ₚ entries' ->
     ExportTarget._resolveExportValue (Conditional entries') conditions
     = ExportTarget._resolveExportValue (Conditional entries) conditions).
Proof.
  set (resolve := fun v => ExportTarget._resolveExportValue v conditions).
  assert (Hfirst : forall before condition after v,
     conditions = before ++ condition :: after ->
     (forall c v', c ∈ before -> get entries c = Some v' ->
        resolve v' = RAbsent) ->
     get entries condition = Some v ->
     resolve v <> RAbsent ->
     ExportTarget._resolveExportValue (Conditional entries) conditions
     = resolve v).
  { intros before condition after v Hsplit Hbefore Hget Hv.
    change (ExportTarget.condition_loop resolve entries conditions
            = resolve v).
    rewrite Hsplit.
    rewrite condition_loop_first; unfold outcome.
    - rewrite Hget. reflexivity.
    - apply Forall_forall. intros c Hc.
      destruct (get entries c) as [v'|] eqn:Hc'; [|reflexivity].
      exact (Hbefore c v' Hc Hc').
    - rewrite Hget. exact Hv. }
  assert (Hnone : (forall c v, c ∈ conditions -> get entries c = Some v ->
      resolve v = RAbsent) ->
   ExportTarget._resolveExportValue (Conditional entries) conditions
   = RAbsent).
  { intros Hall.
    change (ExportTarget.condition_loop resolve entries conditions = RAbsent).
    apply condition_loop_none, Forall_forall. intros c Hc. unfold outcome.
    destruct (get entries c) as [v|] eqn:Hget; [|reflexivity].
    exact (Hall c v Hc Hget). }
  split; [exact Hfirst|]. split; [|split; [|split; [exact Hnone|]]].
  - intros before condition after Hsplit Hbefore Hget.
    rewrite (Hfirst before condition after Blocked Hsplit); try done.
    intros c v' Hc Hget'.
    apply Hbefore, hasOwnProperty_false in Hc. congruence.
  - intros Hmissing. apply Hnone. intros c v Hc Hget.
    apply Hmissing, hasOwnProperty_false in Hc. congruence.
  - intros entries' Hnd Hperm.
    change (ExportTarget.condition_loop resolve entries' conditions
            = ExportTarget.condition_loop resolve entries conditions).
    apply condition_loop_ext. intros c _. unfold outcome.
    rewrite (get_Permutation entries entries') by assumption. reflexivity.
Qed.

(** The theorem at the object
    [{ import: "./index.mjs", node: null, default: "./index.js" }] and the
    conditions [browser, node, import, default]: [browser] has no entry,
    [node] is nulled, and the node is Blocked although [import] and
    [default] have paths; with the keys listed in another order the
    result is the same. *)
Lemma conditional_follows_condition_list_witness :
  let entries :=
    [("import", Leaf "./index.mjs"); ("node", Blocked);
     ("default", Leaf "./index.js")] in
  let conditions := ["browser"; "node"; "import"; "default"] in
  ExportTarget._resolveExportValue (Conditional entries) conditions
  = RBlocked /\
  ExportTarget._resolveExportValue (Conditional entries) ["browser"; "worker"]
  = RAbsent /\
  ExportTarget._resolveExportValue
    (Conditional
       [("node", Blocked); ("default", Leaf "./index.js");
        ("import", Leaf "./index.mjs")]) conditions
  = ExportTarget._resolveExportValue (Conditional entries) conditions.
Proof.
  intros entries conditions. split; [|split].
  - apply (proj1 (proj2
      (conditional_follows_condition_list entries conditions))
      ["browser"] "node" ["import"; "default"]).
    + reflexivity.
    + intros c Hc. apply list_elem_of_singleton in Hc. subst c. reflexivity.
    + reflexivity.
  - apply (proj1 (proj2 (proj2
      (conditional_follows_condition_list entries ["browser"; "worker"])))).
    intros c Hc.
    apply elem_of_cons in Hc as [->|Hc]; [reflexivity|].
    apply list_elem_of_singleton in Hc. subst c. reflexivity.
  - apply (proj2 (proj2 (proj2 (proj2
      (conditional_follows_condition_list entries conditions))))).
    + apply (bool_decide_unpack _). vm_compute. exact I.
    + apply Permutation_cons_append.
Defined.

(** ** C2: list nodes *)

(** C2.  On a [List] node the resolver tries the elements in their
    declared order and returns the first result that is a path.  When no
    element resolves to a path, the node is Blocked if some element
    resolved to Blocked, whatever the later elements gave, and Absent if
    every element resolved to Absent.  So [[null, "a"]] resolves to
    ["a"], [[null]] to Blocked, and [[null, e]] to Blocked for every [e]
    that resolves to Absent. *)
Theorem list_first_leaf_else_blocked
    (items : list ExportValue) (conditions : list string) :
  (forall before item after path,
     items = before ++ item :: after ->
     (forall e, e ∈ before ->
        isLeaf (ExportTarget._resolveExportValue e conditions) = false) ->
     ExportTarget._resolveExportValue item conditions = RLeaf path ->
     ExportTarget._resolveExportValue (List items) conditions = RLeaf path) /\
  ((forall e, e ∈ items ->
      isLeaf (ExportTarget._resolveExportValue e conditions) = false) ->
   (exists e, e ∈ items /\
      ExportTarget._resolveExportValue e conditions = RBlocked) ->
   ExportTarget._resolveExportValue (List items) conditions = RBlocked) /\
  ((forall e, e ∈ items ->
      ExportTarget._resolveExportValue e conditions = RAbsent) ->
   ExportTarget._resolveExportValue (List items) conditions = RAbsent) /\
  ExportTarget._resolveExportValue (List [Blocked; Leaf "a"]) conditions
  = RLeaf "a" /\
  ExportTarget._resolveExportValue (List [Blocked]) conditions = RBlocked /\
  (forall e,
     ExportTarget._resolveExportValue e conditions = RAbsent ->
     ExportTarget._resolveExportValue (List [Blocked; e]) conditions
     = RBlocked).
Proof.
  set (resolve := fun e => ExportTarget._resolveExportValue e conditions).
  split; [|split; [|split; [|split; [|split]]]].
  - intros before item after path -> Hbefore Hitem.
    change (ExportTarget.array_loop resolve (before ++ item :: after) false
            = RLeaf path).
    apply array_loop_first_leaf; [|exact Hitem].
    apply Forall_forall. exact Hbefore.
  - intros Hnone (e & He & Hblocked).
    change (ExportTarget.array_loop resolve items false = RBlocked).
    rewrite array_loop_no_leaf by (apply Forall_forall; exact Hnone).
    simpl.
    replace (existsb (fun e => isBlocked (resolve e)) items) with true;
      [reflexivity|].
    symmetry. apply existsb_exists. exists e. split.
    + apply list_elem_of_In. exact He.
    + unfold resolve. rewrite Hblocked. reflexivity.
  - intros Hall.
    change (ExportTarget.array_loop resolve items false = RAbsent).
    rewrite array_loop_no_leaf.
    + simpl.
      replace (existsb (fun e => isBlocked (resolve e)) items) with false;
        [reflexivity|].
      symmetry. apply not_true_is_false. intros Hex.
      apply existsb_exists in Hex as (e & He & Hblocked).
      apply list_elem_of_In in He. unfold resolve in Hblocked.
      rewrite (Hall e He) in Hblocked. discriminate.
    + apply Forall_forall. intros e He. unfold resolve.
      rewrite (Hall e He). reflexivity.
  - reflexivity.
  - reflexivity.
  - intros e He. simpl. rewrite He. reflexivity.
Qed.

(** The theorem at [[{}, null, [], "./a.js", "./b.js"]]: the first path
    wins over the earlier [null]; and at [[null, {}]], which is Blocked
    although its last element is merely Absent. *)
Lemma list_first_leaf_else_blocked_witness :
  ExportTarget._resolveExportValue
    (List [Conditional []; Blocked; List []; Leaf "./a.js"; Leaf "./b.js"])
    ["import"; "default"]
  = RLeaf "./a.js" /\
  ExportTarget._resolveExportValue (List [Blocked; Conditional []])
    ["import"; "default"]
  = RBlocked /\
  ExportTarget._resolveExportValue (List [Conditional []; List []])
    ["import"; "default"]
  = RAbsent.
Proof.
  split; [|split].
  - apply (proj1 (list_first_leaf_else_blocked _ ["import"; "default"])
      [Conditional []; Blocked; List []] (Leaf "./a.js") [Leaf "./b.js"]).
    + reflexivity.
    + intros e He. repeat (apply elem_of_cons in He as [->|He];
        [reflexivity|]). inversion He.
    + reflexivity.
  - apply (proj1 (proj2
      (list_first_leaf_else_blocked _ ["import"; "default"]))).
    + intros e He. repeat (apply elem_of_cons in He as [->|He];
        [reflexivity|]). inversion He.
    + exists Blocked. split; [left|reflexivity].
  - apply (proj1 (proj2 (proj2
      (list_first_leaf_else_blocked _ ["import"; "default"])))).
    intros e He. repeat (apply elem_of_cons in He as [->|He];
      [reflexivity|]). inversion He.
Defined.

(** ** Normalisation of condition lists *)

Lemma withoutDuplicates_elem_of conditions c :
  c ∈ withoutDuplicates conditions <-> c ∈ conditions.
Proof.
  induction conditions as [|c' conditions IH]; simpl; [reflexivity|].
  rewrite !elem_of_cons, list_elem_of_filter, IH.
  destruct (decide (c = c')); naive_solver.
Qed.

Lemma withoutDuplicates_NoDup conditions : NoDup (withoutDuplicates conditions).
Proof.
  induction conditions as [|c conditions IH]; simpl; constructor.
  - rewrite list_elem_of_filter. naive_solver.
  - apply NoDup_filter, IH.
Qed.

(** The loop invariant: [seen] grows by the names read, [normalized] by
    those of them that were not seen, each at its first occurrence. *)
Lemma _normalizeConditions_loop_spec conditions seen normalized :
  ExportTarget._normalizeConditions_loop conditions seen normalized
  = (seen ∪ list_to_set conditions,
     normalized ++ filter (fun c => c ∉ seen) (withoutDuplicates conditions)).
Proof.
  revert seen normalized.
  induction conditions as [|c conditions IH]; intros seen normalized; simpl.
  - f_equal; [set_solver|]. rewrite app_nil_r. reflexivity.
  - destruct (decide (c ∈ seen)) as [Hseen|Hnew]; rewrite IH.
    + f_equal; [set_solver|]. f_equal.
      rewrite filter_cons_False by (intros Hc; exact (Hc Hseen)).
      rewrite list_filter_filter. apply list_filter_iff.
      intros x. split; [|tauto]. intros Hx. split; [exact Hx|].
      intros ->. exact (Hx Hseen).
    + f_equal; [set_solver|].
      rewrite filter_cons_True by exact Hnew.
      rewrite <- app_assoc. simpl. do 2 f_equal.
      rewrite list_filter_filter. apply list_filter_iff.
      intros x. rewrite not_elem_of_union, not_elem_of_singleton. tauto.
Qed.

Lemma filter_all {A : Type} (P : A -> Prop) `{!forall x, Decision (P x)}
    (l : list A) :
  (forall x, P x) -> filter P l = l.
Proof.
  intros HP. induction l as [|x l IH]; [reflexivity|].
  rewrite filter_cons_True by apply HP. rewrite IH. reflexivity.
Qed.

(** [_normalizeConditions] computes what the specification describes. *)
Lemma _normalizeConditions_normalized conditions :
  ExportTarget._normalizeConditions conditions = normalized conditions.
Proof.
  unfold ExportTarget._normalizeConditions, normalized.
  rewrite _normalizeConditions_loop_spec. simpl.
  rewrite filter_all by set_solver.
  destruct (decide ("default" ∈ conditions)) as [Hin|Hout].
  - rewrite decide_True by set_solver. reflexivity.
  - rewrite decide_False by set_solver. reflexivity.
Qed.

Lemma normalized_elem_of conditions c :
  c ∈ normalized conditions <-> c ∈ conditions \/ c = "default".
Proof.
  unfold normalized. destruct (decide ("default" ∈ conditions)) as [Hin|Hout].
  - rewrite withoutDuplicates_elem_of. naive_solver.
  - rewrite elem_of_app, withoutDuplicates_elem_of, list_elem_of_singleton.
    reflexivity.
Qed.

Lemma normalized_NoDup conditions : NoDup (normalized conditions).
Proof.
  unfold normalized. destruct (decide ("default" ∈ conditions)) as [Hin|Hout].
  - apply withoutDuplicates_NoDup.
  - apply NoDup_app. split; [apply withoutDuplicates_NoDup|]. split.
    + intros c Hc ->%list_elem_of_singleton.
      apply Hout, withoutDuplicates_elem_of, Hc.
    + apply NoDup_singleton.
Qed.

(** ** The constructor *)

Lemma new_Normal_target value options this :
  ExportTarget.new value options = Normal this ->
  ExportTarget._target this = value.
Proof.
  unfold ExportTarget.new. cbv zeta.
  repeat match goal with
         | |- context [if ?b then _ else _] => destruct b
         end; intros [= <-]; reflexivity.
Qed.

(** ** C8: the [resolve] method *)

(** C8.  [resolve(conditions)] on a constructed target normalises the
    caller's list (duplicate names removed, first occurrences kept,
    [default] appended when it is missing), resolves the export value
    the target was constructed from against that list, and returns the
    path of a Leaf result and [undefined] for Absent and for Blocked.
    None of the precomputed fields enters the result. *)
Theorem resolve_normalizes_and_reruns
    (value : ExportValue) (options : ExportTargetOptions)
    (this : ExportTarget.t) (conditions : list string) :
  ExportTarget.new value options = Normal this ->
  ExportTarget._normalizeConditions conditions = normalized conditions /\
  NoDup (normalized conditions) /\
  (forall c, c ∈ normalized conditions <-> c ∈ conditions \/ c = "default") /\
  ExportTarget.resolve this conditions
  = match ExportTarget._resolveExportValue value (normalized conditions) with
    | RLeaf path => Some path
    | RBlocked | RAbsent => None
    end.
Proof.
  intros Hnew. split; [apply _normalizeConditions_normalized|].
  split; [apply normalized_NoDup|]. split; [apply normalized_elem_of|].
  unfold ExportTarget.resolve, ExportTarget._resolveFor.
  rewrite (new_Normal_target _ _ _ Hnew), _normalizeConditions_normalized.
  destruct (ExportTarget._resolveExportValue value (normalized conditions));
    reflexivity.
Qed.

(** The theorem at the target of the repository's test for nested
    conditions, asked for [browser, import, browser]. *)
Lemma resolve_normalizes_and_reruns_witness :
  let value :=
    Conditional
      [("import", Conditional [("node", Leaf "./dist/index.node.mjs");
                               ("default", Leaf "./dist/index.mjs")]);
       ("require", Conditional [("node", Leaf "./dist/index.node.cjs");
                                ("default", Leaf "./dist/index.cjs")])] in
  match ExportTarget.new value noOptions with
  | Normal this =>
      ExportTarget._normalizeConditions ["browser"; "import"; "browser"]
      = ["browser"; "import"; "default"] /\
      ExportTarget.resolve this ["browser"; "import"; "browser"]
      = Some "./dist/index.mjs"
  | Throw _ => False
  end.
Proof.
  intros value.
  destruct (ExportTarget.new value noOptions) as [this|e] eqn:Hnew.
  - destruct (resolve_normalizes_and_reruns value noOptions this
                ["browser"; "import"; "browser"] Hnew)
      as (Hnormalize & _ & _ & Hresolve).
    split.
    + rewrite Hnormalize. vm_compute. reflexivity.
    + rewrite Hresolve. vm_compute. reflexivity.
  - vm_compute in Hnew. discriminate Hnew.
Defined.

(** ** Empty path strings *)

Lemma existsb_false_elem_of {A : Type} (f : A -> bool) (l : list A) x :
  existsb f l = false -> x ∈ l -> f x = false.
Proof.
  intros Hnone Hx. apply not_true_is_false. intros Hfx.
  assert (existsb f l = true) as Hsome; [|congruence].
  apply existsb_exists. exists x. split; [apply list_elem_of_In, Hx|exact Hfx].
Qed.

(** A path the resolver returns is one of the leaves of the tree, so a
    tree without empty leaves never resolves to the empty path. *)
Lemma resolve_nonempty_leaf value conditions path :
  hasEmptyLeaf value = false ->
  ExportTarget._resolveExportValue value conditions = RLeaf path ->
  path <> "".
Proof.
  revert path. induction value as [p| |entries IH|entries IH]
    using ExportValue_nested_ind; intros path Hleaves Hresolve.
  - simpl in *. injection Hresolve as <-.
    apply String.eqb_neq. exact Hleaves.
  - discriminate.
  - simpl in Hleaves.
    apply array_loop_leaf_inv in Hresolve as (entry & Hin & Hentry).
    rewrite Forall_forall in IH.
    apply (IH entry Hin path); [|exact Hentry].
    exact (existsb_false_elem_of _ _ _ Hleaves Hin).
  - simpl in Hleaves.
    apply condition_loop_leaf_inv in Hresolve as (c & v & _ & Hget & Hv).
    apply get_elem_of in Hget.
    rewrite Forall_forall in IH.
    apply (IH (c, v) Hget path); [|exact Hv].
    exact (existsb_false_elem_of _ _ _ Hleaves Hget).
Qed.

Lemma nullish_None_r {A : Type} (a : option A) : nullish a None = a.
Proof. destruct a; reflexivity. Qed.

Lemma falsy_resolveFor value conditions :
  falsy (ResolveResult.target (ExportTarget._resolveFor value conditions))
  = match ExportTarget._resolveExportValue value conditions with
    | RLeaf "" | RBlocked | RAbsent => true
    | RLeaf _ => false
    end.
Proof.
  unfold ExportTarget._resolveFor.
  destruct (ExportTarget._resolveExportValue value conditions) as [[|? ?]| |];
    reflexivity.
Qed.

Lemma target_resolveFor_None value conditions :
  hasEmptyLeaf value = false ->
  falsy (ResolveResult.target (ExportTarget._resolveFor value conditions))
  = true ->
  ResolveResult.target (ExportTarget._resolveFor value conditions) = None.
Proof.
  intros Hleaves. unfold ExportTarget._resolveFor.
  destruct (ExportTarget._resolveExportValue value conditions) as [p| |]
    eqn:Hresolve; simpl; try reflexivity.
  apply (resolve_nonempty_leaf _ _ _ Hleaves) in Hresolve.
  destruct p; [contradiction|discriminate].
Qed.

Lemma allFalsy_noFields value options :
  hasEmptyLeaf value = false ->
  ExportTarget.allFalsy (ExportTarget.precomputed value options) = true <->
  ExportTarget.precomputed value options = noFields.
Proof.
  intros Hleaves. split.
  - unfold ExportTarget.allFalsy, ExportTarget.precomputed. cbv zeta. simpl.
    rewrite !andb_true_iff. intros [[[Hd Hi] Hr] Ht].
    apply (target_resolveFor_None _ _ Hleaves) in Hi, Hr, Ht.
    rewrite Hi, Hr, Ht in Hd |- *. rewrite !nullish_None_r in Hd |- *.
    apply (target_resolveFor_None _ _ Hleaves) in Hd.
    rewrite Hd. reflexivity.
  - intros ->. reflexivity.
Qed.

(** An object without keys and an array without entries resolve to
    Absent, whatever the conditions. *)
Lemma resolve_empty_object conditions :
  ExportTarget._resolveExportValue (Conditional []) conditions = RAbsent.
Proof.
  change (ExportTarget.condition_loop
            (fun v => ExportTarget._resolveExportValue v conditions)
            [] conditions = RAbsent).
  apply condition_loop_none, Forall_forall. intros c _. reflexivity.
Qed.

Lemma resolve_empty_array conditions :
  ExportTarget._resolveExportValue (List []) conditions = RAbsent.
Proof. reflexivity. Qed.

(** A value that resolves to Absent under every condition list gives
    no field. *)
Lemma precomputed_always_absent value options :
  (forall conditions,
     ExportTarget._resolveExportValue value conditions = RAbsent) ->
  ExportTarget.precomputed value options = noFields.
Proof.
  intros Habsent.
  unfold ExportTarget.precomputed, ExportTarget._resolveFor. cbv zeta.
  rewrite !Habsent. reflexivity.
Qed.

(** ** C3: when the constructor throws *)

(** The constructor throws exactly when it finds no truthy field and
    its last resolution, against [this._conditionPriority], finds
    neither a truthy path nor a [null]. *)
Lemma new_Throw_iff value options e :
  ExportTarget.new value options = Throw e <->
  e = InvalidExportTarget value /\
  ExportTarget.allFalsy (ExportTarget.precomputed value options) = true /\
  (ExportTarget._resolveExportValue value
     (ExportTarget.conditionPriorityOf options) = RAbsent \/
   ExportTarget._resolveExportValue value
     (ExportTarget.conditionPriorityOf options) = RLeaf "").
Proof.
  unfold ExportTarget.new. cbv zeta.
  destruct (ExportTarget.allFalsy _).
  - rewrite falsy_resolveFor. unfold ExportTarget._resolveFor.
    destruct (ExportTarget._resolveExportValue value _) as [[|c p]| |];
      simpl; split.
    + intros [= <-]. auto.
    + intros (-> & _ & _). reflexivity.
    + discriminate.
    + intros (_ & _ & [H|H]); discriminate H.
    + discriminate.
    + intros (_ & _ & [H|H]); discriminate H.
    + intros [= <-]. auto.
    + intros (-> & _ & _). reflexivity.
  - split; [discriminate|]. intros (_ & H & _). discriminate H.
Qed.

(** A [null] found by the last resolution makes the constructor return;
    when no field was truthy, [default] is then [undefined]. *)
Lemma new_Blocked_root value options :
  ExportTarget._resolveExportValue value
    (ExportTarget.conditionPriorityOf options) = RBlocked ->
  exists this,
    ExportTarget.new value options = Normal this /\
    ExportTarget.import this
    = ConditionSets.import (ExportTarget.precomputed value options) /\
    ExportTarget.require this
    = ConditionSets.require (ExportTarget.precomputed value options) /\
    ExportTarget.types this
    = ConditionSets.types (ExportTarget.precomputed value options) /\
    (ExportTarget.allFalsy (ExportTarget.precomputed value options) = true ->
     ExportTarget.default this = None).
Proof.
  intros Hroot.
  assert (ExportTarget._resolveFor value
            (ExportTarget.conditionPriorityOf options)
          = ResolveResult.mk None true) as Hfallback
    by (unfold ExportTarget._resolveFor; rewrite Hroot; reflexivity).
  unfold ExportTarget.new. cbv zeta.
  destruct (ExportTarget.allFalsy _).
  - rewrite Hfallback. simpl.
    eexists. split; [reflexivity|]. simpl. auto.
  - eexists. split; [reflexivity|]. simpl.
    repeat split; try reflexivity. discriminate.
Qed.

(** A closed counterexample to C3 as the specification words it: the
    export value [""] (a string, so a well-formed target) makes the
    constructor throw, although its last-resort resolution is the Leaf
    [""] and not Absent, against the priority list as stored and against
    the list before normalisation alike, and although the four
    precomputed fields hold that string and are not absent.  (Were the
    last resort read against the list before normalisation, which lacks
    [default], the object [{ default: null }] would be a second
    counterexample: no field, Absent against that list, and the
    constructor returns.) *)
Lemma invalid_export_target_counterexample :
  ExportTarget.new (Leaf "") noOptions = Throw (InvalidExportTarget (Leaf "")) /\
  ExportTarget._resolveExportValue (Leaf "")
    (ExportTarget.conditionPriorityOf noOptions) = RLeaf "" /\
  ExportTarget.precomputed (Leaf "") noOptions
  = ConditionSets.mk (Some "") (Some "") (Some "") (Some "") /\
  ExportTarget._resolveExportValue (Leaf "") DEFAULT_CONDITION_PRIORITY
  = RLeaf "" /\
  (ExportTarget.precomputed (Conditional [("default", Blocked)]) noOptions
   = noFields /\
   ExportTarget._resolveExportValue (Conditional [("default", Blocked)])
     DEFAULT_CONDITION_PRIORITY = RAbsent /\
   exists this,
     ExportTarget.new (Conditional [("default", Blocked)]) noOptions
     = Normal this) /\
  ~ (forall value options,
       (exists e, ExportTarget.new value options = Throw e) <->
       ExportTarget.precomputed value options = noFields /\
       ExportTarget._resolveExportValue value
         (ExportTarget.conditionPriorityOf options) = RAbsent).
Proof.
  split; [reflexivity|]. split; [reflexivity|]. split; [reflexivity|].
  split; [reflexivity|].
  split; [repeat split; try reflexivity; eexists; reflexivity|].
  intros Hclaim.
  destruct (Hclaim (Leaf "") noOptions) as [Honly _].
  destruct Honly as [_ Habsent]; [eexists; reflexivity|].
  discriminate Habsent.
Qed.

(** C3 (amended).  The constructor tests its fields and the last-resort
    result for truthiness, so an empty path string counts as no path.
    Constructing an ExportTarget from [value] throws the
    InvalidExportTarget error if and only if none of the four
    precomputed fields holds a non-empty path and the last-resort
    resolution of [value] against the normalised global priority list
    is Absent or the empty path.  On a tree without empty leaves this
    is the specification's wording: it throws if and only if the four
    fields are absent and the last-resort resolution is Absent.  When
    the last-resort resolution is Blocked, construction succeeds; if no
    field held a non-empty path, [default] is then absent and the other
    fields stay as precomputed (all absent on a tree without empty
    leaves).  The empty object throws under every option.  The
    priority list of the last resort is the one the constructor stores:
    the caller's or the default one, normalised. *)
Theorem invalid_export_target_iff
    (value : ExportValue) (options : ExportTargetOptions) :
  (ExportTarget.new value options = Throw (InvalidExportTarget value) <->
   ExportTarget.allFalsy (ExportTarget.precomputed value options) = true /\
   (ExportTarget._resolveExportValue value
      (ExportTarget.conditionPriorityOf options) = RAbsent \/
    ExportTarget._resolveExportValue value
      (ExportTarget.conditionPriorityOf options) = RLeaf "")) /\
  (forall e, ExportTarget.new value options = Throw e ->
     e = InvalidExportTarget value) /\
  (hasEmptyLeaf value = false ->
   (ExportTarget.new value options = Throw (InvalidExportTarget value) <->
    ExportTarget.precomputed value options = noFields /\
    ExportTarget._resolveExportValue value
      (ExportTarget.conditionPriorityOf options) = RAbsent)) /\
  (ExportTarget._resolveExportValue value
     (ExportTarget.conditionPriorityOf options) = RBlocked ->
   exists this,
     ExportTarget.new value options = Normal this /\
     (ExportTarget.allFalsy (ExportTarget.precomputed value options) = true ->
      ExportTarget.default this = None /\
      falsy (ExportTarget.import this) = true /\
      falsy (ExportTarget.require this) = true /\
      falsy (ExportTarget.types this) = true) /\
     (ExportTarget.precomputed value options = noFields ->
      ExportTarget.default this = None /\
      ExportTarget.import this = None /\
      ExportTarget.require this = None /\
      ExportTarget.types this = None)) /\
  ExportTarget.new (Conditional []) options
  = Throw (InvalidExportTarget (Conditional [])) /\
  ExportTarget.conditionPriorityOf options
  = normalized (match conditionPriority options with
                | Some priority => priority
                | None => DEFAULT_CONDITION_PRIORITY
                end).
Proof.
  split; [|split; [|split; [|split; [|split]]]];
    [| | | | |apply _normalizeConditions_normalized].
  - rewrite new_Throw_iff. tauto.
  - intros e He. apply new_Throw_iff in He. tauto.
  - intros Hleaves. rewrite new_Throw_iff.
    rewrite (allFalsy_noFields _ _ Hleaves). split.
    + intros (_ & Hfields & [Habsent|Hempty]); [auto|].
      apply (resolve_nonempty_leaf _ _ _ Hleaves) in Hempty. contradiction.
    + intros [Hfields Habsent]. auto.
  - intros Hroot.
    destruct (new_Blocked_root value options Hroot)
      as (this & Hnew & Hi & Hr & Ht & Hd).
    exists this. split; [exact Hnew|]. split.
    + intros Hfalsy. split; [exact (Hd Hfalsy)|].
      rewrite Hi, Hr, Ht. unfold ExportTarget.allFalsy in Hfalsy.
      rewrite !andb_true_iff in Hfalsy. tauto.
    + intros Hnone. rewrite Hi, Hr, Ht, Hnone.
      split; [apply Hd; rewrite Hnone; reflexivity|]. auto.
  - apply new_Throw_iff. split; [reflexivity|]. split.
    + rewrite (precomputed_always_absent _ _ resolve_empty_object).
      reflexivity.
    + left. apply resolve_empty_object.
Qed.

(** The theorem at three roots: [null], which is Blocked and
    constructs a target without fields; an object whose only key no
    standard condition names, which throws; and [""], which throws
    because the empty path is falsy. *)
Lemma invalid_export_target_iff_witness :
  (exists this,
     ExportTarget.new Blocked noOptions = Normal this /\
     ExportTarget.default this = None /\ ExportTarget.import this = None /\
     ExportTarget.require this = None /\ ExportTarget.types this = None) /\
  ExportTarget.new (Conditional [("worker", Leaf "./w.js")]) noOptions
  = Throw (InvalidExportTarget (Conditional [("worker", Leaf "./w.js")])) /\
  ExportTarget.new (Leaf "") noOptions = Throw (InvalidExportTarget (Leaf "")).
Proof.
  split; [|split].
  - destruct (proj1 (proj2 (proj2 (proj2
      (invalid_export_target_iff Blocked noOptions)))) eq_refl)
      as (this & Hnew & _ & Hnone).
    exists this. split; [exact Hnew|]. apply Hnone. reflexivity.
  - apply (proj1 (proj2 (proj2
      (invalid_export_target_iff (Conditional [("worker", Leaf "./w.js")])
         noOptions)))); [reflexivity|].
    split; reflexivity.
  - apply (proj1 (invalid_export_target_iff (Leaf "") noOptions)).
    split; [reflexivity|]. right. reflexivity.
Defined.

(** ** C7: a nulled [default] next to an [import] path *)

(** C7.  [new ExportTarget({ default: null, import: "./dist/index.mjs" })]
    with default options succeeds, and its [default] field is
    ["./dist/index.mjs"]: the [default] condition set meets the nulled
    [default] key and is Blocked, the [import] condition set finds the
    path, and the field falls back to it.  [resolve(["default"])] on the
    same target returns [undefined], because the list [default] alone
    resolves to Blocked. *)
Theorem nulled_default_filled_by_import :
  let value :=
    Conditional [("default", Blocked); ("import", Leaf "./dist/index.mjs")] in
  exists this,
    ExportTarget.new value noOptions = Normal this /\
    ExportTarget.default this = Some "./dist/index.mjs" /\
    ExportTarget.import this = Some "./dist/index.mjs" /\
    ExportTarget.resolve this ["default"] = None /\
    ExportTarget._resolveExportValue value
      (ConditionSets.default (ExportTarget._conditionSets this)) = RBlocked /\
    ExportTarget._resolveExportValue value
      (ConditionSets.import (ExportTarget._conditionSets this))
    = RLeaf "./dist/index.mjs" /\
    ExportTarget._resolveExportValue value
      (ExportTarget._normalizeConditions ["default"]) = RBlocked.
Proof.
  intros value. eexists. split; [vm_compute; reflexivity|].
  repeat split; vm_compute; reflexivity.
Qed.

(** ** C9: empty nodes *)

(** Two values that resolve alike under every condition list construct
    alike: both throw, or both succeed with the same fields. *)
Lemma new_same_resolution a b options :
  (forall conditions,
     ExportTarget._resolveExportValue a conditions
     = ExportTarget._resolveExportValue b conditions) ->
  match ExportTarget.new a options, ExportTarget.new b options with
  | Normal ta, Normal tb =>
      ExportTarget.default ta = ExportTarget.default tb /\
      ExportTarget.import ta = ExportTarget.import tb /\
      ExportTarget.require ta = ExportTarget.require tb /\
      ExportTarget.types ta = ExportTarget.types tb
  | Throw _, Throw _ => True
  | _, _ => False
  end.
Proof.
  intros Hsame.
  assert (forall conditions,
            ExportTarget._resolveFor a conditions
            = ExportTarget._resolveFor b conditions) as HresolveFor
    by (intros conditions; unfold ExportTarget._resolveFor;
        rewrite Hsame; reflexivity).
  assert (ExportTarget.precomputed a options
          = ExportTarget.precomputed b options) as Hfields
    by (unfold ExportTarget.precomputed; cbv zeta;
        rewrite !HresolveFor; reflexivity).
  unfold ExportTarget.new. cbv zeta. rewrite Hfields, HresolveFor.
  destruct (ExportTarget.allFalsy _); [|simpl; auto].
  destruct (falsy _ && negb _); simpl; auto.
Qed.

Lemma new_throws_same_resolution a b options :
  (forall conditions,
     ExportTarget._resolveExportValue a conditions
     = ExportTarget._resolveExportValue b conditions) ->
  (exists e, ExportTarget.new a options = Throw e) <->
  (exists e, ExportTarget.new b options = Throw e).
Proof.
  intros Hsame. pose proof (new_same_resolution a b options Hsame) as H.
  destruct (ExportTarget.new a options), (ExportTarget.new b options);
    try contradiction; split; intros [e' He']; try discriminate He'; eauto.
Qed.

(** An entry that resolves to Absent can be taken out of an array. *)
Lemma resolve_array_skip before entry after conditions :
  ExportTarget._resolveExportValue entry conditions = RAbsent ->
  ExportTarget._resolveExportValue (List (before ++ entry :: after)) conditions
  = ExportTarget._resolveExportValue (List (before ++ after)) conditions.
Proof.
  intros Hentry. simpl. apply array_loop_skip. exact Hentry.
Qed.

(** And out of an object, when no other entry has its key. *)
Lemma resolve_object_skip before key entry after conditions :
  ExportTarget._resolveExportValue entry conditions = RAbsent ->
  key ∉ (before ++ after).*1 ->
  ExportTarget._resolveExportValue
    (Conditional (before ++ (key, entry) :: after)) conditions
  = ExportTarget._resolveExportValue (Conditional (before ++ after)) conditions.
Proof.
  intros Hentry Hkey. simpl. apply condition_loop_ext. intros c _.
  unfold outcome. rewrite !get_app.
  rewrite fmap_app, not_elem_of_app in Hkey. destruct Hkey as [Hb Ha].
  destruct (String.eqb_spec key c) as [<-|Hne].
  - rewrite (get_not_key before key Hb), (get_not_key after key Ha).
    simpl. rewrite String.eqb_refl. exact Hentry.
  - destruct (get before c); [reflexivity|]. simpl.
    apply String.eqb_neq in Hne. rewrite Hne. reflexivity.
Qed.

(** A closed counterexample to C9 as worded: the array [[[], ""]] holds
    a nested empty array, its root resolution is the Leaf [""] and not
    Absent, and yet the constructor throws. *)
Lemma empty_nodes_counterexample :
  ExportTarget._resolveExportValue (List [List []; Leaf ""])
    (ExportTarget.conditionPriorityOf noOptions) = RLeaf "" /\
  ExportTarget.new (List [List []; Leaf ""]) noOptions
  = Throw (InvalidExportTarget (List [List []; Leaf ""])) /\
  ~ (forall value options e,
       ExportTarget.new value options = Throw e ->
       ExportTarget._resolveExportValue value
         (ExportTarget.conditionPriorityOf options) = RAbsent).
Proof.
  split; [reflexivity|]. split; [reflexivity|].
  intros Hclaim.
  specialize (Hclaim (List [List []; Leaf ""]) noOptions _ eq_refl).
  discriminate Hclaim.
Qed.

(** C9 (amended).  An object without keys and an array without
    elements resolve to Absent for every condition list.  Nested in a
    larger array or object, such a node, like any entry that resolves
    to Absent, is passed over: the enclosing node resolves as if the
    entry were not there, and the constructor throws with the entry
    exactly when it throws without it.  The InvalidExportTarget error
    arises only when the root resolution of the whole tree, against the
    global priority list, is Absent or is the empty path string (which
    the constructor's truthiness test takes for no path); on a tree
    without empty leaves, only when it is Absent.  An empty root
    throws. *)
Theorem empty_nodes_are_skipped
    (conditions : list string) (options : ExportTargetOptions) :
  ExportTarget._resolveExportValue (Conditional []) conditions = RAbsent /\
  ExportTarget._resolveExportValue (List []) conditions = RAbsent /\
  (forall before entry after,
     ExportTarget._resolveExportValue entry conditions = RAbsent ->
     ExportTarget._resolveExportValue (List (before ++ entry :: after))
       conditions
     = ExportTarget._resolveExportValue (List (before ++ after)) conditions) /\
  (forall before key entry after,
     ExportTarget._resolveExportValue entry conditions = RAbsent ->
     key ∉ (before ++ after).*1 ->
     ExportTarget._resolveExportValue
       (Conditional (before ++ (key, entry) :: after)) conditions
     = ExportTarget._resolveExportValue (Conditional (before ++ after))
         conditions) /\
  (forall before entry after,
     entry = Conditional [] \/ entry = List [] ->
     (exists e,
        ExportTarget.new (List (before ++ entry :: after)) options = Throw e)
     <-> (exists e,
            ExportTarget.new (List (before ++ after)) options = Throw e)) /\
  (forall before key entry after,
     entry = Conditional [] \/ entry = List [] ->
     key ∉ (before ++ after).*1 ->
     (exists e,
        ExportTarget.new (Conditional (before ++ (key, entry) :: after))
          options = Throw e)
     <-> (exists e,
            ExportTarget.new (Conditional (before ++ after)) options
            = Throw e)) /\
  (forall value e,
     ExportTarget.new value options = Throw e ->
     ExportTarget._resolveExportValue value
       (ExportTarget.conditionPriorityOf options) = RAbsent \/
     ExportTarget._resolveExportValue value
       (ExportTarget.conditionPriorityOf options) = RLeaf "") /\
  (forall value e,
     hasEmptyLeaf value = false ->
     ExportTarget.new value options = Throw e ->
     ExportTarget._resolveExportValue value
       (ExportTarget.conditionPriorityOf options) = RAbsent) /\
  (exists e, ExportTarget.new (Conditional []) options = Throw e) /\
  (exists e, ExportTarget.new (List []) options = Throw e).
Proof.
  assert (forall entry, entry = Conditional [] \/ entry = List [] ->
            forall cs, ExportTarget._resolveExportValue entry cs = RAbsent)
    as Hempty.
  { intros entry [->| ->] cs;
      [apply resolve_empty_object|apply resolve_empty_array]. }
  split; [apply resolve_empty_object|]. split; [reflexivity|].
  split; [intros; apply resolve_array_skip; assumption|].
  split; [intros; apply resolve_object_skip; assumption|].
  split; [|split; [|split; [|split; [|split]]]].
  - intros before entry after Hentry.
    apply new_throws_same_resolution. intros cs.
    apply resolve_array_skip, Hempty, Hentry.
  - intros before key entry after Hentry Hkey.
    apply new_throws_same_resolution. intros cs.
    apply resolve_object_skip; [apply Hempty, Hentry|exact Hkey].
  - intros value e He. apply new_Throw_iff in He. tauto.
  - intros value e Hleaves He. apply new_Throw_iff in He.
    destruct He as (_ & _ & [Habsent|Hpath]); [exact Habsent|].
    apply (resolve_nonempty_leaf _ _ _ Hleaves) in Hpath. contradiction.
  - eexists. apply new_Throw_iff. split; [reflexivity|]. split.
    + rewrite (precomputed_always_absent _ _ resolve_empty_object).
      reflexivity.
    + left. apply resolve_empty_object.
  - eexists. apply new_Throw_iff. split; [reflexivity|]. split.
    + rewrite (precomputed_always_absent _ _ resolve_empty_array).
      reflexivity.
    + left. reflexivity.
Qed.

(** The theorem at [["./a.js"]] with an empty object put in front, and
    at [{ node: [], default: "./d.js" }]: the empty nodes change
    nothing, and neither construction throws. *)
Lemma empty_nodes_are_skipped_witness :
  ExportTarget._resolveExportValue (List [Conditional []; Leaf "./a.js"])
    ["node"; "default"]
  = RLeaf "./a.js" /\
  ExportTarget._resolveExportValue
    (Conditional [("node", List []); ("default", Leaf "./d.js")])
    ["node"; "default"]
  = RLeaf "./d.js" /\
  ~ (exists e,
       ExportTarget.new (List [Conditional []; Leaf "./a.js"]) noOptions
       = Throw e).
Proof.
  split; [|split].
  - etransitivity;
      [exact (proj1 (proj2 (proj2
         (empty_nodes_are_skipped ["node"; "default"] noOptions)))
         [] (Conditional []) [Leaf "./a.js"] eq_refl)|reflexivity].
  - etransitivity;
      [apply (proj1 (proj2 (proj2 (proj2
         (empty_nodes_are_skipped ["node"; "default"] noOptions))))
         [] "node" (List []) [("default", Leaf "./d.js")] eq_refl)
      |reflexivity].
    apply (bool_decide_unpack _). vm_compute. exact I.
  - intros Hthrows.
    apply (proj1 (proj1 (proj2 (proj2 (proj2 (proj2
      (empty_nodes_are_skipped ["node"; "default"] noOptions)))))
      [] (Conditional []) [Leaf "./a.js"] (or_introl eq_refl)))
      in Hthrows.
    destruct Hthrows as [e He]. vm_compute in He. discriminate He.
Defined.

(** ** C10: what a call leaves in the store *)

(** *** The store *)

Lemma read_app_l h k r :
  r < length h -> Store.read (h ++ k) r = Store.read h r.
Proof.
  intros Hr. unfold Store.read. rewrite lookup_app_l by exact Hr. reflexivity.
Qed.

Lemma read_prefix h h' r :
  h `prefix_of` h' -> r < length h -> Store.read h' r = Store.read h r.
Proof. intros [k ->]. apply read_app_l. Qed.

Lemma read_new h elements : Store.read (h ++ [elements]) (length h) = elements.
Proof. unfold Store.read. rewrite list_lookup_middle; reflexivity. Qed.

(** A [push] on the array allocated last. *)
Lemma push_new h elements element :
  Store.push (length h) element (h ++ [elements])
  = h ++ [elements ++ [element]].
Proof.
  unfold Store.push. rewrite alter_app_r_alt by lia.
  rewrite Nat.sub_diag. reflexivity.
Qed.

Lemma prefix_length_le (h h' : Store.store) :
  h `prefix_of` h' -> length h <= length h'.
Proof. intros [k ->]. rewrite length_app. lia. Qed.

(** *** [_normalizeConditions] *)

(** The loop, run on an array [conditions] that was allocated before
    the array [normalized], changes [normalized] only, and as the
    loop of the value embedding does. *)
Lemma stateful_loop_spec h conditions fuel :
  conditions < length h ->
  forall index seen normalized,
    length (Store.read h conditions) - index < fuel ->
    Stateful._normalizeConditions_loop fuel conditions (length h) index seen
      (h ++ [normalized])
    = let '(seen', normalized') :=
        ExportTarget._normalizeConditions_loop
          (drop index (Store.read h conditions)) seen normalized in
      Some (seen', h ++ [normalized']).
Proof.
  intros Hallocated.
  induction fuel as [|fuel IH]; intros index seen normalized Hfuel; [lia|].
  cbn [Stateful._normalizeConditions_loop].
  rewrite (read_app_l _ _ _ Hallocated).
  destruct (Store.read h conditions !! index) as [condition|] eqn:Hindex.
  - rewrite (drop_S _ _ _ Hindex). cbn [ExportTarget._normalizeConditions_loop].
    apply lookup_lt_Some in Hindex.
    destruct (decide (condition ∈ seen)).
    + apply IH. lia.
    + rewrite push_new. apply IH. lia.
  - apply lookup_ge_None in Hindex. rewrite drop_ge by exact Hindex.
    reflexivity.
Qed.

(** [_normalizeConditions] allocates one array, the result, changes
    no other, and fills it as the value embedding says. *)
Lemma stateful_normalizeConditions_spec fuel conditions h :
  conditions < length h ->
  length (Store.read h conditions) < fuel ->
  Stateful._normalizeConditions fuel conditions h
  = Some (length h,
          h ++ [ExportTarget._normalizeConditions (Store.read h conditions)]).
Proof.
  intros Hallocated Hfuel.
  unfold Stateful._normalizeConditions, Store.alloc.
  rewrite (stateful_loop_spec _ _ _ Hallocated) by lia.
  rewrite drop_0. unfold ExportTarget._normalizeConditions.
  destruct (ExportTarget._normalizeConditions_loop _ ∅ [])
    as [seen normalized].
  simpl. destruct (decide ("default" ∈ seen)); [reflexivity|].
  rewrite push_new. reflexivity.
Qed.

Lemma withoutDuplicates_length conditions :
  length (withoutDuplicates conditions) <= length conditions.
Proof.
  induction conditions as [|c conditions IH]; simpl; [lia|].
  pose proof (length_filter (fun x => x <> c) (withoutDuplicates conditions)).
  lia.
Qed.

Lemma _normalizeConditions_length conditions :
  length (ExportTarget._normalizeConditions conditions)
  <= S (length conditions).
Proof.
  rewrite _normalizeConditions_normalized. unfold normalized.
  pose proof (withoutDuplicates_length conditions).
  destruct (decide ("default" ∈ conditions)); [lia|].
  rewrite length_app. simpl. lia.
Qed.

(** *** The constructor *)

(** One condition set of the constructor: the store grows, the result
    is allocated, and it holds the list the value embedding
    normalises. *)
Lemma normalizedSet_spec fuel options key key' name priority h :
  (forall sets, key' (setsIn h sets) = Store.read h <$> key sets) ->
  (forall conditions,
     Stateful.conditionSets options ≫= key = Some conditions ->
     conditions < length h /\ length (Store.read h conditions) < fuel) ->
  priority < length h ->
  S (length (Store.read h priority)) < fuel ->
  exists set h',
    Stateful.normalizedSet fuel options key name priority h = Some (set, h') /\
    h `prefix_of` h' /\
    set < length h' /\
    Store.read h' set
    = ExportTarget._normalizeConditions
        (ExportTarget.conditionSetFor (optionsIn h options) key' name
           (Store.read h priority)).
Proof.
  intros Hkey Hcaller Hpriority Hfuel.
  unfold Stateful.normalizedSet, ExportTarget.conditionSetFor, optionsIn.
  cbn [conditionSets].
  destruct (Stateful.conditionSets options) as [sets|];
    cbn [mbind option_bind fmap option_fmap option_map].
  - rewrite Hkey. destruct (key sets) as [conditions|] eqn:Hset;
      cbn [fmap option_fmap option_map].
    + destruct (Hcaller conditions Hset) as [Hallocated Hlength].
      rewrite (stateful_normalizeConditions_spec _ _ _ Hallocated Hlength).
      eexists _, _. split; [reflexivity|].
      split; [apply prefix_app_r; reflexivity|].
      rewrite length_app, read_new. simpl. split; [lia|reflexivity].
    + unfold Store.alloc.
      rewrite stateful_normalizeConditions_spec
        by (rewrite ?length_app, ?read_new; simpl; lia).
      eexists _, _. split; [reflexivity|].
      split; [rewrite <- app_assoc; apply prefix_app_r; reflexivity|].
      rewrite !read_new, !length_app. simpl. split; [lia|reflexivity].
  - unfold Store.alloc.
    rewrite stateful_normalizeConditions_spec
      by (rewrite ?length_app, ?read_new; simpl; lia).
    eexists _, _. split; [reflexivity|].
    split; [rewrite <- app_assoc; apply prefix_app_r; reflexivity|].
    rewrite !read_new, !length_app. simpl. split; [lia|reflexivity].
Qed.

(** The options read in a later store are the options read when the
    call began. *)
Lemma optionsIn_prefix h h' options :
  h `prefix_of` h' ->
  Forall (fun r => r < length h) (Stateful.references options) ->
  optionsIn h' options = optionsIn h options.
Proof.
  intros Hprefix. unfold Stateful.references, optionsIn, setsIn.
  destruct options as [[p|] [[[d|] [i|] [r|] [t|]]|]]; simpl;
    rewrite ?Forall_cons, ?Forall_nil; intros Hrefs;
    repeat match goal with
           | |- context [Store.read h' ?r] =>
               rewrite (read_prefix h h' r Hprefix) by tauto
           end; reflexivity.
Qed.

(** One condition set, as the constructor computes it: in any store
    that extends the one with the normalised priority list. *)
Lemma normalizedSet_in_new fuel options key key' name h priority hi :
  (forall h sets, key' (setsIn h sets) = Store.read h <$> key sets) ->
  (forall conditions,
     Stateful.conditionSets options ≫= key = Some conditions ->
     conditions ∈ Stateful.references options) ->
  Forall (fun r => r < length h /\ length (Store.read h r) + 2 < fuel)
    (Stateful.references options) ->
  (h ++ [priority]) `prefix_of` hi ->
  S (length priority) < fuel ->
  exists set h',
    Stateful.normalizedSet fuel options key name (length h) hi
    = Some (set, h') /\
    hi `prefix_of` h' /\
    set < length h' /\
    Store.read h' set
    = ExportTarget._normalizeConditions
        (ExportTarget.conditionSetFor (optionsIn h options) key' name
           priority).
Proof.
  intros Hkey Hmember Hrefs Hprefix Hfuel.
  assert (h `prefix_of` hi) as Hprefix'
    by (etransitivity; [apply prefix_app_r; reflexivity|exact Hprefix]).
  assert (length h < length hi) as Hpriority.
  { apply prefix_length_le in Hprefix. rewrite length_app in Hprefix.
    simpl in Hprefix. lia. }
  assert (Store.read hi (length h) = priority) as Hread.
  { rewrite (read_prefix _ _ _ Hprefix), read_new; [reflexivity|].
    rewrite length_app. simpl. lia. }
  rewrite Forall_forall in Hrefs.
  destruct (normalizedSet_spec fuel options key key' name (length h) hi)
    as (set & h' & Hset & Hgrows & Hallocated & Hcontent).
  - apply Hkey.
  - intros conditions Hconditions.
    destruct (Hrefs _ (Hmember _ Hconditions)) as [Hc Hlength].
    rewrite (read_prefix _ _ _ Hprefix' Hc).
    apply prefix_length_le in Hprefix'. lia.
  - exact Hpriority.
  - rewrite Hread. exact Hfuel.
  - exists set, h'. rewrite Hread in Hcontent.
    rewrite (optionsIn_prefix h hi) in Hcontent;
      [auto | exact Hprefix' | apply Forall_forall; intros r Hr;
                               apply (Hrefs r Hr)].
Qed.

Lemma references_of_key options key conditions :
  key = ConditionSets.default \/ key = ConditionSets.import \/
  key = ConditionSets.require \/ key = ConditionSets.types ->
  Stateful.conditionSets options ≫= key = Some conditions ->
  conditions ∈ Stateful.references options.
Proof.
  unfold Stateful.references.
  destruct options as [[p|] [[[d|] [i|] [r|] [t|]]|]];
    intros [-> | [-> | [-> | ->]]]; simpl; intros [= <-]; set_solver.
Qed.

Lemma stateful_new_spec DEFAULT fuel target options h :
  Store.read h DEFAULT = DEFAULT_CONDITION_PRIORITY ->
  Forall (fun r => r < length h /\ length (Store.read h r) + 2 < fuel)
    (DEFAULT :: Stateful.references options) ->
  exists constructed h',
    Stateful.new DEFAULT fuel target options h = Some (constructed, h') /\
    h `prefix_of` h' /\
    completionIn h' constructed
    = ExportTarget.new target (optionsIn h options).
Proof.
  intros Hdefault Hrefs. apply Forall_cons in Hrefs as [[HD HDfuel] Hrefs].
  unfold Stateful.new.
  set (q := from_option id DEFAULT (Stateful.conditionPriority options)).
  assert (q < length h /\ length (Store.read h q) + 2 < fuel) as [Hq Hqfuel].
  { subst q. destruct options as [[p|] sets]; simpl; [|auto].
    apply Forall_cons in Hrefs as [Hp _]. exact Hp. }
  rewrite (stateful_normalizeConditions_spec _ _ _ Hq) by lia.
  cbn [mbind option_bind].
  set (priority := ExportTarget._normalizeConditions (Store.read h q)).
  assert (S (length priority) < fuel) as Hpriority
    by (pose proof (_normalizeConditions_length (Store.read h q));
        subst priority; lia).
  assert (priority = ExportTarget.conditionPriorityOf (optionsIn h options))
    as Hpure.
  { subst priority q. unfold ExportTarget.conditionPriorityOf, optionsIn.
    cbn [conditionPriority].
    destruct (Stateful.conditionPriority options); simpl;
      [reflexivity | rewrite Hdefault; reflexivity]. }
  destruct (normalizedSet_in_new fuel options ConditionSets.default
              ConditionSets.default "default" h priority (h ++ [priority]))
    as (defaultSet & h2 & -> & Hgrows2 & Hallocated2 & Hcontent2);
    [reflexivity | intros c; apply references_of_key; auto | exact Hrefs
    | reflexivity | exact Hpriority |].
  cbn [mbind option_bind].
  destruct (normalizedSet_in_new fuel options ConditionSets.import
              ConditionSets.import "import" h priority h2)
    as (importSet & h3 & -> & Hgrows3 & Hallocated3 & Hcontent3);
    [reflexivity | intros c; apply references_of_key; auto | exact Hrefs
    | exact Hgrows2 | exact Hpriority |].
  cbn [mbind option_bind].
  assert ((h ++ [priority]) `prefix_of` h3) as Hprefix3
    by (etransitivity; eassumption).
  destruct (normalizedSet_in_new fuel options ConditionSets.require
              ConditionSets.require "require" h priority h3)
    as (requireSet & h4 & -> & Hgrows4 & Hallocated4 & Hcontent4);
    [reflexivity | intros c; apply references_of_key; auto | exact Hrefs
    | exact Hprefix3 | exact Hpriority |].
  cbn [mbind option_bind].
  assert ((h ++ [priority]) `prefix_of` h4) as Hprefix4
    by (etransitivity; eassumption).
  destruct (normalizedSet_in_new fuel options ConditionSets.types
              ConditionSets.types "types" h priority h4)
    as (typesSet & h5 & -> & Hgrows5 & Hallocated5 & Hcontent5);
    [reflexivity | intros c; apply references_of_key; auto | exact Hrefs
    | exact Hprefix4 | exact Hpriority |].
  cbn [mbind option_bind].
  assert ((h ++ [priority]) `prefix_of` h5) as Hprefix5
    by (etransitivity; eassumption).
  assert (Store.read h5 (length h) = priority) as Hread1.
  { rewrite (read_prefix _ _ _ Hprefix5), read_new; [reflexivity|].
    rewrite length_app. simpl. lia. }
  assert (Store.read h5 defaultSet = Store.read h2 defaultSet) as Hread2.
  { apply read_prefix; [|exact Hallocated2].
    do 2 (etransitivity; [eassumption|]). exact Hgrows5. }
  assert (Store.read h5 importSet = Store.read h3 importSet) as Hread3.
  { apply read_prefix; [|exact Hallocated3]. etransitivity; eassumption. }
  assert (Store.read h5 requireSet = Store.read h4 requireSet) as Hread4
    by (apply read_prefix; assumption).
  rewrite Hcontent2 in Hread2. rewrite Hcontent3 in Hread3.
  rewrite Hcontent4 in Hread4.
  unfold Stateful._resolveFor.
  rewrite Hread1, Hread2, Hread3, Hread4, Hcontent5.
  assert (h `prefix_of` h5) as Hgrows
    by (etransitivity; [apply prefix_app_r; reflexivity|exact Hprefix5]).
  clearbody priority. subst priority.
  unfold ExportTarget.new, ExportTarget.allFalsy, ExportTarget.precomputed,
    ExportTarget.conditionSetsOf.
  cbv zeta.
  cbn [ConditionSets.default ConditionSets.import ConditionSets.require
       ConditionSets.types].
  repeat match goal with
         | |- context [if ?b then _ else _] => destruct b
         end;
    (eexists _, _; split; [reflexivity|]; split; [exact Hgrows|]);
    unfold completionIn, targetIn; simpl;
    rewrite ?Hread1, ?Hread2, ?Hread3, ?Hread4, ?Hcontent5; reflexivity.
Qed.

(** *** The [resolve] method *)

Lemma stateful_resolve_spec fuel this conditions h h' :
  conditions < length h ->
  length (Store.read h conditions) < fuel ->
  Stateful.resolve fuel this conditions h
  = Some (ExportTarget.resolve (targetIn h' this) (Store.read h conditions),
          h ++ [ExportTarget._normalizeConditions (Store.read h conditions)]).
Proof.
  intros Hallocated Hfuel. unfold Stateful.resolve.
  rewrite (stateful_normalizeConditions_spec _ _ _ Hallocated Hfuel).
  cbn [mbind option_bind]. unfold Stateful._resolveFor. rewrite read_new.
  reflexivity.
Qed.

(** C10.  Resolution is deterministic and pure.  The condition lists
    are arrays in a store, which the caller, the module constant
    [DEFAULT_CONDITION_PRIORITY] and the targets share by reference.
    A constructor call and a [resolve] call always return (for every
    bound on the loop steps beyond the lengths of the arrays they are
    given), and they leave every array that existed before the call as
    it was: the arrays they change are arrays they have allocated
    themselves.  What they return is what the value embedding
    computes from the export value and the elements of the arrays
    given.  So constructing a second target from the same value and
    the same options, after the first, gives the same [default],
    [import], [require] and [types]; resolving the same condition
    list again gives the same answer; and [_resolveFor] gives the same
    result in every later store. *)
Theorem resolution_is_pure
    (DEFAULT : Store.ref) (fuel : nat) (target : ExportValue)
    (options : Stateful.ExportTargetOptions) (conditions : Store.ref)
    (h : Store.store) :
  Store.read h DEFAULT = DEFAULT_CONDITION_PRIORITY ->
  Forall (fun r => r < length h /\ length (Store.read h r) + 2 < fuel)
    (DEFAULT :: conditions :: Stateful.references options) ->
  (forall h',
     h `prefix_of` h' ->
     Stateful._resolveFor target conditions h'
     = Stateful._resolveFor target conditions h) /\
  exists first h1 second h2,
    Stateful.new DEFAULT fuel target options h = Some (first, h1) /\
    Stateful.new DEFAULT fuel target options h1 = Some (second, h2) /\
    h `prefix_of` h1 /\ h1 `prefix_of` h2 /\
    completionIn h1 first = ExportTarget.new target (optionsIn h options) /\
    completionIn h2 second = ExportTarget.new target (optionsIn h options) /\
    (forall this, first = Normal this ->
       exists that,
         second = Normal that /\
         Stateful.default this = Stateful.default that /\
         Stateful.import this = Stateful.import that /\
         Stateful.require this = Stateful.require that /\
         Stateful.types this = Stateful.types that) /\
    (forall error, first = Throw error -> second = Throw error) /\
    (forall this, first = Normal this ->
       exists answer h3 h4,
         Stateful.resolve fuel this conditions h2 = Some (answer, h3) /\
         Stateful.resolve fuel this conditions h3 = Some (answer, h4) /\
         h2 `prefix_of` h3 /\ h3 `prefix_of` h4 /\
         answer
         = ExportTarget.resolve (targetIn h1 this)
             (Store.read h conditions)).
Proof.
  intros Hdefault Hrefs.
  pose proof Hrefs as Hrefs'.
  apply Forall_cons in Hrefs' as [[HD HDfuel] Hrefs'].
  apply Forall_cons in Hrefs' as [[Hconditions Hfuel] Hoptions].
  split.
  { intros h' Hgrows. unfold Stateful._resolveFor.
    rewrite (read_prefix _ _ _ Hgrows Hconditions). reflexivity. }
  assert (forall h', h `prefix_of` h' ->
            Store.read h' DEFAULT = DEFAULT_CONDITION_PRIORITY /\
            Forall (fun r => r < length h' /\
                             length (Store.read h' r) + 2 < fuel)
              (DEFAULT :: conditions :: Stateful.references options))
    as Hlater.
  { intros h' Hgrows. split.
    - rewrite (read_prefix _ _ _ Hgrows HD). exact Hdefault.
    - eapply Forall_impl; [exact Hrefs|]. intros r [Hr Hlength]. simpl.
      rewrite (read_prefix _ _ _ Hgrows Hr).
      apply prefix_length_le in Hgrows. lia. }
  destruct (stateful_new_spec DEFAULT fuel target options h Hdefault)
    as (first & h1 & Hfirst & Hgrows1 & Hpure1).
  { constructor; [auto|exact Hoptions]. }
  destruct (Hlater h1 Hgrows1) as [Hdefault1 Hrefs1].
  destruct (stateful_new_spec DEFAULT fuel target options h1 Hdefault1)
    as (second & h2 & Hsecond & Hgrows2 & Hpure2).
  { apply Forall_cons in Hrefs1 as [H1 Hrefs1].
    apply Forall_cons in Hrefs1 as [_ Hrefs1]. constructor; assumption. }
  rewrite (optionsIn_prefix h h1) in Hpure2;
    [|exact Hgrows1|eapply Forall_impl; [exact Hoptions|]; simpl; tauto].
  exists first, h1, second, h2.
  do 6 (split; [assumption|]).
  assert (completionIn h1 first = completionIn h2 second) as Hsame
    by congruence.
  split; [|split].
  - intros this ->. destruct second as [that|]; [|discriminate Hsame].
    exists that. injection Hsame as Hd Hi Hr Ht _. auto.
  - intros error ->. destruct second; [discriminate Hsame|].
    injection Hsame as <-. reflexivity.
  - intros this _.
    assert (h `prefix_of` h2) as Hgrows by (etransitivity; eassumption).
    destruct (Hlater h2 Hgrows) as [_ Hrefs2].
    apply Forall_cons in Hrefs2 as [_ Hrefs2].
    apply Forall_cons in Hrefs2 as [[Hc2 Hfuel2] _].
    rewrite (stateful_resolve_spec fuel this conditions h2 h1)
      by (assumption || lia).
    eexists _, _, _. split; [reflexivity|].
    rewrite (stateful_resolve_spec fuel this conditions _ h1);
      [|rewrite length_app; lia|rewrite read_app_l by exact Hc2; lia].
    rewrite (read_app_l _ _ _ Hc2), (read_prefix _ _ _ Hgrows Hconditions).
    split; [reflexivity|].
    split; [apply prefix_app_r; reflexivity|].
    split; [apply prefix_app_r; reflexivity|reflexivity].
Qed.

(** The theorem in the module's initial store with a caller's array:
    the constant at reference 0, the caller's conditions
    [import, import] at reference 1, no options, and the export value
    of the repository's test for nested conditions. *)
Lemma resolution_is_pure_witness :
  let h := [DEFAULT_CONDITION_PRIORITY; ["import"; "import"]] in
  let target :=
    Conditional
      [("import", Leaf "./index.mjs"); ("default", Leaf "./index.js")] in
  exists first h1 second h2,
    Stateful.new 0 9 target (Stateful.mkOptions None None) h
    = Some (first, h1) /\
    Stateful.new 0 9 target (Stateful.mkOptions None None) h1
    = Some (second, h2) /\
    h `prefix_of` h1 /\ h1 `prefix_of` h2 /\
    completionIn h1 first = ExportTarget.new target noOptions /\
    completionIn h2 second = ExportTarget.new target noOptions.
Proof.
  intros h target.
  destruct (proj2 (resolution_is_pure 0 9 target
                     (Stateful.mkOptions None None) 1 h eq_refl
                     ltac:(repeat constructor; simpl; lia)))
    as (first & h1 & second & h2 & H1 & H2 & Hg1 & Hg2 & Hp1 & Hp2 & _).
  exists first, h1, second, h2. repeat split; assumption.
Defined.

(** ** The pattern table *)

Section pattern_table.
Variable minimatch : string -> string -> bool.
Implicit Types (table : object ExportValue) (importPath pattern : string).

(** Entries the matcher rejects are passed over. *)
Lemma resolveImport_loop_skip before rest importPath options :
  (forall p v, (p, v) ∈ before -> minimatch importPath p = false) ->
  GlobResolver.resolveImport_loop minimatch (before ++ rest) importPath options
  = GlobResolver.resolveImport_loop minimatch rest importPath options.
Proof.
  induction before as [|[p v] before IH]; intros Hbefore; [reflexivity|].
  simpl. rewrite (Hbefore p v) by left. simpl.
  apply IH. intros p' v' Hin. apply (Hbefore p' v'). right. exact Hin.
Qed.

(** The first entry the matcher accepts ends the loop. *)
Lemma resolveImport_loop_accept pattern target rest importPath options :
  minimatch importPath pattern = true ->
  GlobResolver.resolveImport_loop minimatch ((pattern, target) :: rest)
    importPath options
  = GlobResolver.returned
      (GlobResolver.targetFor pattern target importPath options).
Proof. intros Haccept. simpl. rewrite Haccept. reflexivity. Qed.

Lemma resolveImport_first before pattern target after importPath options :
  (forall p v, (p, v) ∈ before -> minimatch importPath p = false) ->
  minimatch importPath pattern = true ->
  GlobResolver.resolveImport minimatch
    (GlobResolver.mk (before ++ (pattern, target) :: after)) importPath options
  = GlobResolver.returned
      (GlobResolver.targetFor pattern target importPath options).
Proof.
  intros Hbefore Haccept. unfold GlobResolver.resolveImport. simpl.
  rewrite resolveImport_loop_skip by exact Hbefore.
  apply resolveImport_loop_accept, Haccept.
Qed.

End pattern_table.

(** ** The enumeration order of a pattern table *)

Lemma filter_Forall_id {A : Type} (P : A -> Prop) `{!forall x, Decision (P x)}
    (l : list A) :
  Forall P l -> filter P l = l.
Proof.
  induction 1 as [|x l Hx _ IH]; [reflexivity|].
  rewrite filter_cons_True by exact Hx. rewrite IH. reflexivity.
Qed.

Lemma filter_Forall_nil {A : Type} (P : A -> Prop)
    `{!forall x, Decision (P x)} (l : list A) :
  Forall (fun x => ~ P x) l -> filter P l = [].
Proof.
  induction 1 as [|x l Hx _ IH]; [reflexivity|].
  rewrite filter_cons_False by exact Hx. exact IH.
Qed.

(** A new array index takes its place among the indices, whatever
    named properties follow them. *)
Lemma define_app_named {V : Type} (indices names : object V) key (v : V) :
  indexed (key, v) -> Forall named names ->
  define (indices ++ names) key v = define indices key v ++ names.
Proof.
  intros [i Hi] Hnames. simpl in Hi.
  induction indices as [|[k w] indices IH]; simpl.
  - destruct Hnames as [|[k w] names Hk _]; [reflexivity|].
    unfold named in Hk. simpl in *.
    destruct (String.eqb_spec k key) as [->|_]; [congruence|].
    unfold precedes. rewrite Hi, Hk. reflexivity.
  - destruct (String.eqb k key); [reflexivity|].
    destruct (precedes key k); [reflexivity|]. rewrite IH. reflexivity.
Qed.

Lemma define_new {V : Type} (o : object V) key (v : V) :
  key ∉ o.*1 -> define o key v ≡ₚ (key, v) :: o.
Proof.
  induction o as [|[k w] o IH]; intros Hnew; [reflexivity|].
  simpl in *. apply not_elem_of_cons in Hnew as [Hne Hnew].
  destruct (String.eqb_spec k key) as [->|_]; [contradiction|].
  destruct (precedes key k); [reflexivity|].
  rewrite (IH Hnew). apply perm_swap.
Qed.

(** A named key that is new comes last. *)
Lemma define_named {V : Type} (o : object V) key (v : V) :
  named (key, v) -> key ∉ o.*1 -> define o key v = o ++ [(key, v)].
Proof.
  unfold named. simpl. intros Hnamed.
  induction o as [|[k w] o IH]; intros Hnew; [reflexivity|].
  simpl in *. apply not_elem_of_cons in Hnew as [Hne Hnew].
  destruct (String.eqb_spec k key) as [->|_]; [contradiction|].
  unfold precedes. rewrite Hnamed, (IH Hnew). reflexivity.
Qed.

(** A new array index keeps the indices in ascending order. *)
Lemma define_ascending {V : Type} (indices : object V) key (v : V) :
  indexed (key, v) -> Forall indexed indices -> key ∉ indices.*1 ->
  ascending indices -> ascending (define indices key v).
Proof.
  intros [i Hi] Hindexed Hnew Hsorted. simpl in Hi.
  assert (indexOf (key, v) = i) as Hindex
    by (unfold indexOf; simpl; rewrite Hi; reflexivity).
  induction Hsorted as [|[k w] indices Hsorted IH Hleast].
  - repeat constructor.
  - simpl in *. apply not_elem_of_cons in Hnew as [Hne Hnew].
    apply Forall_cons in Hindexed as [[j Hj] Hindexed]. simpl in Hj.
    assert (indexOf (k, w) = j) as Hindex'
      by (unfold indexOf; simpl; rewrite Hj; reflexivity).
    destruct (String.eqb_spec k key) as [->|_]; [contradiction|].
    unfold precedes. rewrite Hi, Hj.
    destruct (N.ltb_spec i j) as [Hlt|Hge].
    + constructor; [constructor; assumption|].
      constructor; [rewrite Hindex, Hindex'; lia|].
      eapply Forall_impl; [exact Hleast|].
      intros e He. simpl in He. rewrite Hindex' in He. rewrite Hindex. lia.
    + constructor; [apply IH; assumption|].
      rewrite (define_new _ _ _ Hnew).
      constructor; [rewrite Hindex, Hindex'; lia | exact Hleast].
Qed.

(** Creating the properties of [declared] on an object of indices in
    ascending order and names behind them puts the new indices among
    the indices and the new names, in their order, last. *)
Lemma fold_define {V : Type} (declared : list (string * V)) :
  forall indices names,
    Forall indexed indices -> Forall named names -> ascending indices ->
    NoDup (indices ++ names ++ declared).*1 ->
    exists indices',
      fold_left (fun o '(key, v) => define o key v) declared
        (indices ++ names)
      = indices' ++ names ++ filter named declared /\
      indices' ≡ₚ indices ++ filter indexed declared /\
      ascending indices'.
Proof.
  induction declared as [|[k v] declared IH];
    intros indices names Hindexed Hnamed Hsorted Hdistinct.
  - exists indices. rewrite !app_nil_r. auto.
  - simpl fold_left. destruct (arrayIndex k) as [i|] eqn:Hk.
    + assert (indexed (k, v)) as Hi by (exists i; exact Hk).
      assert (k ∉ indices.*1) as Hnew.
      { rewrite !fmap_app, fmap_cons in Hdistinct.
        apply NoDup_app in Hdistinct as (_ & Hdistinct & _).
        intros Hin. apply (Hdistinct _ Hin), elem_of_app. right. left. }
      rewrite (define_app_named _ _ _ _ Hi Hnamed).
      destruct (IH (define indices k v) names) as (indices' & Hfold & Hperm
                                                   & Hsorted').
      * rewrite (define_new _ _ _ Hnew). constructor; assumption.
      * exact Hnamed.
      * apply define_ascending; assumption.
      * revert Hdistinct. rewrite !fmap_app, fmap_cons.
        rewrite (define_new _ _ _ Hnew), fmap_cons. simpl.
        rewrite <- !Permutation_middle. auto.
      * exists indices'. split; [|split; [|exact Hsorted']].
        -- rewrite Hfold. rewrite (filter_cons_False named); [reflexivity|].
           unfold named. simpl. rewrite Hk. discriminate.
        -- rewrite Hperm, (define_new _ _ _ Hnew).
           rewrite (filter_cons_True indexed) by exact Hi.
           simpl. apply Permutation_middle.
    + assert (named (k, v)) as Hn by exact Hk.
      assert (k ∉ (indices ++ names).*1) as Hnew.
      { rewrite app_assoc, fmap_app, fmap_cons in Hdistinct.
        apply NoDup_app in Hdistinct as (_ & Hdistinct & _).
        intros Hin. apply (Hdistinct _ Hin). left. }
      rewrite (define_named _ _ _ Hn Hnew), <- app_assoc.
      destruct (IH indices (names ++ [(k, v)])) as (indices' & Hfold & Hperm
                                                    & Hsorted').
      * exact Hindexed.
      * apply Forall_app. split; [exact Hnamed|]. constructor; [exact Hn|].
        constructor.
      * exact Hsorted.
      * revert Hdistinct. rewrite <- !app_assoc. simpl. auto.
      * exists indices'. split; [|split; [|exact Hsorted']].
        -- rewrite Hfold, <- !app_assoc. simpl.
           rewrite (filter_cons_True named) by exact Hn. reflexivity.
        -- rewrite Hperm. rewrite (filter_cons_False indexed); [reflexivity|].
           intros [j Hj]. simpl in Hj. congruence.
Qed.

(** The enumeration order of an object whose properties are declared
    with distinct keys: the array indices in ascending order, then the
    other keys in the order of their declaration. *)
Lemma fromEntries_order {V : Type} (declared : list (string * V)) :
  NoDup declared.*1 ->
  exists indices,
    fromEntries declared = indices ++ filter named declared /\
    indices ≡ₚ filter indexed declared /\
    ascending indices.
Proof.
  intros Hdistinct.
  destruct (fold_define declared [] []) as (indices & Hfold & Hperm & Hsorted);
    try constructor; [exact Hdistinct|].
  exists indices. split; [exact Hfold|]. split; [exact Hperm|exact Hsorted].
Qed.

(** Without array indices among the keys, the enumeration order is the
    declaration order. *)
Lemma fromEntries_named {V : Type} (declared : list (string * V)) :
  NoDup declared.*1 -> Forall named declared ->
  fromEntries declared = declared.
Proof.
  intros Hdistinct Hnamed.
  destruct (fromEntries_order declared Hdistinct) as (indices & -> & Hperm & _).
  rewrite (filter_Forall_id named) by exact Hnamed.
  rewrite (filter_Forall_nil indexed) in Hperm.
  - apply Permutation_nil_r in Hperm. subst indices. reflexivity.
  - eapply Forall_impl; [exact Hnamed|].
    intros e He [j Hj]. unfold named in He. congruence.
Qed.

(** ** C6: the first pattern of the table wins *)

(** A closed counterexample to C6 as worded.  The table declares the
    pattern [*] first and the pattern [1] second, and both match the
    subpath [1].  The key [1] is an array index, which [Object.entries]
    lists before every other key: the target of [1], declared second,
    is returned, not the target of [*], and the table with the two
    declarations exchanged returns the same. *)
Lemma first_declared_counterexample :
  let star := ("*", Leaf "./star.js") in
  let one := ("1", Leaf "./one.js") in
  Minimatch.minimatch "1" "*" = true /\
  Minimatch.minimatch "1" "1" = true /\
  fromEntries [star; one] = [one; star] /\
  fromEntries [one; star] = [one; star] /\
  (exists this,
     GlobResolver.resolveImport Minimatch.minimatch
       (GlobResolver.mk (fromEntries [star; one])) "1" noOptions
     = Normal (Some this) /\
     GlobResolver.resolveImport Minimatch.minimatch
       (GlobResolver.mk (fromEntries [one; star])) "1" noOptions
     = Normal (Some this) /\
     ExportTarget.default this = Some "./one.js" /\
     ExportTarget.new (Leaf "./one.js") noOptions = Normal this) /\
  ~ (exists first,
       ExportTarget.new (Leaf "./star.js") noOptions = Normal first /\
       GlobResolver.resolveImport Minimatch.minimatch
         (GlobResolver.mk (fromEntries [star; one])) "1" noOptions
       = Normal (Some first)).
Proof.
  intros star one. repeat (split; [reflexivity|]). split.
  - eexists. repeat split; vm_compute; reflexivity.
  - intros (first & Hfirst & Hresult). vm_compute in Hfirst, Hresult.
    injection Hfirst as <-. discriminate Hresult.
Qed.

(** C6 (amended).  [resolveImport] returns what the first entry that
    matches the subpath gives, in the order in which [Object.entries]
    enumerates the table: the target constructed from its value (with
    the captures substituted when the pattern has an asterisk), or the
    constructor's error.  That order lists the keys that are array
    indices first, in ascending order, and then every other key in the
    order of its declaration.  For a table without array indices among
    its keys (no key that starts with a dot is one) it is the
    declaration order: nothing ranks the patterns, when two entries
    match, the one declared first is used, and exchanging the two
    makes the other one used.  When no pattern matches, the result is
    [undefined], not an error.  This holds whatever the glob matcher
    accepts. *)
Theorem first_enumerated_pattern_wins
    (minimatch : string -> string -> bool)
    (declared : list (string * ExportValue)) (importPath : string)
    (options : ExportTargetOptions) :
  let built pattern target :=
    if includes pattern "*" then
      ExportTarget.new
        (GlobResolver._substituteExportValue target
           (GlobResolver._extractCaptures pattern importPath))
        options
    else ExportTarget.new target options in
  let result pattern target : completion Error (option ExportTarget.t) :=
    match built pattern target with
    | Normal exportTarget => Normal (Some exportTarget)
    | Throw error => Throw error
    end in
  (forall before pattern target after,
     fromEntries declared = before ++ (pattern, target) :: after ->
     (forall p v, (p, v) ∈ before -> minimatch importPath p = false) ->
     minimatch importPath pattern = true ->
     GlobResolver.resolveImport minimatch
       (GlobResolver.mk (fromEntries declared)) importPath options
     = result pattern target) /\
  (NoDup declared.*1 ->
   exists indices,
     fromEntries declared = indices ++ filter named declared /\
     indices ≡ₚ filter indexed declared /\
     ascending indices) /\
  (NoDup declared.*1 -> Forall named declared ->
   fromEntries declared = declared /\
   forall t1 p1 v1 t2 p2 v2 t3,
     declared = t1 ++ (p1, v1) :: t2 ++ (p2, v2) :: t3 ->
     (forall p v, (p, v) ∈ t1 ++ t2 -> minimatch importPath p = false) ->
     minimatch importPath p1 = true ->
     minimatch importPath p2 = true ->
     GlobResolver.resolveImport minimatch
       (GlobResolver.mk (fromEntries declared)) importPath options
     = result p1 v1 /\
     GlobResolver.resolveImport minimatch
       (GlobResolver.mk
          (fromEntries (t1 ++ (p2, v2) :: t2 ++ (p1, v1) :: t3)))
       importPath options
     = result p2 v2) /\
  ((forall p v, (p, v) ∈ fromEntries declared ->
      minimatch importPath p = false) ->
   GlobResolver.resolveImport minimatch
     (GlobResolver.mk (fromEntries declared)) importPath options
   = Normal None).
Proof.
  intros built result.
  assert (forall table before pattern target after,
            table = before ++ (pattern, target) :: after ->
            (forall p v, (p, v) ∈ before -> minimatch importPath p = false) ->
            minimatch importPath pattern = true ->
            GlobResolver.resolveImport minimatch (GlobResolver.mk table)
              importPath options
            = result pattern target) as Hfirst.
  { intros table before pattern target after -> Hbefore Haccept.
    rewrite (resolveImport_first minimatch _ _ _ _ _ _ Hbefore Haccept).
    unfold result, built, GlobResolver.returned, GlobResolver.targetFor.
    destruct (includes pattern "*"); reflexivity. }
  split; [|split; [|split]].
  - intros before pattern target after. apply Hfirst.
  - apply fromEntries_order.
  - intros Hdistinct Hnamed.
    split; [apply fromEntries_named; assumption|].
    intros t1 p1 v1 t2 p2 v2 t3 Hdeclared Hnone H1 H2.
    assert (forall p v, (p, v) ∈ t1 -> minimatch importPath p = false)
      as Hbefore
      by (intros p v Hin; apply (Hnone p v), elem_of_app; left; exact Hin).
    assert (t1 ++ (p2, v2) :: t2 ++ (p1, v1) :: t3 ≡ₚ declared) as Hperm.
    { rewrite Hdeclared. apply Permutation_app_head.
      rewrite !(Permutation_middle t2). do 2 rewrite (Permutation_app_comm t2).
      simpl. apply perm_swap. }
    split.
    + apply (Hfirst _ t1 p1 v1 (t2 ++ (p2, v2) :: t3));
        [|exact Hbefore|exact H1].
      rewrite (fromEntries_named _ Hdistinct Hnamed). exact Hdeclared.
    + apply (Hfirst _ t1 p2 v2 (t2 ++ (p1, v1) :: t3));
        [|exact Hbefore|exact H2].
      apply fromEntries_named.
      * rewrite Hperm. exact Hdistinct.
      * rewrite Hperm. exact Hnamed.
  - intros Hnone. unfold GlobResolver.resolveImport. simpl.
    rewrite <- (app_nil_r (fromEntries declared)).
    rewrite (resolveImport_loop_skip minimatch) by exact Hnone. reflexivity.
Qed.

(** The theorem at the table of the repository's test "should match
    first pattern in order", with the glob matcher of this file: both
    patterns match [./utils], the table as declared gives the target of
    [./*], the table with the two entries exchanged gives the target of
    [./utils]; and a subpath no pattern matches gives [undefined]. *)
Lemma first_enumerated_pattern_wins_witness :
  let wildcard := ("./*", Leaf "./dist/*.js") in
  let plain := ("./utils", Leaf "./special/utils.js") in
  (exists this,
     ExportTarget.new (Leaf "./dist/utils.js") noOptions = Normal this /\
     GlobResolver.resolveImport Minimatch.minimatch
       (GlobResolver.mk (fromEntries [wildcard; plain])) "./utils" noOptions
     = Normal (Some this)) /\
  (exists this,
     ExportTarget.new (Leaf "./special/utils.js") noOptions = Normal this /\
     GlobResolver.resolveImport Minimatch.minimatch
       (GlobResolver.mk (fromEntries [plain; wildcard])) "./utils" noOptions
     = Normal (Some this)) /\
  GlobResolver.resolveImport Minimatch.minimatch
    (GlobResolver.mk (fromEntries [wildcard; plain])) "./lib/deep" noOptions
  = Normal None.
Proof.
  intros wildcard plain.
  assert (NoDup [wildcard; plain].*1) as Hdistinct by compute_done.
  assert (Forall named [wildcard; plain]) as Hnamed
    by (repeat constructor).
  destruct (proj2 (proj1 (proj2 (proj2
              (first_enumerated_pattern_wins Minimatch.minimatch
                 [wildcard; plain] "./utils" noOptions)))
              Hdistinct Hnamed)
              [] "./*" (Leaf "./dist/*.js") []
              "./utils" (Leaf "./special/utils.js") [] eq_refl)
    as [Hdeclared Hexchanged].
  - intros p v Hin. inversion Hin.
  - reflexivity.
  - reflexivity.
  - split; [|split].
    + eexists. split; [|exact Hdeclared]. reflexivity.
    + eexists. split; [|exact Hexchanged]. reflexivity.
    + apply (proj2 (proj2 (proj2
               (first_enumerated_pattern_wins Minimatch.minimatch
                  [wildcard; plain] "./lib/deep" noOptions)))).
      intros p v Hin. vm_compute in Hin.
      apply elem_of_cons in Hin as [[= -> ->]|Hin]; [reflexivity|].
      apply list_elem_of_singleton in Hin as [= -> ->]. reflexivity.
Defined.

(** ** C5: patterns without a wildcard *)

(** A closed counterexample to C5 as worded: the pattern [./uti?s]
    contains no asterisk and differs from the subpath [./utils], yet
    the glob matcher accepts it ([?] stands for one character), and
    [resolveImport] selects it and resolves its value. *)
Lemma plain_pattern_counterexample :
  includes "./uti?s" "*" = false /\
  "./uti?s" <> "./utils" /\
  Minimatch.minimatch "./utils" "./uti?s" = true /\
  GlobResolver.resolveImport Minimatch.minimatch
    (GlobResolver.mk [("./uti?s", Leaf "./dist/utils.js")]) "./utils" noOptions
  = GlobResolver.returned (ExportTarget.new (Leaf "./dist/utils.js") noOptions)
  /\
  (exists this,
     GlobResolver.resolveImport Minimatch.minimatch
       (GlobResolver.mk [("./uti?s", Leaf "./dist/utils.js")]) "./utils"
       noOptions
     = Normal (Some this) /\
     ExportTarget.default this = Some "./dist/utils.js").
Proof.
  split; [reflexivity|]. split; [discriminate|]. split; [reflexivity|].
  split; [reflexivity|]. eexists. split; vm_compute; reflexivity.
Qed.

(** C5 (amended).  A pattern without an asterisk goes through the glob
    matcher like every other pattern: it is selected exactly when it is
    the first entry of the table that [minimatch] accepts for the
    subpath, so string equality is neither tested nor required, and
    glob metacharacters other than the asterisk keep their meaning.
    What the missing asterisk changes is the step after selection:
    capture extraction and substitution are skipped, and the stored
    export value is resolved as it is. *)
Theorem plain_pattern_selected_by_matcher
    (minimatch : string -> string -> bool)
    (before : object ExportValue) (pattern : string) (target : ExportValue)
    (after : object ExportValue) (importPath : string)
    (options : ExportTargetOptions) :
  includes pattern "*" = false ->
  (forall p v, (p, v) ∈ before -> minimatch importPath p = false) ->
  (minimatch importPath pattern = true ->
   GlobResolver.resolveImport minimatch
     (GlobResolver.mk (before ++ (pattern, target) :: after))
     importPath options
   = match ExportTarget.new target options with
     | Normal exportTarget => Normal (Some exportTarget)
     | Throw error => Throw error
     end) /\
  (minimatch importPath pattern = false ->
   GlobResolver.resolveImport minimatch
     (GlobResolver.mk (before ++ (pattern, target) :: after))
     importPath options
   = GlobResolver.resolveImport minimatch (GlobResolver.mk after)
       importPath options).
Proof.
  intros Hplain Hbefore. split; intros Hmatch.
  - rewrite resolveImport_first by assumption.
    unfold GlobResolver.targetFor. rewrite Hplain. reflexivity.
  - unfold GlobResolver.resolveImport. simpl.
    rewrite resolveImport_loop_skip by exact Hbefore.
    simpl. rewrite Hmatch. reflexivity.
Qed.

(** The theorem at the table of the repository's test "should resolve
    exact match": [.] is accepted for the subpath [.], and rejected
    for [./utils], where the search goes on to the next entry. *)
Lemma plain_pattern_selected_by_matcher_witness :
  let table :=
    [(".", Leaf "./dist/index.js"); ("./utils", Leaf "./dist/utils.js")] in
  GlobResolver.resolveImport Minimatch.minimatch (GlobResolver.mk table)
    "." noOptions
  = match ExportTarget.new (Leaf "./dist/index.js") noOptions with
    | Normal exportTarget => Normal (Some exportTarget)
    | Throw error => Throw error
    end
  /\
  GlobResolver.resolveImport Minimatch.minimatch (GlobResolver.mk table)
    "./utils" noOptions
  = GlobResolver.resolveImport Minimatch.minimatch
      (GlobResolver.mk [("./utils", Leaf "./dist/utils.js")])
      "./utils" noOptions.
Proof.
  intros table. split.
  - apply (proj1 (plain_pattern_selected_by_matcher Minimatch.minimatch
      [] "." (Leaf "./dist/index.js") [("./utils", Leaf "./dist/utils.js")]
      "." noOptions eq_refl (fun p v Hin => False_ind _ (not_elem_of_nil _ Hin)))).
    reflexivity.
  - apply (proj2 (plain_pattern_selected_by_matcher Minimatch.minimatch
      [] "." (Leaf "./dist/index.js") [("./utils", Leaf "./dist/utils.js")]
      "./utils" noOptions eq_refl
      (fun p v Hin => False_ind _ (not_elem_of_nil _ Hin)))).
    reflexivity.
Defined.

(** ** C4: wildcard substitution *)

(** A pass that finds no double asterisk copies the leaf. *)
Lemma replaceWith_double_absent {St : Type} (fn : St -> string * St) st s :
  includes s "**" = false ->
  replaceWith "**" fn O st s = (s, st).
Proof.
  induction s as [|c s IH]; [reflexivity|].
  intros Hnone. change (includes (String c s) "**")
    with (startsWith "**" (String c s) || includes s "**") in Hnone.
  apply orb_false_iff in Hnone as [Hhere Hlater].
  cbn [replaceWith]. rewrite Hhere, (IH Hlater). reflexivity.
Qed.

(** The pass over the single asterisks, on a leaf without a double one,
    is the left-to-right scan of the specification. *)
Lemma replaceWith_single_left_to_right captures captureIndex s :
  includes s "**" = false ->
  fst (replaceWith "*" (GlobResolver.nextCapture captures "*") O
         captureIndex s)
  = substituteLeftToRight false (drop captureIndex captures) s.
Proof.
  revert captureIndex. induction s as [|c s IH]; [reflexivity|].
  intros captureIndex Hnone.
  change (includes (String c s) "**")
    with (startsWith "**" (String c s) || includes s "**") in Hnone.
  apply orb_false_iff in Hnone as [Hhere Hlater].
  cbn [replaceWith substituteLeftToRight]. rewrite Hhere.
  change (startsWith "*" (String c s)) with (Ascii.eqb "*" c && true).
  rewrite andb_true_r, (Ascii.eqb_sym "*" c).
  destruct (Ascii.eqb c "*") eqn:Hc.
  - unfold GlobResolver.nextCapture. simpl String.length. simpl Nat.sub.
    destruct (decide (captureIndex < length captures)) as [Hlt|Hge].
    + rewrite bool_decide_eq_true_2 by exact Hlt.
      specialize (IH (S captureIndex) Hlater).
      destruct (replaceWith "*" _ O (S captureIndex) s) as [out st'].
      simpl in IH. subst out.
      destruct (lookup_lt_is_Some_2 captures captureIndex Hlt) as [x Hx].
      rewrite (drop_S _ _ _ Hx). simpl.
      rewrite (nth_lookup_Some _ _ _ _ Hx). reflexivity.
    + rewrite bool_decide_eq_false_2 by exact Hge.
      specialize (IH captureIndex Hlater).
      destruct (replaceWith "*" _ O captureIndex s) as [out st'].
      simpl in IH. subst out.
      rewrite drop_ge by lia. simpl.
      apply Ascii.eqb_eq in Hc. subst c. reflexivity.
  - specialize (IH captureIndex Hlater).
    destruct (replaceWith "*" _ O captureIndex s) as [out st'].
    simpl in IH. subst out. reflexivity.
Qed.

(** On a leaf without a double asterisk the code does what the
    specification says: one scan, left to right, each asterisk taking
    the next capture and the asterisks beyond the captures staying. *)
Lemma _replaceWildcards_single_asterisks leaf captures :
  includes leaf "**" = false ->
  GlobResolver._replaceWildcards leaf captures
  = substituteLeftToRight false captures leaf.
Proof.
  intros Hnone. unfold GlobResolver._replaceWildcards.
  rewrite (replaceWith_double_absent _ _ _ Hnone).
  pose proof (replaceWith_single_left_to_right captures O leaf Hnone) as H.
  destruct (replaceWith "*" _ O O leaf) as [out st']. exact H.
Qed.

(** C4 fails on the code when a leaf has a single asterisk before a
    double one.  [_replaceWildcards] does not scan the leaf once: it
    first gives captures to every double asterisk, then, in a second
    pass, gives the captures that are left to the single asterisks.
    With the pattern [./*/**] and the subpath [./a/b/c] the captures
    are [a] and [b/c], in the order of the pattern; in the leaf
    [./dist/*/**.js] the double asterisk, although second, takes the
    first capture, and the result is [./dist/b/c/a.js] where one
    left-to-right scan gives [./dist/a/b/c.js].  The leaf of the
    repository's own test has the double asterisk first and comes out
    as expected, and asterisks beyond the captures stay as they are. *)
Theorem replaceWildcards_serves_double_asterisks_first :
  GlobResolver._extractCaptures "./*/**" "./a/b/c" = ["a"; "b/c"] /\
  GlobResolver._replaceWildcards "./dist/*/**.js" ["a"; "b/c"]
  = "./dist/b/c/a.js" /\
  substituteLeftToRight false ["a"; "b/c"] "./dist/*/**.js"
  = "./dist/a/b/c.js" /\
  GlobResolver._replaceWildcards "./dist/*/**.js" ["a"; "b/c"]
  <> substituteLeftToRight false ["a"; "b/c"] "./dist/*/**.js" /\
  Minimatch.minimatch "./a/b/c" "./*/**" = true /\
  GlobResolver.resolveImport Minimatch.minimatch
    (GlobResolver.mk [("./*/**", Leaf "./dist/*/**.js")]) "./a/b/c" noOptions
  = match ExportTarget.new (Leaf "./dist/b/c/a.js") noOptions with
    | Normal exportTarget => Normal (Some exportTarget)
    | Throw error => Throw error
    end
  /\
  GlobResolver._replaceWildcards "./dist/**/*.js" ["components"; "button"]
  = "./dist/components/button.js" /\
  GlobResolver._replaceWildcards "./*/*/**" ["a"] = "./*/*/a".
Proof.
  repeat split; try (vm_compute; reflexivity). vm_compute. discriminate.
Qed.

(** * Further properties of the code *)

(** ** Normalisation laws *)

Lemma withoutDuplicates_NoDup_id conditions :
  NoDup conditions -> withoutDuplicates conditions = conditions.
Proof.
  induction 1 as [|c conditions Hc _ IH]; [reflexivity|].
  simpl. rewrite IH. f_equal. apply filter_Forall_id.
  apply Forall_forall. intros x Hx ->. exact (Hc Hx).
Qed.

Lemma withoutDuplicates_app first second :
  withoutDuplicates (first ++ second)
  = withoutDuplicates first
    ++ filter (fun c => c ∉ first) (withoutDuplicates second).
Proof.
  induction first as [|c first IH]; simpl.
  - rewrite filter_Forall_id; [reflexivity|].
    apply Forall_forall. intros x _. apply not_elem_of_nil.
  - f_equal. rewrite IH, filter_app. f_equal.
    rewrite list_filter_filter. apply list_filter_iff.
    intros x. rewrite not_elem_of_cons. tauto.
Qed.

Lemma normalized_fixed conditions :
  NoDup conditions -> "default" ∈ conditions ->
  normalized conditions = conditions.
Proof.
  intros Hnd Hdefault. unfold normalized.
  rewrite decide_True by exact Hdefault.
  apply withoutDuplicates_NoDup_id, Hnd.
Qed.

Lemma normalized_idempotent conditions :
  normalized (normalized conditions) = normalized conditions.
Proof.
  apply normalized_fixed; [apply normalized_NoDup|].
  apply normalized_elem_of. right. reflexivity.
Qed.

Lemma normalized_app_default conditions :
  normalized (conditions ++ ["default"]) = normalized conditions.
Proof.
  unfold normalized.
  rewrite decide_True by (apply elem_of_app; right; left).
  rewrite withoutDuplicates_app. simpl.
  destruct (decide ("default" ∈ conditions)) as [Hin|Hout].
  - rewrite filter_cons_False by (intros H; exact (H Hin)).
    rewrite filter_nil. apply app_nil_r.
  - rewrite filter_cons_True by exact Hout. reflexivity.
Qed.

Lemma normalized_app_self conditions :
  normalized (conditions ++ conditions) = normalized conditions.
Proof.
  assert (withoutDuplicates (conditions ++ conditions)
          = withoutDuplicates conditions) as Hwd.
  { rewrite withoutDuplicates_app, filter_Forall_nil; [apply app_nil_r|].
    apply Forall_forall. intros x Hx Hnot.
    apply Hnot, withoutDuplicates_elem_of, Hx. }
  unfold normalized. rewrite Hwd.
  destruct (decide ("default" ∈ conditions)) as [Hin|Hout].
  - rewrite decide_True by (apply elem_of_app; left; exact Hin). reflexivity.
  - rewrite decide_False; [reflexivity|].
    rewrite elem_of_app. tauto.
Qed.

(** X1.  [_normalizeConditions] is idempotent, and it returns unchanged
    every list that has no duplicate and contains [default]; such are
    the lists the constructor stores, so normalising a stored list
    again, as [resolve] does, changes nothing. *)
Theorem _normalizeConditions_idempotent (conditions : list string) :
  ExportTarget._normalizeConditions
    (ExportTarget._normalizeConditions conditions)
  = ExportTarget._normalizeConditions conditions /\
  (NoDup conditions -> "default" ∈ conditions ->
   ExportTarget._normalizeConditions conditions = conditions).
Proof.
  rewrite !_normalizeConditions_normalized.
  split; [apply normalized_idempotent|apply normalized_fixed].
Qed.

Lemma _normalizeConditions_idempotent_witness :
  ExportTarget._normalizeConditions ["import"; "node"; "default"]
  = ["import"; "node"; "default"].
Proof.
  apply (proj2 (_normalizeConditions_idempotent _)).
  - apply (bool_decide_unpack _). vm_compute. exact I.
  - apply (bool_decide_unpack _). vm_compute. exact I.
Defined.

(** X2.  [resolve] does not see a repeated condition name, nor a
    [default] written at the end of the list: the answer for a list is
    the answer for the list followed by [default], for the list written
    twice, and for the list already normalised. *)
Theorem resolve_ignores_repeats_and_trailing_default
    (this : ExportTarget.t) (conditions : list string) :
  ExportTarget.resolve this (conditions ++ ["default"])
  = ExportTarget.resolve this conditions /\
  ExportTarget.resolve this (conditions ++ conditions)
  = ExportTarget.resolve this conditions /\
  ExportTarget.resolve this (ExportTarget._normalizeConditions conditions)
  = ExportTarget.resolve this conditions.
Proof.
  unfold ExportTarget.resolve. rewrite !_normalizeConditions_normalized.
  rewrite normalized_app_default, normalized_app_self, normalized_idempotent.
  auto.
Qed.

(** ** Where results come from *)

Lemma array_loop_blocked_inv resolve entries :
  ExportTarget.array_loop resolve entries false = RBlocked ->
  exists entry, entry ∈ entries /\ resolve entry = RBlocked.
Proof.
  induction entries as [|e entries IH]; simpl; [discriminate|].
  destruct (resolve e) as [p| |] eqn:He.
  - discriminate.
  - intros _. exists e. split; [left|exact He].
  - intros (entry & Hin & Hentry)%IH. exists entry. split; [right|]; auto.
Qed.

Lemma condition_loop_blocked_inv resolve value conditions :
  ExportTarget.condition_loop resolve value conditions = RBlocked ->
  exists condition v,
    condition ∈ conditions /\ get value condition = Some v /\
    resolve v = RBlocked.
Proof.
  induction conditions as [|c conditions IH]; [discriminate|].
  rewrite condition_loop_cons. unfold outcome.
  destruct (get value c) as [v|] eqn:Hget.
  - destruct (resolve v) as [p| |] eqn:Hv.
    + discriminate.
    + intros _. exists c, v. split; [left|]; auto.
    + intros (c' & v' & Hin & H)%IH. exists c', v'. split; [right|]; auto.
  - intros (c' & v' & Hin & H)%IH. exists c', v'. split; [right|]; auto.
Qed.

(** A path the resolver returns is one of the path strings of the
    tree; Blocked needs a [null] in the tree. *)
Lemma resolved_path_is_a_leaf_aux value conditions :
  (forall path,
     ExportTarget._resolveExportValue value conditions = RLeaf path ->
     path ∈ leaves value) /\
  (ExportTarget._resolveExportValue value conditions = RBlocked ->
   hasNull value = true).
Proof.
  induction value as [p| |entries IH|entries IH]
    using ExportValue_nested_ind; (split; [intros path Hresolve|intros Hresolve]).
  - injection Hresolve as <-. left.
  - discriminate.
  - discriminate.
  - reflexivity.
  - apply array_loop_leaf_inv in Hresolve as (entry & Hin & Hentry).
    rewrite Forall_forall in IH. simpl.
    apply list_elem_of_In, in_flat_map. exists entry.
    split; [apply list_elem_of_In, Hin|].
    apply list_elem_of_In, (proj1 (IH entry Hin)), Hentry.
  - apply array_loop_blocked_inv in Hresolve as (entry & Hin & Hentry).
    rewrite Forall_forall in IH. simpl.
    apply existsb_exists. exists entry.
    split; [apply list_elem_of_In, Hin|].
    apply (proj2 (IH entry Hin)), Hentry.
  - apply condition_loop_leaf_inv in Hresolve as (c & v & _ & Hget & Hv).
    apply get_elem_of in Hget. rewrite Forall_forall in IH. simpl.
    apply list_elem_of_In, in_flat_map. exists (c, v).
    split; [apply list_elem_of_In, Hget|].
    apply list_elem_of_In, (proj1 (IH (c, v) Hget)), Hv.
  - apply condition_loop_blocked_inv in Hresolve as (c & v & _ & Hget & Hv).
    apply get_elem_of in Hget. rewrite Forall_forall in IH. simpl.
    apply existsb_exists. exists (c, v).
    split; [apply list_elem_of_In, Hget|].
    apply (proj2 (IH (c, v) Hget)), Hv.
Qed.


(** X3.  The resolver invents nothing: a path it returns is one of the
    path strings of the tree, and it answers Blocked only for a tree
    that holds a [null]. *)
Theorem resolved_path_is_a_leaf
    (value : ExportValue) (conditions : list string) :
  (forall path,
     ExportTarget._resolveExportValue value conditions = RLeaf path ->
     path ∈ leaves value) /\
  (ExportTarget._resolveExportValue value conditions = RBlocked ->
   hasNull value = true).
Proof. apply resolved_path_is_a_leaf_aux. Qed.

Lemma resolved_path_is_a_leaf_witness :
  "./index.mjs"
  ∈ leaves (List [Blocked; Conditional [("import", Leaf "./index.mjs")]]).
Proof.
  apply (proj1 (resolved_path_is_a_leaf
                  (List [Blocked; Conditional [("import", Leaf "./index.mjs")]])
                  ["import"; "default"])).
  reflexivity.
Defined.

(** ** Absent results and the set of conditions *)

Lemma array_loop_absent_inv resolve entries blocked :
  ExportTarget.array_loop resolve entries blocked = RAbsent ->
  blocked = false /\ Forall (fun e => resolve e = RAbsent) entries.
Proof.
  revert blocked. induction entries as [|e entries IH]; intros blocked; simpl.
  - destruct blocked; [discriminate|]. auto.
  - destruct (resolve e) eqn:He.
    + discriminate.
    + intros [Hb _]%IH. discriminate Hb.
    + intros [Hb Hall]%IH. auto.
Qed.

Lemma array_loop_all_absent resolve entries :
  Forall (fun e => resolve e = RAbsent) entries ->
  ExportTarget.array_loop resolve entries false = RAbsent.
Proof.
  induction 1 as [|e entries He _ IH]; [reflexivity|].
  simpl. rewrite He. exact IH.
Qed.

Lemma condition_loop_absent_inv resolve value conditions :
  ExportTarget.condition_loop resolve value conditions = RAbsent ->
  Forall (fun c => outcome resolve value c = RAbsent) conditions.
Proof.
  induction conditions as [|c conditions IH]; [constructor|].
  rewrite condition_loop_cons.
  destruct (outcome resolve value c) eqn:Hc; try discriminate.
  intros H. constructor; [exact Hc|apply IH, H].
Qed.

(** A tree that is Absent for a condition list is Absent for every
    list made of conditions of that list. *)
Lemma resolve_absent_subset value conditions conditions' :
  conditions' ⊆ conditions ->
  ExportTarget._resolveExportValue value conditions = RAbsent ->
  ExportTarget._resolveExportValue value conditions' = RAbsent.
Proof.
  intros Hsub. induction value as [p| |entries IH|entries IH]
    using ExportValue_nested_ind; intros Habsent.
  - discriminate.
  - discriminate.
  - simpl in *. apply array_loop_absent_inv in Habsent as [_ Hall].
    apply array_loop_all_absent.
    rewrite Forall_forall in IH. rewrite Forall_forall in Hall.
    apply Forall_forall. intros e He. apply (IH e He), Hall, He.
  - simpl in *. apply condition_loop_absent_inv in Habsent.
    apply condition_loop_none.
    rewrite Forall_forall in IH. rewrite Forall_forall in Habsent.
    apply Forall_forall. intros c Hc.
    specialize (Habsent c (Hsub c Hc)). unfold outcome in *.
    destruct (get entries c) as [v|] eqn:Hget; [|reflexivity].
    apply (IH (c, v) (get_elem_of _ _ _ Hget)), Habsent.
Qed.

(** X4.  Whether a tree is Absent depends on the set of conditions
    only, not on their order or repetition: a tree that is Absent for a
    list is Absent for every list drawn from the same names.  (Which
    path, or whether Blocked, does depend on the order.) *)
Theorem absent_depends_on_condition_set
    (value : ExportValue) (conditions conditions' : list string) :
  (conditions' ⊆ conditions ->
   ExportTarget._resolveExportValue value conditions = RAbsent ->
   ExportTarget._resolveExportValue value conditions' = RAbsent) /\
  ((forall c, c ∈ conditions <-> c ∈ conditions') ->
   (ExportTarget._resolveExportValue value conditions = RAbsent <->
    ExportTarget._resolveExportValue value conditions' = RAbsent)).
Proof.
  split; [apply resolve_absent_subset|].
  intros Hsame. split; apply resolve_absent_subset; intros c Hc;
    apply Hsame, Hc.
Qed.

Lemma absent_depends_on_condition_set_witness :
  ExportTarget._resolveExportValue
    (Conditional [("worker", Leaf "./w.js"); ("node", List [])])
    ["default"; "node"; "node"]
  = RAbsent.
Proof.
  apply (proj1 (absent_depends_on_condition_set
                  (Conditional [("worker", Leaf "./w.js"); ("node", List [])])
                  ["node"; "browser"; "default"] ["default"; "node"; "node"])).
  - intros c Hc. repeat (apply elem_of_cons in Hc as [->|Hc]);
      [set_solver..|inversion Hc].
  - reflexivity.
Defined.

(** ** The constructor and its fields *)

Lemma _normalizeConditions_elem_of conditions c :
  c ∈ ExportTarget._normalizeConditions conditions
  <-> c ∈ conditions \/ c = "default".
Proof. rewrite _normalizeConditions_normalized. apply normalized_elem_of. Qed.

Lemma conditionPriorityOf_default options :
  "default" ∈ ExportTarget.conditionPriorityOf options.
Proof. apply _normalizeConditions_elem_of. right. reflexivity. Qed.

(** Without [conditionSets], the standard set of a name the priority
    list contains is made of conditions of the priority list. *)
Lemma standard_set_subset options key name :
  conditionSets options = None ->
  name ∈ ExportTarget.conditionPriorityOf options ->
  ExportTarget._normalizeConditions
    (ExportTarget.conditionSetFor options key name
       (ExportTarget.conditionPriorityOf options))
  ⊆ ExportTarget.conditionPriorityOf options.
Proof.
  intros Hnone Hname c Hc. unfold ExportTarget.conditionSetFor in Hc.
  rewrite Hnone in Hc. simpl in Hc.
  apply _normalizeConditions_elem_of in Hc as [Hc| ->].
  - apply elem_of_cons in Hc as [->|Hc]; assumption.
  - apply conditionPriorityOf_default.
Qed.

(** X5.  When the caller overrides no condition set and the priority
    list names [import], [require] and [types] (as the default list
    does), the last-resort resolution alone decides: if the tree is
    Absent for the priority list, the four fields are absent as well and
    the constructor throws; and on a tree without empty path strings it
    throws exactly in that case. *)
Theorem root_absent_throws
    (value : ExportValue) (options : ExportTargetOptions) :
  conditionSets options = None ->
  "import" ∈ ExportTarget.conditionPriorityOf options ->
  "require" ∈ ExportTarget.conditionPriorityOf options ->
  "types" ∈ ExportTarget.conditionPriorityOf options ->
  (ExportTarget._resolveExportValue value
     (ExportTarget.conditionPriorityOf options) = RAbsent ->
   ExportTarget.precomputed value options = noFields /\
   ExportTarget.new value options = Throw (InvalidExportTarget value)) /\
  (hasEmptyLeaf value = false ->
   (ExportTarget.new value options = Throw (InvalidExportTarget value) <->
    ExportTarget._resolveExportValue value
      (ExportTarget.conditionPriorityOf options) = RAbsent)).
Proof.
  intros Hnone Himport Hrequire Htypes.
  assert (ExportTarget._resolveExportValue value
            (ExportTarget.conditionPriorityOf options) = RAbsent ->
          ExportTarget.precomputed value options = noFields) as Hfields.
  { intros Habsent.
    assert (forall key name,
              name ∈ ExportTarget.conditionPriorityOf options ->
              ExportTarget._resolveExportValue value
                (ExportTarget._normalizeConditions
                   (ExportTarget.conditionSetFor options key name
                      (ExportTarget.conditionPriorityOf options)))
              = RAbsent) as Hset.
    { intros key name Hname.
      exact (resolve_absent_subset value _ _
               (standard_set_subset options key name Hnone Hname) Habsent). }
    unfold ExportTarget.precomputed, ExportTarget.conditionSetsOf,
      ExportTarget._resolveFor. cbv zeta. simpl.
    rewrite (Hset _ "default" (conditionPriorityOf_default options)).
    rewrite (Hset _ "import" Himport), (Hset _ "require" Hrequire).
    rewrite (Hset _ "types" Htypes). reflexivity. }
  split.
  - intros Habsent. split; [exact (Hfields Habsent)|].
    apply new_Throw_iff. split; [reflexivity|].
    rewrite (Hfields Habsent). auto.
  - intros Hleaves. rewrite new_Throw_iff. split.
    + intros (_ & _ & [Habsent|Hempty]); [exact Habsent|].
      apply (resolve_nonempty_leaf _ _ _ Hleaves) in Hempty. contradiction.
    + intros Habsent. split; [reflexivity|].
      rewrite (Hfields Habsent). auto.
Qed.

Lemma root_absent_throws_witness :
  ExportTarget.new (Conditional [("worker", Leaf "./w.js")]) noOptions
  = Throw (InvalidExportTarget (Conditional [("worker", Leaf "./w.js")])).
Proof.
  apply (proj1 (root_absent_throws (Conditional [("worker", Leaf "./w.js")])
                  noOptions eq_refl
                  ltac:(apply (bool_decide_unpack _); vm_compute; exact I)
                  ltac:(apply (bool_decide_unpack _); vm_compute; exact I)
                  ltac:(apply (bool_decide_unpack _); vm_compute; exact I))).
  reflexivity.
Defined.

Lemma target_resolveFor_leaf value conditions path :
  ResolveResult.target (ExportTarget._resolveFor value conditions) = Some path
  <-> ExportTarget._resolveExportValue value conditions = RLeaf path.
Proof.
  unfold ExportTarget._resolveFor.
  destruct (ExportTarget._resolveExportValue value conditions); simpl;
    split; congruence.
Qed.

Lemma nullish_Some {A : Type} (a b : option A) x :
  nullish a b = Some x -> a = Some x \/ b = Some x.
Proof. destruct a; simpl; auto. Qed.

Lemma nullish_None {A : Type} (a b : option A) :
  nullish a b = None -> a = None /\ b = None.
Proof. destruct a; simpl; [discriminate|auto]. Qed.

(** A field the constructor first assigns is a path of the tree. *)
Lemma precomputed_fields_are_leaves value options path :
  ConditionSets.default (ExportTarget.precomputed value options) = Some path \/
  ConditionSets.import (ExportTarget.precomputed value options) = Some path \/
  ConditionSets.require (ExportTarget.precomputed value options) = Some path \/
  ConditionSets.types (ExportTarget.precomputed value options) = Some path ->
  path ∈ leaves value.
Proof.
  unfold ExportTarget.precomputed. cbv zeta. simpl.
  intros [H|[H|[H|H]]];
    repeat (apply nullish_Some in H as [H|H]);
    apply target_resolveFor_leaf in H;
    exact (proj1 (resolved_path_is_a_leaf_aux value _) path H).
Qed.

(** What the constructor returns, field by field. *)
Lemma new_Normal_inv value options this :
  ExportTarget.new value options = Normal this ->
  let fields := ExportTarget.precomputed value options in
  ExportTarget.import this = ConditionSets.import fields /\
  ExportTarget.require this = ConditionSets.require fields /\
  ExportTarget.types this = ConditionSets.types fields /\
  ExportTarget._target this = value /\
  ExportTarget._conditionPriority this
  = ExportTarget.conditionPriorityOf options /\
  ExportTarget._conditionSets this = ExportTarget.conditionSetsOf options /\
  (ExportTarget.allFalsy fields = false /\
   ExportTarget.default this = ConditionSets.default fields \/
   ExportTarget.allFalsy fields = true /\
   ExportTarget.default this
   = ResolveResult.target
       (ExportTarget._resolveFor value
          (ExportTarget.conditionPriorityOf options)) /\
   falsy (ExportTarget.default this)
   = ResolveResult.blocked
       (ExportTarget._resolveFor value
          (ExportTarget.conditionPriorityOf options))).
Proof.
  unfold ExportTarget.new. cbv zeta.
  destruct (ExportTarget.allFalsy _) eqn:Hfalsy.
  - destruct (falsy _ && negb _) eqn:Hthrow; [discriminate|].
    intros [= <-]. simpl. repeat split. right. repeat split.
    apply andb_false_iff in Hthrow as [H|H].
    + rewrite H. revert H. unfold ExportTarget._resolveFor.
      destruct (ExportTarget._resolveExportValue value _) as [[|? ?]| |];
        simpl; congruence.
    + apply negb_false_iff in H. rewrite H. revert H.
      unfold ExportTarget._resolveFor.
      destruct (ExportTarget._resolveExportValue value _); simpl;
        congruence.
  - intros [= <-]. simpl. repeat split. left. auto.
Qed.

(** X6.  What a constructed target guarantees.  Every field that is
    set holds a path string of the tree.  The [default] field is
    missing only when the tree is Blocked for the priority list, and
    then no other field holds a non-empty path: a target that has any
    usable path has a [default]. *)
Theorem constructed_target_invariants
    (value : ExportValue) (options : ExportTargetOptions)
    (this : ExportTarget.t) :
  ExportTarget.new value options = Normal this ->
  (forall path,
     ExportTarget.default this = Some path \/
     ExportTarget.import this = Some path \/
     ExportTarget.require this = Some path \/
     ExportTarget.types this = Some path ->
     path ∈ leaves value) /\
  (ExportTarget.default this = None ->
   ExportTarget._resolveExportValue value
     (ExportTarget.conditionPriorityOf options) = RBlocked /\
   falsy (ExportTarget.import this) = true /\
   falsy (ExportTarget.require this) = true /\
   falsy (ExportTarget.types this) = true).
Proof.
  intros Hnew. apply new_Normal_inv in Hnew. cbv zeta in Hnew.
  destruct Hnew as (Hi & Hr & Ht & _ & _ & _ & Hd). split.
  - intros path Hfield. rewrite Hi, Hr, Ht in Hfield.
    destruct Hd as [[_ Hd]|(_ & Hd & _)]; rewrite Hd in Hfield.
    + apply (precomputed_fields_are_leaves value options). exact Hfield.
    + destruct Hfield as [Hfield|Hfield].
      * apply target_resolveFor_leaf in Hfield.
        exact (proj1 (resolved_path_is_a_leaf_aux value _) path Hfield).
      * apply (precomputed_fields_are_leaves value options). auto.
  - intros Hdefault. rewrite Hi, Hr, Ht.
    destruct Hd as [[Hfalsy Hd]|(Hfalsy & Hd & Hblocked)].
    + exfalso. rewrite Hd in Hdefault. revert Hfalsy Hdefault.
      unfold ExportTarget.allFalsy, ExportTarget.precomputed. cbv zeta. simpl.
      intros Hfalsy Hnone.
      apply nullish_None in Hnone as [H1 Hnone].
      apply nullish_None in Hnone as [H2 Hnone].
      apply nullish_None in Hnone as [H3 H4].
      rewrite H1, H2, H3, H4 in Hfalsy. discriminate Hfalsy.
    + rewrite Hdefault in Hblocked. simpl in Hblocked.
      unfold ExportTarget.allFalsy in Hfalsy.
      rewrite !andb_true_iff in Hfalsy. split; [|tauto].
      revert Hblocked. unfold ExportTarget._resolveFor.
      destruct (ExportTarget._resolveExportValue value _); simpl;
        congruence.
Qed.

Lemma constructed_target_invariants_witness :
  match ExportTarget.new
          (Conditional [("import", Leaf "./a.mjs"); ("node", Blocked)])
          noOptions with
  | Normal this =>
      ExportTarget.default this = Some "./a.mjs" /\
      "./a.mjs"
      ∈ leaves (Conditional [("import", Leaf "./a.mjs"); ("node", Blocked)])
  | Throw _ => False
  end.
Proof.
  destruct (ExportTarget.new _ noOptions) as [this|e] eqn:Hnew.
  - assert (ExportTarget.default this = Some "./a.mjs") as Hdefault
      by (vm_compute in Hnew; injection Hnew as <-; reflexivity).
    split; [exact Hdefault|].
    apply (proj1 (constructed_target_invariants _ _ _ Hnew)).
    left. exact Hdefault.
  - vm_compute in Hnew. discriminate Hnew.
Defined.

(** X7.  The precomputed fields agree with [resolve]: on a constructed
    target, [import], [require] and [types] are what [resolve] returns
    for the stored condition set of that name, and a non-empty path
    that [resolve] returns for the stored [default] set is the
    [default] field. *)
Theorem fields_agree_with_resolve
    (value : ExportValue) (options : ExportTargetOptions)
    (this : ExportTarget.t) :
  ExportTarget.new value options = Normal this ->
  ExportTarget.import this
  = ExportTarget.resolve this
      (ConditionSets.import (ExportTarget._conditionSets this)) /\
  ExportTarget.require this
  = ExportTarget.resolve this
      (ConditionSets.require (ExportTarget._conditionSets this)) /\
  ExportTarget.types this
  = ExportTarget.resolve this
      (ConditionSets.types (ExportTarget._conditionSets this)) /\
  (forall path,
     path <> "" ->
     ExportTarget.resolve this
       (ConditionSets.default (ExportTarget._conditionSets this))
     = Some path ->
     ExportTarget.default this = Some path).
Proof.
  intros Hnew. apply new_Normal_inv in Hnew. cbv zeta in Hnew.
  destruct Hnew as (Hi & Hr & Ht & Htarget & _ & Hsets & Hd).
  assert (forall conditions,
            ExportTarget.resolve this
              (ExportTarget._normalizeConditions conditions)
            = ResolveResult.target
                (ExportTarget._resolveFor value
                   (ExportTarget._normalizeConditions conditions)))
    as Hresolve.
  { intros conditions. unfold ExportTarget.resolve.
    rewrite Htarget, !_normalizeConditions_normalized, normalized_idempotent.
    unfold ExportTarget._resolveFor.
    destruct (ExportTarget._resolveExportValue value _); reflexivity. }
  rewrite Hi, Hr, Ht, Hsets. unfold ExportTarget.conditionSetsOf. simpl.
  rewrite !Hresolve. repeat split.
  intros path Hpath Hdefault.
  destruct Hd as [[_ Hd]|(Hfalsy & _)].
  - rewrite Hd. unfold ExportTarget.precomputed. cbv zeta. simpl.
    unfold ExportTarget.conditionSetsOf. simpl.
    rewrite Hdefault. reflexivity.
  - exfalso. revert Hfalsy.
    unfold ExportTarget.allFalsy, ExportTarget.precomputed. cbv zeta. simpl.
    unfold ExportTarget.conditionSetsOf. simpl. rewrite Hdefault. simpl.
    destruct path; [contradiction|discriminate].
Qed.

Lemma fields_agree_with_resolve_witness :
  match ExportTarget.new
          (Conditional [("import", Leaf "./a.mjs"); ("node", Blocked)])
          noOptions with
  | Normal this =>
      ExportTarget.require this
      = ExportTarget.resolve this
          (ConditionSets.require (ExportTarget._conditionSets this))
  | Throw _ => False
  end.
Proof.
  destruct (ExportTarget.new _ noOptions) as [this|e] eqn:Hnew.
  - exact (proj1 (proj2 (fields_agree_with_resolve _ _ _ Hnew))).
  - vm_compute in Hnew. discriminate Hnew.
Defined.

(** X8.  A string target gives every field that string, whatever the
    options, and [resolve] returns it for every condition list; only
    the empty string is rejected, for which the constructor throws. *)
Theorem string_target_fills_every_field
    (path : string) (options : ExportTargetOptions) :
  (path <> "" ->
   exists this,
     ExportTarget.new (Leaf path) options = Normal this /\
     ExportTarget.default this = Some path /\
     ExportTarget.import this = Some path /\
     ExportTarget.require this = Some path /\
     ExportTarget.types this = Some path /\
     forall conditions, ExportTarget.resolve this conditions = Some path) /\
  (path = "" ->
   ExportTarget.new (Leaf path) options = Throw (InvalidExportTarget (Leaf ""))).
Proof.
  split.
  - intros Hpath. destruct path as [|c path]; [contradiction|].
    eexists. split; [reflexivity|]. repeat split.
  - intros ->. reflexivity.
Qed.

Lemma string_target_fills_every_field_witness :
  exists this,
    ExportTarget.new (Leaf "./dist/index.js") noOptions = Normal this /\
    ExportTarget.types this = Some "./dist/index.js".
Proof.
  destruct (proj1 (string_target_fills_every_field "./dist/index.js" noOptions)
              ltac:(discriminate))
    as (this & Hnew & _ & _ & _ & Htypes & _).
  exists this. split; [exact Hnew|exact Htypes].
Defined.

(** ** Laws of arrays and of the [default] key *)

Lemma array_loop_app resolve first second blocked :
  ExportTarget.array_loop resolve (first ++ second) blocked
  = match ExportTarget.array_loop resolve first blocked with
    | RLeaf path => RLeaf path
    | RBlocked => ExportTarget.array_loop resolve second true
    | RAbsent => ExportTarget.array_loop resolve second false
    end.
Proof.
  revert blocked. induction first as [|e first IH]; intros blocked; simpl.
  - destruct blocked; reflexivity.
  - destruct (resolve e); [reflexivity|apply IH|apply IH].
Qed.

Lemma array_loop_true resolve entries :
  ExportTarget.array_loop resolve entries true
  = match ExportTarget.array_loop resolve entries false with
    | RLeaf path => RLeaf path
    | _ => RBlocked
    end.
Proof.
  induction entries as [|e entries IH]; simpl; [reflexivity|].
  destruct (resolve e); [reflexivity| |exact IH].
  rewrite IH.
  destruct (ExportTarget.array_loop resolve entries false); reflexivity.
Qed.

(** X9.  Arrays nest without effect: an array inside an array resolves
    as if its elements were written in its place, and an array of one
    element resolves as that element. *)
Theorem nested_array_flattens
    (before inner after : list ExportValue) (value : ExportValue)
    (conditions : list string) :
  ExportTarget._resolveExportValue (List (before ++ List inner :: after))
    conditions
  = ExportTarget._resolveExportValue (List (before ++ inner ++ after))
      conditions /\
  ExportTarget._resolveExportValue (List [value]) conditions
  = ExportTarget._resolveExportValue value conditions.
Proof.
  split.
  - simpl. rewrite !array_loop_app.
    set (resolve := fun entry => ExportTarget._resolveExportValue entry _).
    assert (forall blocked,
              ExportTarget.array_loop resolve (List inner :: after) blocked
              = match ExportTarget.array_loop resolve inner blocked with
                | RLeaf path => RLeaf path
                | RBlocked => ExportTarget.array_loop resolve after true
                | RAbsent => ExportTarget.array_loop resolve after false
                end) as Hinner.
    { intros blocked. simpl. fold (resolve (List inner)).
      change (resolve (List inner))
        with (ExportTarget.array_loop resolve inner false).
      destruct blocked; [|destruct (ExportTarget.array_loop _ _ _);
                          reflexivity].
      rewrite (array_loop_true resolve inner).
      destruct (ExportTarget.array_loop resolve inner false); reflexivity. }
    rewrite !Hinner. reflexivity.
  - simpl.
    destruct (ExportTarget._resolveExportValue value conditions); reflexivity.
Qed.

Lemma condition_loop_default resolve v conditions :
  "default" ∈ conditions ->
  ExportTarget.condition_loop resolve [("default", v)] conditions = resolve v.
Proof.
  intros Hdefault.
  assert (forall c, outcome resolve [("default", v)] c
                    = if String.eqb "default" c then resolve v else RAbsent)
    as Houtcome by (intros c; unfold outcome; cbn [get];
                    destruct (String.eqb "default" c); reflexivity).
  destruct (resolve v) eqn:Hv.
  - apply list_elem_of_split_l in Hdefault as (l1 & l2 & -> & Hl1).
    rewrite condition_loop_first.
    + rewrite Houtcome, String.eqb_refl. reflexivity.
    + apply Forall_forall. intros c Hc. rewrite Houtcome.
      destruct (String.eqb_spec "default" c) as [<-|_];
        [contradiction|reflexivity].
    + rewrite Houtcome, String.eqb_refl. discriminate.
  - apply list_elem_of_split_l in Hdefault as (l1 & l2 & -> & Hl1).
    rewrite condition_loop_first.
    + rewrite Houtcome, String.eqb_refl. reflexivity.
    + apply Forall_forall. intros c Hc. rewrite Houtcome.
      destruct (String.eqb_spec "default" c) as [<-|_];
        [contradiction|reflexivity].
    + rewrite Houtcome, String.eqb_refl. discriminate.
  - apply condition_loop_none, Forall_forall. intros c _.
    rewrite Houtcome. destruct (String.eqb "default" c); reflexivity.
Qed.

(** Two values that resolve alike under every list that contains
    [default] construct alike and answer [resolve] alike. *)
Lemma new_same_resolution_with_default a b options :
  (forall conditions, "default" ∈ conditions ->
     ExportTarget._resolveExportValue a conditions
     = ExportTarget._resolveExportValue b conditions) ->
  match ExportTarget.new a options, ExportTarget.new b options with
  | Normal ta, Normal tb =>
      ExportTarget.default ta = ExportTarget.default tb /\
      ExportTarget.import ta = ExportTarget.import tb /\
      ExportTarget.require ta = ExportTarget.require tb /\
      ExportTarget.types ta = ExportTarget.types tb /\
      forall conditions,
        ExportTarget.resolve ta conditions = ExportTarget.resolve tb conditions
  | Throw _, Throw _ => True
  | _, _ => False
  end.
Proof.
  intros Hsame.
  assert (forall conditions,
            ExportTarget._resolveFor a
              (ExportTarget._normalizeConditions conditions)
            = ExportTarget._resolveFor b
                (ExportTarget._normalizeConditions conditions)) as HresolveFor.
  { intros conditions. unfold ExportTarget._resolveFor.
    rewrite Hsame; [reflexivity|].
    apply _normalizeConditions_elem_of. right. reflexivity. }
  assert (ExportTarget.precomputed a options
          = ExportTarget.precomputed b options) as Hfields
    by (unfold ExportTarget.precomputed, ExportTarget.conditionSetsOf;
        cbv zeta; simpl; rewrite !HresolveFor; reflexivity).
  assert (ExportTarget._resolveFor a (ExportTarget.conditionPriorityOf options)
          = ExportTarget._resolveFor b
              (ExportTarget.conditionPriorityOf options)) as Hfallback
    by exact (HresolveFor _).
  unfold ExportTarget.new. cbv zeta. rewrite Hfields, Hfallback.
  unfold ExportTarget.resolve.
  destruct (ExportTarget.allFalsy _);
    [destruct (falsy _ && negb _); [exact I|]|];
    simpl; repeat split; intros conditions; rewrite HresolveFor; reflexivity.
Qed.

(** X10.  A [default] key alone is transparent: the object
    [{ default: v }] resolves as [v] does under every condition list
    that contains [default], so the constructor, all of whose lists
    contain it, builds the same fields from both (or throws for both),
    and [resolve] answers alike on the two targets. *)
Theorem default_key_is_transparent
    (value : ExportValue) (conditions : list string)
    (options : ExportTargetOptions) :
  ("default" ∈ conditions ->
   ExportTarget._resolveExportValue (Conditional [("default", value)])
     conditions
   = ExportTarget._resolveExportValue value conditions) /\
  match ExportTarget.new (Conditional [("default", value)]) options,
        ExportTarget.new value options with
  | Normal wrapped, Normal bare =>
      ExportTarget.default wrapped = ExportTarget.default bare /\
      ExportTarget.import wrapped = ExportTarget.import bare /\
      ExportTarget.require wrapped = ExportTarget.require bare /\
      ExportTarget.types wrapped = ExportTarget.types bare /\
      forall cs,
        ExportTarget.resolve wrapped cs = ExportTarget.resolve bare cs
  | Throw _, Throw _ => True
  | _, _ => False
  end.
Proof.
  split.
  - intros Hdefault. simpl. apply condition_loop_default, Hdefault.
  - apply new_same_resolution_with_default. intros cs Hdefault.
    simpl. apply condition_loop_default, Hdefault.
Qed.

Lemma default_key_is_transparent_witness :
  ExportTarget._resolveExportValue
    (Conditional [("default", List [Blocked; Leaf "./a.js"])])
    ["node"; "default"]
  = RLeaf "./a.js".
Proof.
  rewrite (proj1 (default_key_is_transparent (List [Blocked; Leaf "./a.js"])
                    ["node"; "default"] noOptions)).
  - reflexivity.
  - right. left.
Defined.

(** ** Substitution over a tree *)

Lemma hasOwnProperty_elem_of {V : Type} (o : object V) key :
  hasOwnProperty o key = false <-> key ∉ o.*1.
Proof.
  rewrite hasOwnProperty_false. split.
  - intros Hget Hin. apply list_elem_of_fmap in Hin as ([k v] & -> & Hin).
    induction o as [|[k' v'] o IH]; [inversion Hin|].
    simpl in Hget. destruct (String.eqb_spec k' k) as [->|Hne];
      [discriminate|].
    apply elem_of_cons in Hin as [[= -> ->]|Hin]; [contradiction|auto].
  - apply get_not_key.
Qed.

Lemma assign_fresh {V : Type} (o : object V) key (v : V) :
  key <> "__proto__" -> key ∉ o.*1 -> assign o key v = o ++ [(key, v)].
Proof.
  intros Hproto%String.eqb_neq.
  induction o as [|[k w] o IH]; intros Hfresh; simpl; rewrite Hproto.
  - reflexivity.
  - simpl in Hfresh. apply not_elem_of_cons in Hfresh as [Hne Hfresh].
    destruct (String.eqb_spec k key) as [->|_]; [contradiction|].
    f_equal. apply IH, Hfresh.
Qed.

(** Filling an empty object from entries with distinct keys, none of
    them [__proto__], gives the entries in their order. *)
Lemma fold_assign_plain {V W : Type} (g : V -> W) (entries : object V)
    (substituted : object W) :
  NoDup (substituted.*1 ++ entries.*1) ->
  "__proto__" ∉ entries.*1 ->
  fold_left (fun o '(key, v) => assign o key (g v)) entries substituted
  = substituted ++ map (fun '(key, v) => (key, g v)) entries.
Proof.
  revert substituted.
  induction entries as [|[k v] entries IH]; intros substituted Hnd Hproto.
  - simpl. rewrite app_nil_r. reflexivity.
  - simpl in *. apply not_elem_of_cons in Hproto as [Hk Hproto].
    rewrite assign_fresh.
    + rewrite IH.
      * rewrite <- app_assoc. reflexivity.
      * rewrite fmap_app. simpl. rewrite <- app_assoc. exact Hnd.
      * exact Hproto.
    + congruence.
    + apply NoDup_app in Hnd as (_ & Hdisjoint & _).
      intros Hin. apply (Hdisjoint k Hin). left.
Qed.

Lemma forallb_elem_of {A : Type} (f : A -> bool) (l : list A) x :
  forallb f l = true -> x ∈ l -> f x = true.
Proof.
  intros Hall Hx. rewrite forallb_forall in Hall.
  apply Hall, list_elem_of_In, Hx.
Qed.

Lemma substitute_mapLeaves value captures :
  plainObjects value = true ->
  GlobResolver._substituteExportValue value captures
  = mapLeaves (fun path => GlobResolver._replaceWildcards path captures) value.
Proof.
  induction value as [p| |entries IH|entries IH]
    using ExportValue_nested_ind; intros Hplain.
  - reflexivity.
  - reflexivity.
  - simpl in *. f_equal. apply map_ext_in. intros e He.
    apply list_elem_of_In in He. rewrite Forall_forall in IH.
    apply (IH e He), (forallb_elem_of _ _ _ Hplain He).
  - simpl in *. rewrite !andb_true_iff in Hplain.
    destruct Hplain as [[Hnd Hproto] Hchildren].
    apply bool_decide_eq_true in Hnd. apply negb_true_iff in Hproto.
    rewrite (fold_assign_plain
               (fun v => GlobResolver._substituteExportValue v captures)).
    + simpl. f_equal. apply map_ext_in. intros [k v] Hkv.
      apply list_elem_of_In in Hkv. rewrite Forall_forall in IH.
      f_equal. apply (IH (k, v) Hkv).
      exact (forallb_elem_of _ _ _ Hchildren Hkv).
    + exact Hnd.
    + apply hasOwnProperty_elem_of, Hproto.
Qed.

(** X11.  Substitution keeps the shape of the tree: in a tree whose
    objects are plain, it rewrites the path strings with
    [_replaceWildcards] and leaves [null]s, arrays, keys and their
    order as they are.  An own key [__proto__] is the exception: the
    assignment that copies it creates no property, and the key is
    lost. *)
Theorem substitution_keeps_shape
    (value : ExportValue) (captures : list string) :
  (plainObjects value = true ->
   GlobResolver._substituteExportValue value captures
   = mapLeaves (fun path => GlobResolver._replaceWildcards path captures)
       value) /\
  GlobResolver._substituteExportValue (Conditional [("__proto__", value)])
    captures
  = Conditional [].
Proof.
  split; [apply substitute_mapLeaves|].
  reflexivity.
Qed.

Lemma substitution_keeps_shape_witness :
  GlobResolver._substituteExportValue
    (Conditional [("import", List [Blocked; Leaf "./esm/*.mjs"]);
                  ("default", Leaf "./cjs/*.js")]) ["button"]
  = Conditional [("import", List [Blocked; Leaf "./esm/button.mjs"]);
                 ("default", Leaf "./cjs/button.js")].
Proof.
  rewrite (proj1 (substitution_keeps_shape _ ["button"])).
  - vm_compute. reflexivity.
  - vm_compute. reflexivity.
Defined.

Lemma array_loop_map f resolve resolve' g entries blocked :
  Forall (fun e => resolve' (g e) = mapResolved f (resolve e)) entries ->
  ExportTarget.array_loop resolve' (map g entries) blocked
  = mapResolved f (ExportTarget.array_loop resolve entries blocked).
Proof.
  intros Hentries. revert blocked.
  induction Hentries as [|e entries He _ IH]; intros blocked; simpl.
  - destruct blocked; reflexivity.
  - rewrite He. destruct (resolve e); simpl; [reflexivity|apply IH|apply IH].
Qed.

Lemma get_map_values {V W : Type} (g : V -> W) (o : object V) key :
  get (map (fun '(k, v) => (k, g v)) o) key = g <$> get o key.
Proof.
  induction o as [|[k v] o IH]; simpl; [reflexivity|].
  destruct (String.eqb k key); [reflexivity|exact IH].
Qed.

Lemma condition_loop_map f resolve resolve' g value conditions :
  Forall (fun kv => resolve' (g kv.2) = mapResolved f (resolve kv.2)) value ->
  ExportTarget.condition_loop resolve'
    (map (fun '(k, v) => (k, g v)) value) conditions
  = mapResolved f (ExportTarget.condition_loop resolve value conditions).
Proof.
  intros Hvalue. rewrite Forall_forall in Hvalue.
  induction conditions as [|c conditions IH]; [reflexivity|].
  rewrite !condition_loop_cons. unfold outcome.
  rewrite get_map_values.
  destruct (get value c) as [v|] eqn:Hget; simpl; [|exact IH].
  pose proof (Hvalue (c, v) (get_elem_of _ _ _ Hget)) as Hv. simpl in Hv.
  rewrite Hv.
  destruct (resolve v); simpl; [reflexivity|reflexivity|exact IH].
Qed.

(** Resolution does not look into the path strings: rewriting them
    before resolving, or rewriting the result, is the same. *)
Lemma resolve_mapLeaves f value conditions :
  ExportTarget._resolveExportValue (mapLeaves f value) conditions
  = mapResolved f (ExportTarget._resolveExportValue value conditions).
Proof.
  induction value as [p| |entries IH|entries IH]
    using ExportValue_nested_ind.
  - reflexivity.
  - reflexivity.
  - simpl. apply array_loop_map. exact IH.
  - simpl. apply condition_loop_map. exact IH.
Qed.

(** X12.  Substitution and resolution commute.  For a tree with plain
    objects, resolving the substituted tree gives what resolving the
    original tree gives, with the captures put into the one path that
    was selected: the choice of the path never depends on the
    captures. *)
Theorem substitution_commutes_with_resolution
    (value : ExportValue) (captures conditions : list string) :
  plainObjects value = true ->
  ExportTarget._resolveExportValue
    (GlobResolver._substituteExportValue value captures) conditions
  = mapResolved (fun path => GlobResolver._replaceWildcards path captures)
      (ExportTarget._resolveExportValue value conditions).
Proof.
  intros Hplain. rewrite (substitute_mapLeaves _ _ Hplain).
  apply resolve_mapLeaves.
Qed.

Lemma substitution_commutes_with_resolution_witness :
  ExportTarget._resolveExportValue
    (GlobResolver._substituteExportValue
       (Conditional [("import", List [Blocked; Leaf "./esm/*.mjs"]);
                     ("default", Leaf "./cjs/*.js")]) ["button"])
    ["import"; "default"]
  = RLeaf "./esm/button.mjs".
Proof.
  rewrite substitution_commutes_with_resolution.
  - vm_compute. reflexivity.
  - vm_compute. reflexivity.
Defined.

(** ** Strings and global replacement *)

Lemma append_cons c (a b : string) : String c a +:+ b = String c (a +:+ b).
Proof. reflexivity. Qed.

Lemma append_empty_l (b : string) : "" +:+ b = b.
Proof. reflexivity. Qed.

Lemma append_empty_r (s : string) : s +:+ "" = s.
Proof.
  induction s as [|c s IH]; [reflexivity|].
  rewrite append_cons, IH. reflexivity.
Qed.

Lemma append_assoc (a b c : string) : (a +:+ b) +:+ c = a +:+ (b +:+ c).
Proof.
  induction a as [|d a IH]; [reflexivity|].
  rewrite !append_cons, IH. reflexivity.
Qed.

Lemma includes_cons s needle c :
  includes (String c s) needle
  = startsWith needle (String c s) || includes s needle.
Proof. reflexivity. Qed.

Lemma includes_char_cons c d s :
  includes (String d s) (String c "")
  = Ascii.eqb c d || includes s (String c "").
Proof. rewrite includes_cons. simpl. rewrite andb_true_r. reflexivity. Qed.

Lemma includes_char_app c a b :
  includes (a +:+ b) (String c "")
  = includes a (String c "") || includes b (String c "").
Proof.
  induction a as [|d a IH].
  - rewrite append_empty_l. reflexivity.
  - rewrite append_cons, !includes_char_cons, IH, orb_assoc. reflexivity.
Qed.

Lemma replaceWith_cons {St : Type} needle (fn : St -> string * St) st c s :
  replaceWith needle fn O st (String c s)
  = if startsWith needle (String c s) then
      let '(r, st1) := fn st in
      let '(out, st2) :=
        replaceWith needle fn (String.length needle - 1) st1 s in
      (r +:+ out, st2)
    else
      let '(out, st1) := replaceWith needle fn O st s in
      (String c out, st1).
Proof. reflexivity. Qed.

Lemma replaceWith_skip {St : Type} needle (fn : St -> string * St) k st c s :
  replaceWith needle fn (S k) st (String c s) = replaceWith needle fn k st s.
Proof. reflexivity. Qed.

(** A string that lacks the first character of the needle is copied by
    the replacement, and the scan goes on behind it. *)
Lemma replaceWith_skip_prefix {St : Type} c needle (fn : St -> string * St)
    st a b :
  includes a (String c "") = false ->
  replaceWith (String c needle) fn O st (a +:+ b)
  = (a +:+ fst (replaceWith (String c needle) fn O st b),
     snd (replaceWith (String c needle) fn O st b)).
Proof.
  induction a as [|d a IH]; intros Hnone.
  - rewrite !append_empty_l. destruct (replaceWith _ fn O st b); reflexivity.
  - rewrite includes_char_cons in Hnone.
    apply orb_false_iff in Hnone as [Hd Ha].
    rewrite append_cons.
    cbn [replaceWith]. cbn [startsWith]. rewrite Hd. simpl andb. cbv iota.
    rewrite (IH Ha). reflexivity.
Qed.

Lemma replaceWith_absent {St : Type} c needle (fn : St -> string * St) st s :
  includes s (String c "") = false ->
  replaceWith (String c needle) fn O st s = (s, st).
Proof.
  intros Hnone. rewrite <- (append_empty_r s) at 1.
  rewrite (replaceWith_skip_prefix _ _ _ _ _ _ Hnone). simpl.
  rewrite append_empty_r. reflexivity.
Qed.

Lemma replaceAll_skip_prefix c needle replacement a b :
  includes a (String c "") = false ->
  replaceAll (String c needle) replacement (a +:+ b)
  = a +:+ replaceAll (String c needle) replacement b.
Proof.
  intros Hnone. unfold replaceAll.
  rewrite (replaceWith_skip_prefix _ _ _ _ _ _ Hnone). reflexivity.
Qed.

Lemma replaceAll_absent c needle replacement s :
  includes s (String c "") = false ->
  replaceAll (String c needle) replacement s = s.
Proof.
  intros Hnone. unfold replaceAll.
  rewrite (replaceWith_absent _ _ _ _ _ Hnone). reflexivity.
Qed.

(** Once the captures are used up, the two passes of
    [_replaceWildcards] put every marker back. *)
Lemma replaceWith_single_exhausted captures captureIndex s :
  length captures <= captureIndex ->
  replaceWith "*" (GlobResolver.nextCapture captures "*") O captureIndex s
  = (s, captureIndex).
Proof.
  intros Hused. induction s as [|c s IH]; [reflexivity|].
  rewrite replaceWith_cons.
  change (startsWith "*" (String c s)) with (Ascii.eqb "*" c && true).
  rewrite andb_true_r. unfold GlobResolver.nextCapture at 1.
  rewrite bool_decide_eq_false_2 by lia.
  change (String.length "*" - 1) with O.
  rewrite IH. destruct (Ascii.eqb_spec "*" c) as [<-|_]; reflexivity.
Qed.

Lemma replaceWith_double_exhausted captures captureIndex s :
  length captures <= captureIndex ->
  replaceWith "**" (GlobResolver.nextCapture captures "**") O captureIndex s
  = (s, captureIndex).
Proof.
  intros Hused.
  assert (forall s,
            replaceWith "**" (GlobResolver.nextCapture captures "**") O
              captureIndex s = (s, captureIndex) /\
            forall c,
              replaceWith "**" (GlobResolver.nextCapture captures "**") O
                captureIndex (String c s) = (String c s, captureIndex))
    as Hboth; [|apply Hboth].
  clear s. induction s as [|d s [IH1 IH2]].
  - split; [reflexivity|]. intros c. cbn [replaceWith startsWith].
    rewrite andb_false_r. reflexivity.
  - split; [apply IH2|]. intros c.
    rewrite replaceWith_cons.
    change (startsWith "**" (String c (String d s)))
      with (Ascii.eqb "*" c && (Ascii.eqb "*" d && true)).
    rewrite andb_true_r. unfold GlobResolver.nextCapture at 1.
    rewrite bool_decide_eq_false_2 by lia.
    change (String.length "**" - 1) with 1.
    rewrite replaceWith_skip, (IH2 d), IH1.
    destruct (Ascii.eqb_spec "*" c) as [<-|_]; [|reflexivity].
    destruct (Ascii.eqb_spec "*" d) as [<-|_]; reflexivity.
Qed.

Lemma _replaceWildcards_exhausted leaf :
  GlobResolver._replaceWildcards leaf [] = leaf.
Proof.
  unfold GlobResolver._replaceWildcards.
  rewrite replaceWith_double_exhausted by (simpl; lia).
  rewrite replaceWith_single_exhausted by (simpl; lia). reflexivity.
Qed.

Lemma includes_first c needle s :
  includes s (String c "") = false -> includes s (String c needle) = false.
Proof.
  induction s as [|d s IH]; [reflexivity|].
  rewrite includes_char_cons, includes_cons. intros [Hd Hs]%orb_false_iff.
  rewrite (IH Hs), orb_false_r. cbn [startsWith]. rewrite Hd. reflexivity.
Qed.

Lemma _replaceWildcards_no_asterisk leaf captures :
  includes leaf "*" = false ->
  GlobResolver._replaceWildcards leaf captures = leaf.
Proof.
  intros Hnone. unfold GlobResolver._replaceWildcards.
  rewrite (replaceWith_absent _ _ _ _ _ Hnone).
  rewrite (replaceWith_absent _ _ _ _ _ Hnone). reflexivity.
Qed.

Lemma mapLeaves_id f value :
  (forall path, f path = path) -> mapLeaves f value = value.
Proof.
  intros Hf. induction value as [p| |entries IH|entries IH]
    using ExportValue_nested_ind; simpl.
  - rewrite Hf. reflexivity.
  - reflexivity.
  - f_equal. rewrite <- (map_id entries) at 2. apply map_ext_in.
    intros e He. rewrite Forall_forall in IH.
    apply IH, list_elem_of_In, He.
  - f_equal. rewrite <- (map_id entries) at 2. apply map_ext_in.
    intros [k v] Hkv. rewrite Forall_forall in IH. f_equal.
    apply (IH (k, v)), list_elem_of_In, Hkv.
Qed.

(** X13.  No accidental substitution: a leaf without an asterisk is
    returned unchanged whatever the captures, every leaf is returned
    unchanged when there are no captures (its asterisks stay), and with
    no captures a tree with plain objects is returned as it is. *)
Theorem substitution_without_effect
    (leaf : string) (captures : list string) (value : ExportValue) :
  (includes leaf "*" = false ->
   GlobResolver._replaceWildcards leaf captures = leaf) /\
  GlobResolver._replaceWildcards leaf [] = leaf /\
  (plainObjects value = true ->
   GlobResolver._substituteExportValue value [] = value).
Proof.
  split; [apply _replaceWildcards_no_asterisk|].
  split; [apply _replaceWildcards_exhausted|].
  intros Hplain. rewrite (substitute_mapLeaves _ _ Hplain).
  apply mapLeaves_id, _replaceWildcards_exhausted.
Qed.

Lemma substitution_without_effect_witness :
  GlobResolver._replaceWildcards "./dist/index.js" ["button"; "x"]
  = "./dist/index.js".
Proof.
  apply (proj1 (substitution_without_effect "./dist/index.js"
                  ["button"; "x"] Blocked)).
  reflexivity.
Defined.

(** ** The regular expression of a pattern *)

Lemma regexSpecial_syntaxCharacter c :
  GlobResolver.regexSpecial c = true -> RegExp.syntaxCharacter c = true.
Proof.
  destruct c as [[] [] [] [] [] [] [] []]; vm_compute;
    intros; (discriminate || reflexivity).
Qed.

Lemma plain_character c :
  GlobResolver.regexSpecial c = false -> Ascii.eqb "*" c = false ->
  Ascii.eqb c "\" = false /\ Ascii.eqb "(" c = false /\
  Ascii.eqb c "$" = false /\ RegExp.syntaxCharacter c = false.
Proof.
  destruct c as [[] [] [] [] [] [] [] []]; vm_compute;
    intros; (discriminate || auto).
Qed.

Lemma escapeClass_app class a b :
  escapeClass class (a +:+ b) = escapeClass class a +:+ escapeClass class b.
Proof.
  induction a as [|c a IH]; [reflexivity|].
  rewrite append_cons. simpl. rewrite IH.
  destruct (class c); reflexivity.
Qed.

(** Escaping adds backslashes only. *)
Lemma escapeClass_includes class c s :
  Ascii.eqb c "\" = false ->
  includes s (String c "") = false ->
  includes (escapeClass class s) (String c "") = false.
Proof.
  intros Hc. induction s as [|d s IH]; [reflexivity|].
  rewrite includes_char_cons. intros [Hd Hs]%orb_false_iff. simpl.
  destruct (class d); rewrite !includes_char_cons, ?Hc, Hd, (IH Hs);
    reflexivity.
Qed.

Lemma parse_cons escaped c rest :
  RegExp.parse escaped O (String c rest)
  = if escaped then
      if RegExp.syntaxCharacter c then
        cons (RegExp.Char c) <$> RegExp.parse false O rest
      else None
    else if Ascii.eqb c "\" then RegExp.parse true O rest
    else if startsWith "([^/]*)" (String c rest) then
      cons RegExp.GroupSegment <$> RegExp.parse false 6 rest
    else if startsWith "(.*)" (String c rest) then
      cons RegExp.GroupAny <$> RegExp.parse false 3 rest
    else if Ascii.eqb c "$" then
      match rest with
      | "" => Some []
      | String _ _ => None
      end
    else if RegExp.syntaxCharacter c then None
    else cons (RegExp.Char c) <$> RegExp.parse false O rest.
Proof. reflexivity. Qed.

(** The escaped text of a string without asterisk is read back as that
    string, character by character. *)
Lemma parse_literal pre rest :
  includes pre "*" = false ->
  RegExp.parse false O (escapeClass GlobResolver.regexSpecial pre +:+ rest)
  = app (literal pre) <$> RegExp.parse false O rest.
Proof.
  induction pre as [|c pre IH].
  - intros _. rewrite append_empty_l.
    destruct (RegExp.parse false O rest); reflexivity.
  - rewrite includes_char_cons. intros [Hc Hpre]%orb_false_iff.
    specialize (IH Hpre). simpl escapeClass.
    destruct (GlobResolver.regexSpecial c) eqn:Hspecial.
    + rewrite !append_cons, parse_cons. simpl Ascii.eqb. cbv iota.
      rewrite parse_cons, (regexSpecial_syntaxCharacter c Hspecial), IH.
      destruct (RegExp.parse false O rest); reflexivity.
    + destruct (plain_character c Hspecial Hc) as (H1 & H2 & H3 & H4).
      rewrite append_cons, parse_cons, H1.
      cbn [startsWith]. rewrite H2. simpl andb. cbv iota.
      rewrite H3, H4, IH.
      destruct (RegExp.parse false O rest); reflexivity.
Qed.

Lemma exec_literal pre nodes s :
  RegExp.exec (literal pre ++ nodes) (pre +:+ s) = RegExp.exec nodes s.
Proof.
  induction pre as [|c pre IH]; [reflexivity|].
  rewrite append_cons. simpl. rewrite Ascii.eqb_refl. exact IH.
Qed.

Lemma exec_literal_exact suf : RegExp.exec (literal suf) suf = Some [].
Proof.
  pose proof (exec_literal suf [] "") as H.
  rewrite app_nil_r, append_empty_r in H. exact H.
Qed.

Lemma exec_literal_short suf t :
  String.length t < String.length suf -> RegExp.exec (literal suf) t = None.
Proof.
  revert t. induction suf as [|c suf IH]; intros t Hshort; simpl in *;
    [lia|].
  destruct t as [|d t]; [reflexivity|].
  destruct (Ascii.eqb c d); [|reflexivity]. apply IH. simpl in Hshort. lia.
Qed.

Section groups.
Variable group : RegExp.node.
Hypothesis group_is_group :
  group = RegExp.GroupSegment \/ group = RegExp.GroupAny.

Lemma exec_group_nil suf :
  RegExp.exec (group :: literal suf) ""
  = cons "" <$> RegExp.exec (literal suf) "".
Proof. destruct group_is_group as [-> | ->]; reflexivity. Qed.

Lemma exec_group_cons suf d s :
  RegExp.exec (group :: literal suf) (String d s)
  = if RegExp.admits group d s then
      match RegExp.exec (group :: literal suf) s with
      | Some (capture :: captures) => Some (String d capture :: captures)
      | _ => cons "" <$> RegExp.exec (literal suf) (String d s)
      end
    else cons "" <$> RegExp.exec (literal suf) (String d s).
Proof. destruct group_is_group as [-> | ->]; reflexivity. Qed.

Lemma exec_group_short suf t :
  String.length t < String.length suf ->
  RegExp.exec (group :: literal suf) t = None.
Proof.
  induction t as [|d t IH]; intros Hshort.
  - rewrite exec_group_nil, exec_literal_short by exact Hshort. reflexivity.
  - rewrite exec_group_cons, IH by (simpl in Hshort; lia).
    rewrite exec_literal_short by exact Hshort.
    destruct (RegExp.admits group d t); reflexivity.
Qed.

(** A group before literal text captures nothing when the input is
    that text. *)
Lemma exec_group_empty suf :
  RegExp.exec (group :: literal suf) suf = Some [""].
Proof.
  destruct suf as [|d s].
  - rewrite exec_group_nil. reflexivity.
  - rewrite exec_group_cons.
    rewrite exec_group_short by (simpl; lia).
    rewrite exec_literal_exact.
    destruct (RegExp.admits group d s); reflexivity.
Qed.

(** A group followed by literal text captures what stands before that
    text, when the group admits all of it. *)
Lemma exec_group_capture suf x :
  admitsAll group x suf = true ->
  RegExp.exec (group :: literal suf) (x +:+ suf) = Some [x].
Proof.
  induction x as [|d x IH]; intros Hx.
  - rewrite append_empty_l. apply exec_group_empty.
  - cbn [admitsAll] in Hx. apply andb_true_iff in Hx as [Hd Hx].
    rewrite append_cons, exec_group_cons, Hd, (IH Hx). reflexivity.
Qed.
End groups.

Lemma startsWith_app needle b : startsWith needle (needle +:+ b) = true.
Proof.
  induction needle as [|c needle IH]; [reflexivity|].
  rewrite append_cons. cbn [startsWith]. rewrite Ascii.eqb_refl. exact IH.
Qed.

Lemma replaceWith_skip_all {St : Type} needle (fn : St -> string * St)
    x st b :
  replaceWith needle fn (String.length x) st (x +:+ b)
  = replaceWith needle fn O st b.
Proof.
  induction x as [|c x IH]; [reflexivity|].
  rewrite append_cons. simpl String.length. rewrite replaceWith_skip.
  exact IH.
Qed.

(** At an occurrence of the needle the replacement is written and the
    scan goes on behind the occurrence. *)
Lemma replaceWith_here {St : Type} c needle (fn : St -> string * St) st b :
  replaceWith (String c needle) fn O st (String c needle +:+ b)
  = (fst (fn st)
     +:+ fst (replaceWith (String c needle) fn O (snd (fn st)) b),
     snd (replaceWith (String c needle) fn O (snd (fn st)) b)).
Proof.
  rewrite append_cons, replaceWith_cons, <- append_cons, startsWith_app.
  replace (String.length (String c needle) - 1)
    with (String.length needle) by (simpl; lia).
  destruct (fn st) as [r st1]. rewrite replaceWith_skip_all. cbn [fst snd].
  destruct (replaceWith _ fn O st1 b); reflexivity.
Qed.

Lemma replaceAll_here c needle replacement b :
  replaceAll (String c needle) replacement (String c needle +:+ b)
  = replacement +:+ replaceAll (String c needle) replacement b.
Proof. unfold replaceAll. rewrite replaceWith_here. reflexivity. Qed.

Lemma startsWith_absent c needle s :
  includes s (String c "") = false -> startsWith (String c needle) s = false.
Proof.
  destruct s as [|d s]; [reflexivity|].
  rewrite includes_char_cons. intros [Hd _]%orb_false_iff.
  cbn [startsWith]. rewrite Hd. reflexivity.
Qed.

(** A lone asterisk between two texts without asterisk is no double
    asterisk. *)
Lemma replaceAll_double_lone replacement a b :
  includes a "*" = false -> includes b "*" = false ->
  replaceAll "**" replacement (a +:+ "*" +:+ b) = a +:+ "*" +:+ b.
Proof.
  intros Ha Hb. rewrite (replaceAll_skip_prefix _ _ _ _ _ Ha). f_equal.
  unfold replaceAll. change ("*" +:+ b) with (String "*" b).
  rewrite replaceWith_cons.
  replace (startsWith "**" (String "*" b)) with false.
  - rewrite (replaceWith_absent _ _ _ _ _ Hb). reflexivity.
  - change (startsWith "**" (String "*" b)) with (startsWith "*" b).
    symmetry. apply startsWith_absent, Hb.
Qed.

Section globToRegex.
Variables pre suf : string.
Hypothesis pre_asterisk : includes pre "*" = false.
Hypothesis pre_tilde : includes pre "~" = false.
Hypothesis suf_asterisk : includes suf "*" = false.
Hypothesis suf_tilde : includes suf "~" = false.

#[local] Abbreviation escaped := (escapeClass GlobResolver.regexSpecial).

Lemma globToRegex_single :
  GlobResolver._globToRegex (pre +:+ "*" +:+ suf)
  = escaped pre +:+ "([^/]*)" +:+ escaped suf.
Proof.
  unfold GlobResolver._globToRegex. rewrite !escapeClass_app.
  change (escaped "*") with "*".
  pose proof (escapeClass_includes GlobResolver.regexSpecial "*" pre eq_refl
                pre_asterisk) as Hpre.
  pose proof (escapeClass_includes GlobResolver.regexSpecial "*" suf eq_refl
                suf_asterisk) as Hsuf.
  pose proof (escapeClass_includes GlobResolver.regexSpecial "~" pre eq_refl
                pre_tilde) as Hpre'.
  pose proof (escapeClass_includes GlobResolver.regexSpecial "~" suf eq_refl
                suf_tilde) as Hsuf'.
  rewrite (replaceAll_double_lone _ _ _ Hpre Hsuf).
  rewrite (replaceAll_skip_prefix _ _ _ _ _ Hpre).
  change ("*" +:+ escaped suf) with ("*" +:+ escaped suf).
  rewrite (replaceAll_here "*" "" "([^/]*)" (escaped suf)).
  rewrite (replaceAll_absent _ _ _ _ Hsuf).
  apply replaceAll_absent.
  rewrite !includes_char_app, Hpre', Hsuf'. reflexivity.
Qed.

Lemma globToRegex_double :
  GlobResolver._globToRegex (pre +:+ "**" +:+ suf)
  = escaped pre +:+ "(.*)" +:+ escaped suf.
Proof.
  unfold GlobResolver._globToRegex. rewrite !escapeClass_app.
  change (escaped "**") with "**".
  pose proof (escapeClass_includes GlobResolver.regexSpecial "*" pre eq_refl
                pre_asterisk) as Hpre.
  pose proof (escapeClass_includes GlobResolver.regexSpecial "*" suf eq_refl
                suf_asterisk) as Hsuf.
  pose proof (escapeClass_includes GlobResolver.regexSpecial "~" pre eq_refl
                pre_tilde) as Hpre'.
  pose proof (escapeClass_includes GlobResolver.regexSpecial "~" suf eq_refl
                suf_tilde) as Hsuf'.
  rewrite (replaceAll_skip_prefix _ _ _ _ _ Hpre).
  rewrite (replaceAll_here "*" "*" "~~DOUBLESTAR~~" (escaped suf)).
  rewrite (replaceAll_absent "*" "*" _ _ Hsuf).
  rewrite (replaceAll_absent "*" "" "([^/]*)"); cycle 1.
  { rewrite !includes_char_app, Hpre, Hsuf. reflexivity. }
  rewrite (replaceAll_skip_prefix _ _ _ _ _ Hpre').
  rewrite (replaceAll_here "~" "~DOUBLESTAR~~" "(.*)" (escaped suf)).
  rewrite (replaceAll_absent _ _ _ _ Hsuf'). reflexivity.
Qed.

Lemma compile_single :
  RegExp.compile
    ("^" +:+ (escaped pre +:+ "([^/]*)" +:+ escaped suf) +:+ "$")
  = Some (literal pre ++ RegExp.GroupSegment :: literal suf).
Proof.
  change (RegExp.parse false O
            ((escaped pre +:+ "([^/]*)" +:+ escaped suf) +:+ "$")
          = Some (literal pre ++ RegExp.GroupSegment :: literal suf)).
  rewrite !append_assoc, (parse_literal _ _ pre_asterisk).
  change (RegExp.parse false O ("([^/]*)" +:+ escaped suf +:+ "$"))
    with (cons RegExp.GroupSegment
            <$> RegExp.parse false O (escaped suf +:+ "$")).
  rewrite (parse_literal _ _ suf_asterisk). simpl.
  rewrite app_nil_r. reflexivity.
Qed.

Lemma compile_double :
  RegExp.compile ("^" +:+ (escaped pre +:+ "(.*)" +:+ escaped suf) +:+ "$")
  = Some (literal pre ++ RegExp.GroupAny :: literal suf).
Proof.
  change (RegExp.parse false O
            ((escaped pre +:+ "(.*)" +:+ escaped suf) +:+ "$")
          = Some (literal pre ++ RegExp.GroupAny :: literal suf)).
  rewrite !append_assoc, (parse_literal _ _ pre_asterisk).
  change (RegExp.parse false O ("(.*)" +:+ escaped suf +:+ "$"))
    with (cons RegExp.GroupAny
            <$> RegExp.parse false O (escaped suf +:+ "$")).
  rewrite (parse_literal _ _ suf_asterisk). simpl.
  rewrite app_nil_r. reflexivity.
Qed.
End globToRegex.

Lemma admitsAll_segment x suf :
  admitsAll RegExp.GroupSegment x suf = negb (includes x "/").
Proof.
  induction x as [|d x IH]; [reflexivity|].
  rewrite includes_char_cons. cbn [admitsAll RegExp.admits].
  rewrite IH, negb_orb, (Ascii.eqb_sym d). reflexivity.
Qed.

Lemma startsWith_cons a needle b s :
  startsWith (String a needle) (String b s)
  = Ascii.eqb a b && startsWith needle s.
Proof. reflexivity. Qed.

Lemma startsWith_empty a needle : startsWith (String a needle) "" = false.
Proof. reflexivity. Qed.

(** A text that starts at a character boundary does not start with a
    continuation byte. *)
Lemma startsWith_continuation c needle s :
  continuation c = true -> startsOnCharacter s = true ->
  startsWith (String c needle) s = false.
Proof.
  intros Hc Hs. destruct s as [|d s]; [reflexivity|].
  rewrite startsWith_cons.
  destruct (Ascii.eqb_spec c d) as [<-|]; [|reflexivity].
  simpl in Hs. rewrite Hc in Hs. discriminate Hs.
Qed.

(** Whether a separator of three bytes starts at the head of a text is
    decided within the text, when what follows it starts at a
    character boundary. *)
Lemma startsWith_separator_app c0 c1 c2 x suf :
  continuation c1 = true -> continuation c2 = true ->
  startsOnCharacter suf = true ->
  startsWith (String c0 (String c1 (String c2 ""))) (x +:+ suf)
  = startsWith (String c0 (String c1 (String c2 ""))) x
    || (String.eqb x ""
        && startsWith (String c0 (String c1 (String c2 ""))) suf).
Proof.
  intros H1 H2 Hsuf. destruct x as [|d0 [|d1 [|d2 x]]].
  - rewrite append_empty_l. reflexivity.
  - rewrite append_cons, append_empty_l, !startsWith_cons.
    rewrite (startsWith_continuation _ _ _ H1 Hsuf), startsWith_empty.
    rewrite !andb_false_r. reflexivity.
  - rewrite !append_cons, append_empty_l, !startsWith_cons.
    rewrite (startsWith_continuation _ _ _ H2 Hsuf), startsWith_empty.
    rewrite !andb_false_r. reflexivity.
  - rewrite !append_cons, !startsWith_cons. rewrite orb_false_r.
    reflexivity.
Qed.

Lemma admitsAll_any x suf :
  includes x (String "010" "") = false ->
  includes x (String "013" "") = false ->
  includes x RegExp.lineSeparator = false ->
  includes x RegExp.paragraphSeparator = false ->
  startsOnCharacter suf = true ->
  admitsAll RegExp.GroupAny x suf = true.
Proof.
  intros Hlf Hcr Hls Hps Hsuf.
  induction x as [|d x IH]; [reflexivity|].
  rewrite includes_char_cons in Hlf, Hcr. rewrite includes_cons in Hls, Hps.
  apply orb_false_iff in Hlf as [Hlf Hlf'], Hcr as [Hcr Hcr'],
    Hls as [Hls Hls'], Hps as [Hps Hps'].
  cbn [admitsAll RegExp.admits]. rewrite (IH Hlf' Hcr' Hls' Hps'), andb_true_r.
  unfold RegExp.lineTerminator.
  rewrite (Ascii.eqb_sym d "010"), (Ascii.eqb_sym d "013"), Hlf, Hcr.
  rewrite <- append_cons.
  unfold RegExp.lineSeparator, RegExp.paragraphSeparator in *.
  rewrite !startsWith_separator_app by (reflexivity || exact Hsuf).
  rewrite Hls, Hps. reflexivity.
Qed.





Section groups_inv.
Variable group : RegExp.node.
Hypothesis group_is_group :
  group = RegExp.GroupSegment \/ group = RegExp.GroupAny.

End groups_inv.

Section extractCaptures.
Variables pre suf : string.
Hypothesis pre_asterisk : includes pre "*" = false.
Hypothesis pre_tilde : includes pre "~" = false.
Hypothesis suf_asterisk : includes suf "*" = false.
Hypothesis suf_tilde : includes suf "~" = false.

Lemma match_single importPath :
  RegExp.match_ importPath
    ("^" +:+ GlobResolver._globToRegex (pre +:+ "*" +:+ suf) +:+ "$")
  = cons importPath
      <$> RegExp.exec (literal pre ++ RegExp.GroupSegment :: literal suf)
            importPath.
Proof.
  unfold RegExp.match_.
  rewrite (globToRegex_single pre suf pre_asterisk pre_tilde suf_asterisk
             suf_tilde).
  rewrite (compile_single pre suf pre_asterisk suf_asterisk). reflexivity.
Qed.

Lemma match_double importPath :
  RegExp.match_ importPath
    ("^" +:+ GlobResolver._globToRegex (pre +:+ "**" +:+ suf) +:+ "$")
  = cons importPath
      <$> RegExp.exec (literal pre ++ RegExp.GroupAny :: literal suf)
            importPath.
Proof.
  unfold RegExp.match_.
  rewrite (globToRegex_double pre suf pre_asterisk pre_tilde suf_asterisk
             suf_tilde).
  rewrite (compile_double pre suf pre_asterisk suf_asterisk). reflexivity.
Qed.

Lemma extractCaptures_single_capture x :
  includes x "/" = false ->
  GlobResolver._extractCaptures (pre +:+ "*" +:+ suf) (pre +:+ x +:+ suf)
  = [x].
Proof.
  intros Hx. unfold GlobResolver._extractCaptures. rewrite match_single.
  rewrite exec_literal, (exec_group_capture _ (or_introl eq_refl)).
  - reflexivity.
  - rewrite admitsAll_segment, Hx. reflexivity.
Qed.

Lemma extractCaptures_double_capture x :
  includes x (String "010" "") = false ->
  includes x (String "013" "") = false ->
  includes x RegExp.lineSeparator = false ->
  includes x RegExp.paragraphSeparator = false ->
  startsOnCharacter suf = true ->
  GlobResolver._extractCaptures (pre +:+ "**" +:+ suf) (pre +:+ x +:+ suf)
  = [x].
Proof.
  intros Hlf Hcr Hls Hps Hsuf.
  unfold GlobResolver._extractCaptures. rewrite match_double.
  rewrite exec_literal, (exec_group_capture _ (or_intror eq_refl)).
  - reflexivity.
  - apply admitsAll_any; assumption.
Qed.

End extractCaptures.


(** X14.  Round trip through the regular expression of a pattern with
    one asterisk: on a path made of the text before the asterisk, a
    text without slash, and the text behind it, [_extractCaptures]
    returns exactly that middle text.  The fixed parts may hold any
    characters, regular-expression syntax included, but no asterisk
    and no tilde. *)
Theorem single_asterisk_round_trip (pre suf x : string) :
  includes pre "*" = false -> includes pre "~" = false ->
  includes suf "*" = false -> includes suf "~" = false ->
  includes x "/" = false ->
  GlobResolver._extractCaptures (pre +:+ "*" +:+ suf) (pre +:+ x +:+ suf)
  = [x].
Proof.
  intros Hpa Hpt Hsa Hst Hx.
  apply extractCaptures_single_capture; assumption.
Qed.

Lemma single_asterisk_round_trip_witness :
  GlobResolver._extractCaptures ("./lib.v2/(" +:+ "*" +:+ ").js")
    ("./lib.v2/(" +:+ "button+?" +:+ ").js")
  = ["button+?"].
Proof.
  apply (single_asterisk_round_trip "./lib.v2/(" ").js" "button+?");
    reflexivity.
Defined.

(** X15.  Round trip for a double asterisk: the capture is the middle
    text whenever that text holds no line terminator (line feed,
    carriage return, U+2028 or U+2029, which the dot of the group does
    not match), so it may run across slashes.  The text behind the
    double asterisk starts at a character boundary of the UTF-8
    encoding, as every text does that is not cut inside a
    character. *)
Theorem double_asterisk_round_trip (pre suf x : string) :
  includes pre "*" = false -> includes pre "~" = false ->
  includes suf "*" = false -> includes suf "~" = false ->
  includes x (String "010" "") = false ->
  includes x (String "013" "") = false ->
  includes x RegExp.lineSeparator = false ->
  includes x RegExp.paragraphSeparator = false ->
  startsOnCharacter suf = true ->
  GlobResolver._extractCaptures (pre +:+ "**" +:+ suf) (pre +:+ x +:+ suf)
  = [x].
Proof.
  intros Hpa Hpt Hsa Hst Hlf Hcr Hls Hps Hsuf.
  apply extractCaptures_double_capture; assumption.
Qed.

Lemma double_asterisk_round_trip_witness :
  GlobResolver._extractCaptures ("./features/" +:+ "**" +:+ ".js")
    ("./features/" +:+ "auth/login/form" +:+ ".js")
  = ["auth/login/form"].
Proof.
  apply (double_asterisk_round_trip "./features/" ".js" "auth/login/form");
    reflexivity.
Defined.



(** ** Wildcards in the target of a pattern *)

Lemma replaceWith_double_lone {St : Type} (fn : St -> string * St) st a b :
  includes a "*" = false -> includes b "*" = false ->
  replaceWith "**" fn O st (a +:+ "*" +:+ b) = (a +:+ "*" +:+ b, st).
Proof.
  intros Ha Hb. rewrite (replaceWith_skip_prefix _ _ _ _ _ _ Ha).
  change ("*" +:+ b) with (String "*" b).
  rewrite replaceWith_cons.
  replace (startsWith "**" (String "*" b)) with false.
  - rewrite (replaceWith_absent _ _ _ _ _ Hb). reflexivity.
  - change (startsWith "**" (String "*" b)) with (startsWith "*" b).
    symmetry. apply startsWith_absent, Hb.
Qed.

Lemma _replaceWildcards_single tpre tsuf x rest :
  includes tpre "*" = false -> includes tsuf "*" = false ->
  GlobResolver._replaceWildcards (tpre +:+ "*" +:+ tsuf) (x :: rest)
  = tpre +:+ x +:+ tsuf.
Proof.
  intros Hpre Hsuf. unfold GlobResolver._replaceWildcards.
  rewrite (replaceWith_double_lone _ _ _ _ Hpre Hsuf).
  rewrite (replaceWith_skip_prefix _ _ _ _ _ _ Hpre).
  rewrite (replaceWith_here "*" "" _ O tsuf).
  change (GlobResolver.nextCapture (x :: rest) "*" O) with (x, 1).
  cbn [fst snd]. rewrite (replaceWith_absent _ _ _ _ _ Hsuf). reflexivity.
Qed.

Lemma _replaceWildcards_double tpre tsuf x :
  includes tpre "*" = false -> includes tsuf "*" = false ->
  GlobResolver._replaceWildcards (tpre +:+ "**" +:+ tsuf) [x]
  = tpre +:+ x +:+ tsuf.
Proof.
  intros Hpre Hsuf. unfold GlobResolver._replaceWildcards.
  rewrite (replaceWith_skip_prefix _ _ _ _ _ _ Hpre).
  rewrite (replaceWith_here "*" "*" _ O tsuf).
  change (GlobResolver.nextCapture [x] "**" O) with (x, 1).
  cbn [fst snd]. rewrite (replaceWith_absent _ _ _ _ _ Hsuf). cbn [fst snd].
  rewrite replaceWith_single_exhausted by (simpl; lia). reflexivity.
Qed.

(** X17.  One wildcard in a target path takes the capture.  A leaf with
    one single asterisk gets the first capture in its place, whatever
    captures follow; a leaf with one double asterisk gets the only
    capture in its place, whatever characters the capture holds.  The
    kind of asterisk in the leaf need not be the kind in the pattern. *)
Theorem wildcard_takes_the_capture
    (tpre tsuf x : string) (rest : list string) :
  includes tpre "*" = false -> includes tsuf "*" = false ->
  GlobResolver._replaceWildcards (tpre +:+ "*" +:+ tsuf) (x :: rest)
  = tpre +:+ x +:+ tsuf /\
  GlobResolver._replaceWildcards (tpre +:+ "**" +:+ tsuf) [x]
  = tpre +:+ x +:+ tsuf.
Proof.
  intros Hpre Hsuf.
  split; [apply _replaceWildcards_single | apply _replaceWildcards_double];
    assumption.
Qed.

Lemma wildcard_takes_the_capture_witness :
  GlobResolver._replaceWildcards ("./dist/" +:+ "*" +:+ ".js") ["a*b"; "c"]
  = "./dist/" +:+ "a*b" +:+ ".js" /\
  GlobResolver._replaceWildcards ("./dist/" +:+ "**" +:+ ".js") ["a*b"]
  = "./dist/" +:+ "a*b" +:+ ".js".
Proof.
  apply (wildcard_takes_the_capture "./dist/" ".js" "a*b" ["c"]);
    reflexivity.
Defined.



(** ** The two revisions of [ExportTarget] *)

(** The two constructors on the manifest entry that has the fields of
    a parsed entry and nothing else. *)
Lemma asExportValue_agreement (target : Flat.ExportTargetData) :
  Flat.nonEmpty target = true ->
  ((exists e, Flat.new target = Throw e) <->
   (exists e,
      ExportTarget.new (Flat.asExportValue target) noOptions = Throw e)) /\
  (forall earlier later,
     Flat.new target = Normal earlier ->
     ExportTarget.new (Flat.asExportValue target) noOptions = Normal later ->
     extendedBy earlier later /\
     falsy (ExportTarget.import later) = false /\
     falsy (ExportTarget.require later) = false /\
     falsy (ExportTarget.types later) = false).
Proof.
  intros Hfilled. split.
  - destruct target as [[|c path]|[d i r t]]; [discriminate Hfilled| |].
    + split; intros [e He]; vm_compute in He; discriminate He.
    + destruct d as [[|dc d]|], i as [[|ic i]|], r as [[|rc r]|],
        t as [[|tc t]|]; try discriminate Hfilled;
        (split; intros [e He];
         first [ vm_compute in He; discriminate He
               | eexists; vm_compute; reflexivity ]).
  - destruct target as [[|c path]|[d i r t]]; [discriminate Hfilled| |].
    + intros earlier later [= <-] Hlater. vm_compute in Hlater.
      injection Hlater as <-. repeat split; auto.
    + destruct d as [[|dc d]|], i as [[|ic i]|], r as [[|rc r]|],
        t as [[|tc t]|]; try discriminate Hfilled;
        intros earlier later Hearlier Hlater;
        vm_compute in Hearlier; vm_compute in Hlater;
        first [ discriminate Hearlier
              | injection Hearlier as <-; injection Hlater as <-;
                repeat split; simpl; intros; congruence ].
Qed.

(** A manifest entry that is read as [target] holds under every key
    what the entry with the fields of [target] holds. *)
Lemma readAs_get entries fields key :
  readAs (Conditional entries) (Flat.TObject fields) ->
  match Flat.asExportValue (Flat.TObject fields) with
  | Conditional canonical => get entries key = get canonical key
  | _ => False
  end.
Proof.
  intros (_ & Hkeys & Hd & Hi & Hr & Ht). simpl.
  destruct (decide (key ∈ Flat.keys)) as [Hkey|Hother].
  - unfold Flat.keys in Hkey.
    repeat (apply elem_of_cons in Hkey as [->|Hkey]);
      [| | | |inversion Hkey];
      rewrite ?Hd, ?Hi, ?Hr, ?Ht;
      destruct fields as [[d|] [i|] [r|] [t|]]; reflexivity.
  - rewrite (get_not_key entries) by (intros Hin; exact (Hother (Hkeys _ Hin))).
    symmetry. apply get_not_key. intros Hin. apply Hother.
    unfold Flat.keys.
    destruct fields as [[d|] [i|] [r|] [t|]]; simpl in Hin; set_solver.
Qed.

Lemma readAs_resolve raw target conditions :
  readAs raw target ->
  ExportTarget._resolveExportValue raw conditions
  = ExportTarget._resolveExportValue (Flat.asExportValue target) conditions.
Proof.
  destruct raw as [path| |items|entries], target as [path'|fields];
    try contradiction.
  - simpl. intros ->. reflexivity.
  - intros Hread. simpl. apply condition_loop_ext. intros c _.
    unfold outcome. pose proof (readAs_get _ _ c Hread) as Hget.
    simpl in Hget. rewrite Hget. reflexivity.
Qed.

(** X19.  The revision with conditional exports extends the earlier
    one, on the manifest entries that have no key other than
    [default], [import], [require] and [types].  Take such an entry, a
    string or an object, in which no path is the empty string, and
    what the earlier schema reads from it.  The two constructors throw
    on the same entries.  When construction succeeds, [default] is the
    same in both, every field the entry declares keeps its path, and
    the later revision also fills the fields the entry leaves out.
    The revisions part in two places: the empty string as a target,
    which the earlier one accepts and the later one rejects, and an
    entry with another key, such as [node], which the earlier schema
    drops and the later revision resolves first. *)
Theorem revisions_agree_on_flat_targets
    (raw : ExportValue) (target : Flat.ExportTargetData) :
  readAs raw target ->
  Flat.nonEmpty target = true ->
  ((exists e, Flat.new target = Throw e) <->
   (exists e, ExportTarget.new raw noOptions = Throw e)) /\
  (forall earlier later,
     Flat.new target = Normal earlier ->
     ExportTarget.new raw noOptions = Normal later ->
     Flat.default earlier = ExportTarget.default later /\
     (forall path, Flat.import earlier = Some path ->
        ExportTarget.import later = Some path) /\
     (forall path, Flat.require earlier = Some path ->
        ExportTarget.require later = Some path) /\
     (forall path, Flat.types earlier = Some path ->
        ExportTarget.types later = Some path) /\
     falsy (ExportTarget.import later) = false /\
     falsy (ExportTarget.require later) = false /\
     falsy (ExportTarget.types later) = false) /\
  ((exists earlier, Flat.new (Flat.TString "") = Normal earlier) /\
   ExportTarget.new (Leaf "") noOptions
   = Throw (InvalidExportTarget (Leaf ""))) /\
  ((exists earlier,
      Flat.new
        (Flat.TObject (ConditionSets.mk None (Some "./i.js") None None))
      = Normal earlier /\
      Flat.default earlier = Some "./i.js") /\
   (exists later,
      ExportTarget.new
        (Conditional [("node", Leaf "./n.js"); ("import", Leaf "./i.js")])
        noOptions
      = Normal later /\
      ExportTarget.default later = Some "./n.js")).
Proof.
  intros Hread Hfilled.
  pose proof (new_same_resolution raw (Flat.asExportValue target) noOptions
                (fun conditions => readAs_resolve _ _ conditions Hread))
    as Hsame.
  destruct (asExportValue_agreement target Hfilled) as [Hthrows Hfields].
  split; [|split; [|split]].
  - rewrite Hthrows.
    destruct (ExportTarget.new raw noOptions),
      (ExportTarget.new (Flat.asExportValue target) noOptions);
      try contradiction; split; intros [e He]; try discriminate He; eauto.
  - intros earlier later Hearlier Hlater. rewrite Hlater in Hsame.
    destruct (ExportTarget.new (Flat.asExportValue target) noOptions)
      as [canonical|]; [|contradiction].
    destruct (Hfields earlier canonical Hearlier eq_refl)
      as ((Hd & Hi & Hr & Ht) & Hi' & Hr' & Ht').
    destruct Hsame as (Ed & Ei & Er & Et). rewrite Ed, Ei, Er, Et.
    auto 10.
  - split; [eexists; reflexivity | reflexivity].
  - split; eexists; split; reflexivity.
Qed.

(** The theorem at the manifest entry
    [{ require: "./dist/index.cjs", import: "./dist/index.mjs" }],
    whose keys stand in another order than the schema's. *)
Lemma revisions_agree_on_flat_targets_witness :
  let raw :=
    Conditional
      [("require", Leaf "./dist/index.cjs");
       ("import", Leaf "./dist/index.mjs")] in
  let target :=
    Flat.TObject
      (ConditionSets.mk None (Some "./dist/index.mjs")
         (Some "./dist/index.cjs") None) in
  exists earlier later,
    Flat.new target = Normal earlier /\
    ExportTarget.new raw noOptions = Normal later /\
    Flat.default earlier = ExportTarget.default later.
Proof.
  intros raw target.
  assert (readAs raw target) as Hread.
  { split; [compute_done|]. split; [|repeat split].
    intros key Hkey. unfold Flat.keys. simpl in Hkey. set_solver. }
  eexists _, _. split; [reflexivity|]. split; [reflexivity|].
  exact (proj1 (proj1 (proj2 (revisions_agree_on_flat_targets raw target
                                Hread eq_refl))
                  _ _ eq_refl eq_refl)).
Defined.

(** ** Targets without wildcard, and the earlier revision's manifests *)

Lemma mapLeaves_id_on f value :
  (forall path, path ∈ leaves value -> f path = path) ->
  mapLeaves f value = value.
Proof.
  induction value as [p| |entries IH|entries IH]
    using ExportValue_nested_ind; simpl; intros Hf.
  - rewrite Hf by (apply list_elem_of_singleton; reflexivity). reflexivity.
  - reflexivity.
  - f_equal. rewrite <- (map_id entries) at 2. apply map_ext_in.
    intros e He. apply list_elem_of_In in He. rewrite Forall_forall in IH.
    apply (IH e He). intros path Hpath. apply Hf.
    apply list_elem_of_In, in_flat_map. exists e.
    split; apply list_elem_of_In; assumption.
  - f_equal. rewrite <- (map_id entries) at 2. apply map_ext_in.
    intros [k v] Hkv. apply list_elem_of_In in Hkv.
    rewrite Forall_forall in IH. f_equal.
    apply (IH (k, v) Hkv). intros path Hpath. apply Hf.
    apply list_elem_of_In, in_flat_map. exists (k, v).
    split; apply list_elem_of_In; assumption.
Qed.

Lemma substitute_fixed target captures :
  plainObjects target = true ->
  (forall path, path ∈ leaves target -> includes path "*" = false) ->
  GlobResolver._substituteExportValue target captures = target.
Proof.
  intros Hplain Hfixed. rewrite (substitute_mapLeaves _ _ Hplain).
  apply mapLeaves_id_on. intros path Hpath.
  apply _replaceWildcards_no_asterisk, Hfixed, Hpath.
Qed.

Lemma targetFor_fixed pattern target importPath options :
  plainObjects target = true ->
  (forall path, path ∈ leaves target -> includes path "*" = false) ->
  GlobResolver.targetFor pattern target importPath options
  = ExportTarget.new target options.
Proof.
  intros Hplain Hfixed. unfold GlobResolver.targetFor.
  destruct (negb (includes pattern "*")); [reflexivity|].
  cbv zeta. rewrite (substitute_fixed _ _ Hplain Hfixed). reflexivity.
Qed.



(** A manifest entry that the earlier schema reads whole is a plain
    object of path strings, the paths of its reading. *)
Lemma readAs_entry entries fields key v :
  readAs (Conditional entries) (Flat.TObject fields) ->
  (key, v) ∈ entries ->
  exists path, v = Leaf path /\ path ∈ Flat.paths (Flat.TObject fields).
Proof.
  intros (Hdistinct & Hkeys & Hd & Hi & Hr & Ht) Hin.
  pose proof (get_NoDup_elem_of _ _ _ Hdistinct Hin) as Hget.
  assert (key ∈ Flat.keys) as Hkey
    by (apply Hkeys, list_elem_of_fmap; exists (key, v); auto).
  unfold Flat.keys in Hkey.
  repeat (apply elem_of_cons in Hkey as [->|Hkey]); [| | | |inversion Hkey];
    rewrite ?Hd, ?Hi, ?Hr, ?Ht in Hget;
    destruct fields as [[d|] [i|] [r|] [t|]]; simpl in Hget;
    try discriminate Hget; injection Hget as <-;
    eexists; (split; [reflexivity|]); simpl; set_solver.
Qed.

Lemma readAs_plain raw target :
  readAs raw target -> plainObjects raw = true.
Proof.
  destruct raw as [path| |items|entries], target as [path'|fields];
    try contradiction; [reflexivity|].
  intros Hread. pose proof Hread as (Hdistinct & Hkeys & _). simpl.
  rewrite bool_decide_eq_true_2 by exact Hdistinct.
  rewrite (proj2 (hasOwnProperty_elem_of entries "__proto__")).
  - simpl. apply forallb_forall. intros [k v] Hin.
    apply list_elem_of_In in Hin.
    destruct (readAs_entry _ _ _ _ Hread Hin) as (path & -> & _). reflexivity.
  - intros Hin. apply Hkeys in Hin. unfold Flat.keys in Hin.
    repeat (apply elem_of_cons in Hin as [Hin|Hin]; [discriminate Hin|]).
    inversion Hin.
Qed.

Lemma readAs_leaves raw target path :
  readAs raw target -> path ∈ leaves raw -> path ∈ Flat.paths target.
Proof.
  destruct raw as [p| |items|entries], target as [path'|fields];
    try contradiction.
  - simpl. intros ->. auto.
  - intros Hread Hpath. simpl in Hpath.
    apply list_elem_of_In, in_flat_map in Hpath as ([k v] & Hin & Hpath).
    apply list_elem_of_In in Hin, Hpath.
    destruct (readAs_entry _ _ _ _ Hread Hin) as (p & -> & Hp).
    apply list_elem_of_singleton in Hpath as ->. exact Hp.
Qed.

(** The two constructors on an entry and its reading, as the two
    revisions of [resolveImport] return them. *)
Lemma new_sameOutcome raw target :
  readAs raw target ->
  Flat.nonEmpty target = true ->
  sameOutcome
    match Flat.new target with
    | Normal exportTarget => Normal (Some exportTarget)
    | Throw error => Throw error
    end
    (GlobResolver.returned (ExportTarget.new raw noOptions)).
Proof.
  intros Hread Hfilled.
  pose proof (new_same_resolution raw (Flat.asExportValue target) noOptions
                (fun conditions => readAs_resolve _ _ conditions Hread))
    as Hsame.
  destruct (asExportValue_agreement target Hfilled) as [Hthrows Hfields].
  destruct (ExportTarget.new raw noOptions) as [later|],
    (ExportTarget.new (Flat.asExportValue target) noOptions)
      as [canonical|] eqn:Hcanonical; try contradiction;
    destruct (Flat.new target) as [earlier|] eqn:Hearlier; simpl.
  - destruct (Hfields earlier canonical eq_refl eq_refl)
      as ((Hd & Hi & Hr & Ht) & _).
    destruct Hsame as (Ed & Ei & Er & Et). unfold extendedBy.
    rewrite Ed, Ei, Er, Et. auto.
  - destruct (proj1 Hthrows) as [e He]; [eauto|discriminate He].
  - destruct (proj2 Hthrows) as [e He]; [eauto|discriminate He].
  - exact I.
Qed.

(** X21.  Manifests of the earlier revision resolve the same way in
    the later one, when their entries have no key other than
    [default], [import], [require] and [types].  Take the [exports]
    record of such a manifest, in which no path is empty or holds an
    asterisk, and what the earlier schema reads from it.  For every
    matcher and import path the two revisions of [resolveImport] end
    the same way: both throw, both return [undefined], or both return
    a target, and then the later target has the [default] of the
    earlier one and every [import], [require] and [types] path that
    one has. *)
Theorem upgrade_keeps_resolution
    (minimatch : string -> string -> bool)
    (exports : object ExportValue) (patterns : object Flat.ExportTargetData)
    (importPath : string) :
  readAsTable exports patterns ->
  sameOutcome
    (Flat.resolveImport minimatch patterns importPath)
    (GlobResolver.resolveImport minimatch (GlobResolver.mk exports)
       importPath noOptions).
Proof.
  unfold GlobResolver.resolveImport. simpl GlobResolver.patterns.
  induction 1 as [|[pattern raw] [pattern' target] exports patterns
                    (Hpattern & Hread & Hfilled & Hfixed) _ IH];
    [exact I|].
  simpl in *. subst pattern'.
  destruct (minimatch importPath pattern); simpl; [|exact IH].
  rewrite targetFor_fixed.
  - apply new_sameOutcome; assumption.
  - apply (readAs_plain _ _ Hread).
  - intros path Hpath. apply Hfixed, (readAs_leaves _ _ _ Hread Hpath).
Qed.

(** The theorem at a manifest with a plain entry and an entry whose
    keys stand in another order than the schema's. *)
Lemma upgrade_keeps_resolution_witness :
  sameOutcome
    (Flat.resolveImport Minimatch.minimatch
       [("./utils", Flat.TString "./dist/utils.js");
        ("./icons/*",
         Flat.TObject
           (ConditionSets.mk None (Some "./dist/icons.mjs")
              (Some "./dist/icons.cjs") None))]
       "./icons/arrow")
    (GlobResolver.resolveImport Minimatch.minimatch
       (GlobResolver.mk
          [("./utils", Leaf "./dist/utils.js");
           ("./icons/*",
            Conditional
              [("require", Leaf "./dist/icons.cjs");
               ("import", Leaf "./dist/icons.mjs")])])
       "./icons/arrow" noOptions).
Proof.
  apply (upgrade_keeps_resolution Minimatch.minimatch).
  constructor; [|constructor; [|constructor]]; simpl.
  - repeat (split; [reflexivity|]). intros path Hpath.
    apply list_elem_of_singleton in Hpath as ->. reflexivity.
  - split; [reflexivity|]. split; [|split; [reflexivity|]].
    + split; [compute_done|]. split; [|repeat split].
      intros key Hkey. unfold Flat.keys. set_solver.
    + intros path Hpath.
      apply elem_of_cons in Hpath as [->|Hpath]; [reflexivity|].
      apply list_elem_of_singleton in Hpath as ->. reflexivity.
Defined.

(** ** A pattern the matcher accepts and the regular expression does not *)


